(** * Sales-Education-Agent back end: tokenizers, sliding-window chunker
      and RAG ingestion pipeline

    Shallow embedding of [src/services/tokenizer.ts] and
    [src/services/ragBuilder.ts], and the properties of the ingestion
    subsystem proved over it. *)

From Stdlib Require Import String Ascii DecimalString List NArith ZArith Bool Lia.
Import ListNotations.

Set Implicit Arguments.

(* ===================================================================== *)
(** * JavaScript strings and the built-ins the sources call *)
(* ===================================================================== *)

Module JS.

(** A JavaScript string is a sequence of UTF-16 code units; [length] is the
    [.length] property.  None of the regular expressions of the sources
    carries the [u] flag, so they work on code units as well. *)
Definition code_unit := N.
Definition jsstring := list code_unit.

(** ASCII literals, for examples. *)
Definition str (s : string) : jsstring :=
  map N_of_ascii (list_ascii_of_string s).

(** The class [\s] of ECMAScript regular expressions, which is also the set
    [String.prototype.trim] strips: WhiteSpace and LineTerminator. *)
Definition isWhiteSpace (c : code_unit) : bool :=
  ((0x0009 <=? c) && (c <=? 0x000D)       (* TAB LF VT FF CR *)
   || (c =? 0x0020) || (c =? 0x00A0) || (c =? 0x1680)
   || ((0x2000 <=? c) && (c <=? 0x200A))
   || (c =? 0x2028) || (c =? 0x2029) || (c =? 0x202F)
   || (c =? 0x205F) || (c =? 0x3000) || (c =? 0xFEFF))%N.

(** [String.prototype.trim]. *)
Fixpoint trimStart (s : jsstring) : jsstring :=
  match s with
  | c :: s' => if isWhiteSpace c then trimStart s' else s
  | [] => []
  end.

Definition trimEnd (s : jsstring) : jsstring := rev (trimStart (rev s)).

Definition trim (s : jsstring) : jsstring := trimEnd (trimStart s).

(** [Array.prototype.join('')]. *)
Definition join (words : list jsstring) : jsstring := concat words.

(** [Array.prototype.slice(1)]: of the empty array it is the empty array. *)
Definition slice1 {A} (l : list A) : list A := tl l.

(** [String.prototype.includes]. *)
Fixpoint startsWith (s p : jsstring) : bool :=
  match p, s with
  | [], _ => true
  | a :: p', b :: s' => (a =? b)%N && startsWith s' p'
  | _ :: _, [] => false
  end.

Fixpoint includes (s p : jsstring) : bool :=
  startsWith s p ||
  match s with
  | [] => false
  | _ :: s' => includes s' p
  end.

(** ** [String.prototype.split] with a regular expression

    The split loop of ECMAScript runs the pattern as a sticky match at
    every index [q]: a [matcher] is given the text before [q] (reversed, for
    lookbehind) and the text from [q] on, and answers with the length of the
    match and the captures, or [None]. *)
Definition matcher := jsstring -> jsstring -> option (nat * list jsstring).

(** [piece] is the text between the end [p] of the last match and [q],
    reversed.  After a match of [S k] code units at [q] the piece and the
    captures are pushed and [q] jumps to the end of the match: the next [k]
    code units are passed over ([skip]).  An empty match at [q = p] only
    advances [q]; an empty match after a non-empty piece pushes the piece
    first. *)
Fixpoint split_loop (m : matcher) (skip : nat) (before piece s : jsstring)
  : list jsstring :=
  match s with
  | [] => [rev piece]
  | c :: s' =>
      match skip with
      | S k => split_loop m k (c :: before) [] s'
      | O =>
          match m before s with
          | Some (S k, caps) =>
              rev piece :: caps ++ split_loop m k (c :: before) [] s'
          | Some (O, caps) =>
              match piece with
              | [] => split_loop m 0 (c :: before) [c] s'
              | _ :: _ =>
                  rev piece :: caps ++ split_loop m 0 (c :: before) [c] s'
              end
          | None => split_loop m 0 (c :: before) (c :: piece) s'
          end
      end
  end.

Definition split (m : matcher) (s : jsstring) : list jsstring :=
  match s with
  | [] => match m [] [] with Some _ => [] | None => [[]] end
  | _ :: _ => split_loop m 0 [] [] s
  end.

(** Length of the longest run of [\s] at the head of [s]. *)
Fixpoint ws_run (s : jsstring) : nat :=
  match s with
  | c :: s' => if isWhiteSpace c then S (ws_run s') else O
  | [] => O
  end.

(** [/(\s+)/] *)
Definition re_ws_capture : matcher := fun _ s =>
  match ws_run s with
  | O => None
  | S k => Some (S k, [firstn (S k) s])
  end.

(** [/\s+/] *)
Definition re_ws : matcher := fun _ s =>
  match ws_run s with
  | O => None
  | S k => Some (S k, [])
  end.

(** [[.!?]] *)
Definition isTerminator (c : code_unit) : bool :=
  ((c =? 0x2E) || (c =? 0x21) || (c =? 0x3F))%N.

(** [/(?<=[.!?])\s+/] *)
Definition re_sentence_end : matcher := fun before s =>
  match before with
  | c :: _ => if isTerminator c then re_ws before s else None
  | [] => None
  end.

(** Index of the last line feed of [s], if any. *)
Fixpoint last_LF (s : jsstring) : option nat :=
  match s with
  | [] => None
  | c :: s' =>
      match last_LF s' with
      | Some k => Some (S k)
      | None => if (c =? 0x0A)%N then Some O else None
      end
  end.

(** [/\n\s*\n/]: a line feed, then the greedy [\s*] gives back code units
    until the last line feed of the whitespace run that follows. *)
Definition re_blank_line : matcher := fun _ s =>
  match s with
  | c :: s' =>
      if (c =? 0x0A)%N then
        match last_LF (firstn (ws_run s') s') with
        | Some k => Some (S (S k), [])
        | None => None
        end
      else None
  | [] => None
  end.

Arguments str : simpl never.

End JS.

Import JS.

(* ===================================================================== *)
(** * [src/services/tokenizer.ts] *)
(* ===================================================================== *)

Definition nonEmpty (word : jsstring) : bool := (0 <? length word)%nat.

(** [interface WordTokenizer] *)
Module WordTokenizer.
Record t := {
  tokenize : jsstring -> list jsstring;
  formatWords : list jsstring -> jsstring
}.
End WordTokenizer.

(** [interface SentenceTokenizer] *)
Module SentenceTokenizer.
Record t := {
  tokenize : jsstring -> list jsstring
}.
End SentenceTokenizer.

(** [class BasicWordTokenizer] *)
Definition BasicWordTokenizer (ignorePunctuation : bool) : WordTokenizer.t := {|
  WordTokenizer.tokenize text :=
    if ignorePunctuation
    then filter nonEmpty (split re_ws text)
    else
      (* Split on whitespace while preserving punctuation *)
      filter nonEmpty (split re_ws_capture text);
  WordTokenizer.formatWords words := join words
|}.

(** [class BasicSentenceTokenizer] *)
Definition BasicSentenceTokenizer : SentenceTokenizer.t := {|
  SentenceTokenizer.tokenize text :=
    let sentences := split re_sentence_end text in
    filter (fun s => nonEmpty (trim s)) sentences
|}.

(** [function tokenizeParagraphs] *)
Definition tokenizeParagraphs (text : jsstring) : list jsstring :=
  let paragraphs := split re_blank_line text in
  filter nonEmpty (map trim paragraphs).

(** ** [class SentenceChunker] *)

(** The sizes are character counts; they are compared with [.length]. *)
Record SentenceChunker := {
  maxChunkSize : Z;
  chunkOverlap : Z;
  paragraphTokenizer : jsstring -> list jsstring;
  sentenceTokenizer : SentenceTokenizer.t;
  wordTokenizer : WordTokenizer.t
}.

Record SentenceChunkerOptions := {
  opt_maxChunkSize : option Z;
  opt_chunkOverlap : option Z;
  opt_paragraphTokenizer : option (jsstring -> list jsstring);
  opt_sentenceTokenizer : option SentenceTokenizer.t;
  opt_wordTokenizer : option WordTokenizer.t
}.

(** [a ?? b] *)
Definition nullish {A} (a : option A) (b : A) : A :=
  match a with Some x => x | None => b end.

(** [constructor(options = {})] *)
Definition new_SentenceChunker (options : SentenceChunkerOptions)
  : SentenceChunker := {|
  maxChunkSize := nullish (opt_maxChunkSize options) 120%Z;
  chunkOverlap := nullish (opt_chunkOverlap options) 30%Z;
  paragraphTokenizer :=
    nullish (opt_paragraphTokenizer options) tokenizeParagraphs;
  sentenceTokenizer :=
    nullish (opt_sentenceTokenizer options) BasicSentenceTokenizer;
  wordTokenizer := nullish (opt_wordTokenizer options) (BasicWordTokenizer false)
|}.

Definition no_options : SentenceChunkerOptions :=
  {| opt_maxChunkSize := None; opt_chunkOverlap := None;
     opt_paragraphTokenizer := None; opt_sentenceTokenizer := None;
     opt_wordTokenizer := None |}.

(** A [for ... of] loop whose body may fail to come back: [None] is a body
    that did not return within its fuel. *)
Fixpoint forOf {A S} (body : S -> A -> option S) (l : list A) (s : S)
  : option S :=
  match l with
  | [] => Some s
  | a :: l' =>
      match body s a with
      | Some s' => forOf body l' s'
      | None => None
      end
  end.

(** The local variables of [chunk]. *)
Record Locals := {
  chunks : list jsstring;
  bufWords : list jsstring;
  lastBufWords : list jsstring
}.

Section Chunk.

Variable this : SentenceChunker.

Let format := WordTokenizer.formatWords (wordTokenizer this).

(** [while (formatWords(lastBufWords).length > chunkOverlap)
       lastBufWords = lastBufWords.slice(1)]
    with one unit of [fuel] per evaluation of the condition. *)
Fixpoint trimLoop (fuel : nat) (lastBufWords : list jsstring)
  : option (list jsstring) :=
  match fuel with
  | O => None
  | S fuel' =>
      if (Z.of_nat (length (format lastBufWords)) >? chunkOverlap this)%Z
      then trimLoop fuel' (slice1 lastBufWords)
      else Some lastBufWords
  end.

(** The trim loop followed by [chunks.push(formatWords([...lastBufWords,
    ...bufWords]))]. *)
Definition pushChunk (fuel : nat) (st : Locals) : option Locals :=
  match trimLoop fuel (lastBufWords st) with
  | None => None
  | Some last =>
      let newChunk := format (last ++ bufWords st) in
      Some {| chunks := chunks st ++ [newChunk];
              bufWords := bufWords st;
              lastBufWords := last |}
  end.

(** Body of the loop over the words of a sentence. *)
Definition wordBody (fuel : nat) (st : Locals) (word : jsstring)
  : option Locals :=
  let reconstructed := format (bufWords st ++ [word]) in
  let flushed :=
    if (Z.of_nat (length reconstructed) >? maxChunkSize this)%Z then
      match pushChunk fuel st with
      | None => None
      | Some st1 =>
          Some {| chunks := chunks st1;
                  bufWords := [];
                  lastBufWords := bufWords st1 |}
      end
    else Some st in
  match flushed with
  | None => None
  | Some st2 =>
      Some {| chunks := chunks st2;
              bufWords := bufWords st2 ++ [word];
              lastBufWords := lastBufWords st2 |}
  end.

Definition sentenceBody (fuel : nat) (st : Locals) (sentence : jsstring)
  : option Locals :=
  forOf (wordBody fuel)
        (WordTokenizer.tokenize (wordTokenizer this) sentence) st.

(** Body of the loop over the paragraphs: [lastBufWords] is declared anew,
    [bufWords] lives across paragraphs. *)
Definition paragraphBody (fuel : nat) (st : Locals) (paragraph : jsstring)
  : option Locals :=
  let st0 := {| chunks := chunks st; bufWords := bufWords st;
                lastBufWords := [] |} in
  match forOf (sentenceBody fuel)
              (SentenceTokenizer.tokenize (sentenceTokenizer this) paragraph)
              st0 with
  | None => None
  | Some st1 =>
      if (0 <? length (bufWords st1))%nat then
        match pushChunk fuel st1 with
        | None => None
        | Some st2 =>
            Some {| chunks := chunks st2; bufWords := [];
                    lastBufWords := lastBufWords st2 |}
        end
      else Some st1
  end.

(** [chunk(text)]; [fuel] bounds the evaluations of the condition of each
    trim loop, and the result is [None] when one of them is not over by
    then. *)
Definition chunk (fuel : nat) (text : jsstring) : option (list jsstring) :=
  let st := {| chunks := []; bufWords := []; lastBufWords := [] |} in
  match forOf (paragraphBody fuel) (paragraphTokenizer this text) st with
  | None => None
  | Some st' => Some (chunks st')
  end.

(** Every word token the chunker sees, in order. *)
Definition paragraphWords (paragraph : jsstring) : list jsstring :=
  flat_map (WordTokenizer.tokenize (wordTokenizer this))
           (SentenceTokenizer.tokenize (sentenceTokenizer this) paragraph).

Definition allWords (text : jsstring) : list jsstring :=
  flat_map paragraphWords (paragraphTokenizer this text).

End Chunk.

(** ** Vocabulary for the properties of the chunker *)

(** The word tokens held in the two buffers. *)
Definition buffered (st : Locals) : nat :=
  (length (lastBufWords st) + length (bufWords st))%nat.

(** A chunker with the given sizes and the default tokenizers. *)
Definition chunkerOfSizes (maxChunkSize chunkOverlap : Z) : SentenceChunker :=
  new_SentenceChunker
    {| opt_maxChunkSize := Some maxChunkSize;
       opt_chunkOverlap := Some chunkOverlap;
       opt_paragraphTokenizer := None; opt_sentenceTokenizer := None;
       opt_wordTokenizer := None |}.

(** The chunk is longer than [maxChunkSize] by no more than one of the
    word tokens of the text. *)
Definition withinOneWord (this : SentenceChunker) (text chunk : jsstring)
  : Prop :=
  exists word, In word (allWords this text) /\
    (Z.of_nat (length chunk)
     <= maxChunkSize this + Z.of_nat (length word))%Z.

(** The chunk is no longer than the overlap and, after it, the larger of
    [maxChunkSize] and one of the given word tokens. *)
Definition fitsWith (this : SentenceChunker) (words : list jsstring)
    (chunk : jsstring) : Prop :=
  exists word, In word words /\
    (Z.of_nat (length chunk)
     <= chunkOverlap this
        + Z.max (maxChunkSize this) (Z.of_nat (length word)))%Z.

Definition withinOverlapAndWord (this : SentenceChunker)
    (text chunk : jsstring) : Prop :=
  fitsWith this (allWords this text) chunk.

(** The chunk under construction is empty, or no longer than the larger of
    [maxChunkSize] and one of the given word tokens. *)
Definition bufFits (this : SentenceChunker) (words buf : list jsstring)
  : Prop :=
  buf = [] \/
  exists word, In word words /\
    (Z.of_nat (length (join buf))
     <= Z.max (maxChunkSize this) (Z.of_nat (length word)))%Z.

(** What the loops of [chunk] keep true of the chunks pushed so far and
    of the chunk under construction. *)
Definition chunksFit (this : SentenceChunker) (words : list jsstring)
    (st : Locals) : Prop :=
  Forall (fitsWith this words) (chunks st) /\
  bufFits this words (bufWords st).

(** [chunk(text)] returns, and the chunk is in the array it returns. *)
Definition emits (this : SentenceChunker) (text c : jsstring) : Prop :=
  exists fuel cs, chunk this fuel text = Some cs /\ In c cs.

(** [chunk(text)] does not return. *)
Definition diverges (this : SentenceChunker) (text : jsstring) : Prop :=
  forall fuel, chunk this fuel text = None.

(** [next] begins with a suffix of [prev] of at most [n] code units. *)
Definition overlaps (n : nat) (prev next : jsstring) : Prop :=
  exists carry before after,
    prev = before ++ carry /\ next = carry ++ after /\
    (length carry <= n)%nat.

(** The first word token of the paragraph is longer than [maxChunkSize]. *)
Definition firstWordTooLong (this : SentenceChunker) (paragraph : jsstring)
  : Prop :=
  exists word rest,
    paragraphWords this paragraph = word :: rest /\
    (Z.of_nat (length word) > maxChunkSize this)%Z.

(* ===================================================================== *)
(** * [src/services/ragBuilder.ts] *)
(* ===================================================================== *)

(** ** Exceptions, results and the monad of the [async] methods

    An [async] method is run to completion by one caller here: [await] is
    sequencing, a rejected promise is a thrown exception. *)

(** A thrown [Error]. *)
Record exn := { name : jsstring; message : jsstring }.

Definition Error (message : jsstring) : exn :=
  {| name := str "Error"; message := message |}.

(** [Error.prototype.toString], what [`${error}`] prints. *)
Definition exn_toString (e : exn) : jsstring :=
  match name e, message e with
  | [], m => m
  | n, [] => n
  | n, m => n ++ str ": " ++ m
  end.

(** [`${idx}`] for an array index. *)
Definition Number_toString (n : nat) : jsstring :=
  str (DecimalString.NilZero.string_of_uint (Nat.to_uint n)).

Inductive result (A : Type) : Type :=
| Ok (a : A)
| Throw (e : exn).
Arguments Ok {A} a.
Arguments Throw {A} e.

Definition M (St A : Type) : Type := St -> result A * St.

Definition ret {St A} (a : A) : M St A := fun s => (Ok a, s).

Definition bind {St A B} (c : M St A) (k : A -> M St B) : M St B :=
  fun s =>
    match c s with
    | (Ok a, s') => k a s'
    | (Throw e, s') => (Throw e, s')
    end.

Definition throw {St A} (e : exn) : M St A := fun s => (Throw e, s).

(** [try { c } catch (error) { handler error }]: what [c] did to the state
    before it threw stays done. *)
Definition tryCatch {St A} (c : M St A) (handler : exn -> M St A) : M St A :=
  fun s =>
    match c s with
    | (Ok a, s') => (Ok a, s')
    | (Throw e, s') => handler e s'
    end.

Definition get {St} : M St St := fun s => (Ok s, s).
Definition modify {St} (f : St -> St) : M St unit := fun s => (Ok tt, f s).

Declare Scope exec_scope.
Delimit Scope exec_scope with exec.
Notation "x <- c ;; k" := (bind c (fun x => k))
  (at level 61, c at next level, right associativity) : exec_scope.
Notation "c ;; k" := (bind c (fun _ => k))
  (at level 61, right associativity) : exec_scope.
Local Open Scope exec_scope.

(** [for (let idx = i; idx < l.length; idx++) body(idx, l[idx])] *)
Fixpoint forIdx {St A} (body : nat -> A -> M St unit) (idx : nat) (l : list A)
  : M St unit :=
  match l with
  | [] => ret tt
  | a :: l' => body idx a ;; forIdx body (S idx) l'
  end.

Section Pipeline.

(** The components of an embedding vector are opaque to the pipeline. *)
Variable number : Type.

Record DocumentMetadata := {
  index : nat;
  embedding_model : jsstring;
  embedding_dimension : Z
}.

Record RAGDocument := {
  uuid : jsstring;
  uid : option jsstring;
  content : jsstring;
  embedding : list number;
  created_at : Z;
  metadata : DocumentMetadata
}.

Record RAGBuilderOptions := {
  opt_mongodbUrl : option jsstring;  (* optional: the shared client is used *)
  opt_databaseName : option jsstring;
  opt_collectionName : option jsstring;
  opt_embeddingsDimension : option Z;
  opt_embeddingsModel : option jsstring;
  opt_uid : option jsstring
}.

(** The fields of [class RAGBuilder]; its OpenAI client is the embedding
    service of the environment below. *)
Record RAGBuilder := {
  databaseName : jsstring;
  collectionName : jsstring;
  embeddingsDimension : Z;
  embeddingsModel : jsstring;
  builder_uid : option jsstring
}.

Definition new_RAGBuilder (options : RAGBuilderOptions) : RAGBuilder := {|
  databaseName := nullish (opt_databaseName options) (str "nfa");
  collectionName := nullish (opt_collectionName options) (str "knowledges");
  embeddingsDimension := nullish (opt_embeddingsDimension options) 1536%Z;
  embeddingsModel :=
    nullish (opt_embeddingsModel options) (str "text-embedding-3-small");
  builder_uid := opt_uid options
|}.

(** ** The collaborators

    The MongoDB server, the embedding service, the UUID generator, the clock
    and the file system are outside the program.  [Env] fixes how they
    behave, call by call; [World] is what the program has done to them. *)

Inductive LogLevel := LogInfo | LogWarn | LogError.

Inductive FsEntry :=
| File (data : jsstring)      (* a readable file and its text *)
| Unreadable (e : exn).       (* something [readFile] fails on *)

Record Env := {
  (** the failure, if any, of the [n]-th operation on the database *)
  storeFault : nat -> option exn;
  (** the records the server refuses in the batch of the [n]-th operation
      (a duplicate key, say) *)
  rejects : nat -> RAGDocument -> bool;
  (** the answer to the [n]-th embedding request (input, model, dimensions) *)
  embeddings_create : nat -> jsstring -> jsstring -> Z -> result (list number);
  (** the [n]-th identifier of [randomUUID] *)
  uuid_source : nat -> jsstring;
  (** the time of the [n]-th [new Date()] *)
  clock : nat -> Z;
  (** the files *)
  fs : jsstring -> option FsEntry;
  (** [minPoolSize] and [maxPoolSize], read from the process environment *)
  poolSizes : nat * nat
}.

Record World := {
  connected : bool;                  (* [db], [client] of config/database.ts *)
  collection : list RAGDocument;     (* the records of the collection *)
  indexes : list jsstring;           (* the names of its indexes *)
  insertManyCalls : list (list RAGDocument);  (* batches, oldest first *)
  storeOps : nat;                    (* operations on the database so far *)
  embeddingRequests : nat;
  uuidsDrawn : nat;
  clockReads : nat;
  log : list (LogLevel * jsstring)
}.

(** Field updates. *)
Definition setConnected (b : bool) (w : World) : World :=
  {| connected := b; collection := collection w; indexes := indexes w;
     insertManyCalls := insertManyCalls w; storeOps := storeOps w;
     embeddingRequests := embeddingRequests w; uuidsDrawn := uuidsDrawn w;
     clockReads := clockReads w; log := log w |}.

Definition setCollection (c : list RAGDocument) (w : World) : World :=
  {| connected := connected w; collection := c; indexes := indexes w;
     insertManyCalls := insertManyCalls w; storeOps := storeOps w;
     embeddingRequests := embeddingRequests w; uuidsDrawn := uuidsDrawn w;
     clockReads := clockReads w; log := log w |}.

Definition setIndexes (i : list jsstring) (w : World) : World :=
  {| connected := connected w; collection := collection w; indexes := i;
     insertManyCalls := insertManyCalls w; storeOps := storeOps w;
     embeddingRequests := embeddingRequests w; uuidsDrawn := uuidsDrawn w;
     clockReads := clockReads w; log := log w |}.

Definition setInsertManyCalls (c : list (list RAGDocument)) (w : World)
  : World :=
  {| connected := connected w; collection := collection w;
     indexes := indexes w; insertManyCalls := c; storeOps := storeOps w;
     embeddingRequests := embeddingRequests w; uuidsDrawn := uuidsDrawn w;
     clockReads := clockReads w; log := log w |}.

Definition setStoreOps (n : nat) (w : World) : World :=
  {| connected := connected w; collection := collection w;
     indexes := indexes w; insertManyCalls := insertManyCalls w;
     storeOps := n; embeddingRequests := embeddingRequests w;
     uuidsDrawn := uuidsDrawn w; clockReads := clockReads w; log := log w |}.

Definition setEmbeddingRequests (n : nat) (w : World) : World :=
  {| connected := connected w; collection := collection w;
     indexes := indexes w; insertManyCalls := insertManyCalls w;
     storeOps := storeOps w; embeddingRequests := n;
     uuidsDrawn := uuidsDrawn w; clockReads := clockReads w; log := log w |}.

Definition setUuidsDrawn (n : nat) (w : World) : World :=
  {| connected := connected w; collection := collection w;
     indexes := indexes w; insertManyCalls := insertManyCalls w;
     storeOps := storeOps w; embeddingRequests := embeddingRequests w;
     uuidsDrawn := n; clockReads := clockReads w; log := log w |}.

Definition setClockReads (n : nat) (w : World) : World :=
  {| connected := connected w; collection := collection w;
     indexes := indexes w; insertManyCalls := insertManyCalls w;
     storeOps := storeOps w; embeddingRequests := embeddingRequests w;
     uuidsDrawn := uuidsDrawn w; clockReads := n; log := log w |}.

Definition setLog (l : list (LogLevel * jsstring)) (w : World) : World :=
  {| connected := connected w; collection := collection w;
     indexes := indexes w; insertManyCalls := insertManyCalls w;
     storeOps := storeOps w; embeddingRequests := embeddingRequests w;
     uuidsDrawn := uuidsDrawn w; clockReads := clockReads w; log := l |}.

Variable env : Env.

(** Modelled from the spec: the scoped logger of [../utils] is not among the
    sources; a call is kept as its level and message. *)
Definition logger (level : LogLevel) (msg : jsstring) : M World unit :=
  modify (fun w => setLog (log w ++ [(level, msg)]) w).

(** One operation on the database: it is counted, and fails as [env] says. *)
Definition storeOp : M World nat :=
  w <- get ;;
  let n := storeOps w in
  modify (setStoreOps (S n)) ;;
  match storeFault env n with
  | Some e => throw e
  | None => ret n
  end.

(** [connectToDatabase] of config/database.ts *)
Definition connectToDatabase : M World unit :=
  w <- get ;;
  if connected w then ret tt
  else
    tryCatch
      (_ <- storeOp ;;              (* client.connect() *)
       modify (setConnected true) ;;
       logger LogInfo
         (str "Connected to MongoDB with connection pooling enabled") ;;
       logger LogInfo
         (str "Connection pool: min=" ++ Number_toString (fst (poolSizes env))
            ++ str ", max=" ++ Number_toString (snd (poolSizes env))))
      (fun error =>
         logger LogError (str "MongoDB connection error:") ;;
         throw error).

(** [getClient] of config/database.ts *)
Definition getClient : M World unit :=
  w <- get ;;
  if connected w then ret tt
  else throw (Error
    (str "Database not connected. Please call connectToDatabase first.")).

(** [collection.listIndexes().toArray()], mapped to the names *)
Definition listIndexes : M World (list jsstring) :=
  _ <- storeOp ;;
  w <- get ;;
  ret (indexes w).

(** [collection.createIndex(...)], by the name MongoDB gives the index *)
Definition createIndex (indexName : jsstring) : M World unit :=
  _ <- storeOp ;;
  modify (fun w => setIndexes (indexes w ++ [indexName]) w).

Definition jsstring_eqb (a b : jsstring) : bool :=
  if list_eq_dec N.eq_dec a b then true else false.

(** [indexNames.includes(name)] *)
Definition includesName (names : list jsstring) (n : jsstring) : bool :=
  existsb (jsstring_eqb n) names.

(** [if (!indexNames.includes(name)) await collection.createIndex(...)] *)
Definition ensureIndex (indexNames : list jsstring) (n : jsstring)
  : M World unit :=
  if negb (includesName indexNames n) then createIndex n else ret tt.

(** [private async getCollection()] *)
Definition getCollection (this : RAGBuilder) : M World unit :=
  connectToDatabase ;;
  getClient ;;
  tryCatch
    (indexNames <- listIndexes ;;
     ensureIndex indexNames (str "uuid_1") ;;
     ensureIndex indexNames (str "uid_1") ;;
     ensureIndex indexNames (str "created_at_-1") ;;
     ensureIndex indexNames (str "uid_1_created_at_-1"))
    (fun error =>
       logger LogWarn (str "Could not create indexes: " ++ exn_toString error)).

Definition BulkWriteError : exn :=
  {| name := str "MongoBulkWriteError"; message := [] |}.

(** [collection.insertMany(documents, { ordered: false })]: every record is
    tried, those the server accepts are stored, and the call throws when the
    server refused one. *)
Definition insertMany (documents : list RAGDocument) : M World unit :=
  modify (fun w => setInsertManyCalls (insertManyCalls w ++ [documents]) w) ;;
  n <- storeOp ;;
  modify (fun w =>
    setCollection
      (collection w ++ filter (fun d => negb (rejects env n d)) documents) w) ;;
  if existsb (rejects env n) documents then throw BulkWriteError else ret tt.

(** The filter [{ uid }]: the records whose [uid] field is that string. *)
Definition matchesUid (u : jsstring) (d : RAGDocument) : bool :=
  match uid d with
  | Some u' => jsstring_eqb u' u
  | None => false
  end.

(** [collection.deleteMany({ uid })], giving [deletedCount] *)
Definition deleteMany (u : jsstring) : M World nat :=
  _ <- storeOp ;;
  w <- get ;;
  modify (setCollection
            (filter (fun d => negb (matchesUid u d)) (collection w))) ;;
  ret (length (filter (matchesUid u) (collection w))).

(** [private async createEmbeddings(text)] *)
Definition createEmbeddings (this : RAGBuilder) (text : jsstring)
  : M World (list number) :=
  w <- get ;;
  let n := embeddingRequests w in
  modify (setEmbeddingRequests (S n)) ;;
  match embeddings_create env n text
          (embeddingsModel this) (embeddingsDimension this) with
  | Ok response => ret response
  | Throw e => throw e
  end.

Definition randomUUID : M World jsstring :=
  w <- get ;;
  let n := uuidsDrawn w in
  modify (setUuidsDrawn (S n)) ;;
  ret (uuid_source env n).

(** [new Date()] *)
Definition new_Date : M World Z :=
  w <- get ;;
  let n := clockReads w in
  modify (setClockReads (S n)) ;;
  ret (clock env n).

(** ** [buildFromTexts] *)

(** The world together with the local variables of [buildFromTexts]. *)
Record Frame := {
  world : World;
  documents : list RAGDocument;
  processed : nat
}.

Definition inWorld {A} (c : M World A) : M Frame A := fun f =>
  let (r, w') := c (world f) in
  (r, {| world := w'; documents := documents f; processed := processed f |}).

(** [...(this.uid && { uid: this.uid })]: the field is there when
    [this.uid] is a non-empty string. *)
Definition uidField (this : RAGBuilder) : option jsstring :=
  match builder_uid this with
  | Some u => if nonEmpty u then Some u else None
  | None => None
  end.

(** The record [buildFromTexts] makes of a text and its embedding. *)
Definition newDocument (this : RAGBuilder) (idx : nat) (text : jsstring)
    (embedding : list number) (uuid : jsstring) (created_at : Z)
  : RAGDocument :=
  {| uuid := uuid;
     uid := uidField this;
     content := text;
     embedding := embedding;
     created_at := created_at;
     metadata :=
       {| index := idx;
          embedding_model := embeddingsModel this;
          embedding_dimension := embeddingsDimension this |} |}.

Definition setDocuments (d : list RAGDocument) (f : Frame) : Frame :=
  {| world := world f; documents := d; processed := processed f |}.

Definition setProcessed (n : nat) (f : Frame) : Frame :=
  {| world := world f; documents := documents f; processed := n |}.

(** The body of the loop over [validTexts]. *)
Definition buildBody (this : RAGBuilder) (showProgress : bool)
    (idx : nat) (text : jsstring) : M Frame unit :=
  tryCatch
    (embedding <- inWorld (createEmbeddings this text) ;;
     uuid <- inWorld randomUUID ;;
     created_at <- inWorld new_Date ;;
     let document := newDocument this idx text embedding uuid created_at in
     (* documents.push(document); processed++ *)
     modify (fun f => setDocuments (documents f ++ [document]) f) ;;
     modify (fun f => setProcessed (S (processed f)) f) ;;
     (* if (showProgress && processed % 10 === 0) {} *)
     f <- get ;;
     (* Batch insert every 100 documents *)
     if (100 <=? length (documents f))%nat then
       inWorld (insertMany (documents f)) ;;
       (* documents.length = 0 *)
       modify (setDocuments [])
     else ret tt)
    (fun error =>
       inWorld (logger LogError
         (str "Error processing document " ++ Number_toString idx
            ++ str ": " ++ exn_toString error))).

(** [text.trim().length > 0] *)
Definition validText (text : jsstring) : bool := nonEmpty (trim text).

(** The local variables [documents] and [processed] live as long as [c]. *)
Definition withLocals {A} (c : M Frame A) : M World A := fun w =>
  let (r, f) := c {| world := w; documents := []; processed := 0 |} in
  (r, world f).

(** [async buildFromTexts(texts, showProgress = true)] *)
Definition buildFromTexts (this : RAGBuilder) (texts : list jsstring)
    (showProgress : bool) : M World unit :=
  getCollection this ;;
  (* Filter out empty texts *)
  let validTexts := filter validText texts in
  withLocals
    (forIdx (buildBody this showProgress) 0 validTexts ;;
     (* Insert remaining documents *)
     f <- get ;;
     if (0 <? length (documents f))%nat
     then inWorld (insertMany (documents f))
     else ret tt).

(** ** [buildFromFile] and [cleanupByUid] *)

(** [fs.access(filePath)] *)
Definition fs_access (filePath : jsstring) : M World unit :=
  match fs env filePath with
  | Some _ => ret tt
  | None =>
      throw {| name := str "Error";
               message := str "ENOENT: no such file or directory" |}
  end.

(** [fs.readFile(filePath, 'utf-8')] *)
Definition fs_readFile (filePath : jsstring) : M World jsstring :=
  match fs env filePath with
  | Some (File data) => ret data
  | Some (Unreadable e) => throw e
  | None =>
      throw {| name := str "Error";
               message := str "ENOENT: no such file or directory" |}
  end.

(** [async buildFromFile(filePath, showProgress = true)] *)
Definition buildFromFile (this : RAGBuilder) (filePath : jsstring)
    (showProgress : bool) : M World unit :=
  (* Check if file exists *)
  tryCatch (fs_access filePath)
    (fun _ => throw (Error (str "Input file not found: " ++ filePath))) ;;
  (* Read and tokenize the file *)
  rawData <- fs_readFile filePath ;;
  let paragraphs := tokenizeParagraphs rawData in
  buildFromTexts this paragraphs showProgress.

(** [async cleanupByUid(uid)] *)
Definition cleanupByUid (this : RAGBuilder) (uid : jsstring) : M World nat :=
  getCollection this ;;
  deletedCount <- deleteMany uid ;;
  ret deletedCount.

(** [static async createFromFile(filePath, options)] *)
Definition createFromFile (filePath : jsstring) (options : RAGBuilderOptions)
  : M World RAGBuilder :=
  let builder := new_RAGBuilder options in
  buildFromFile builder filePath true ;;
  ret builder.

(** What the bootstrap of the collection leaves as it was: the records,
    the batches handed to [insertMany] and the three counters. *)
Definition sameRecords (w w' : World) : Prop :=
  collection w' = collection w /\
  insertManyCalls w' = insertManyCalls w /\
  embeddingRequests w' = embeddingRequests w /\
  uuidsDrawn w' = uuidsDrawn w /\
  clockReads w' = clockReads w.

(** Every record of the batches has one of the texts as its content. *)
Definition batchesOf (texts : list jsstring)
    (batches : list (list RAGDocument)) : Prop :=
  forall batch d, In batch batches -> In d batch -> In (content d) texts.

(** Since the world had [calls] as its batches, [insertMany] was only given
    records whose content is one of the texts. *)
Definition onlyBatchesOf (texts : list jsstring)
    (calls : list (list RAGDocument)) (w : World) : Prop :=
  exists new, insertManyCalls w = calls ++ new /\ batchesOf texts new.

(** The batches [insertMany] was given and the records in the buffer all
    come from [texts]. *)
Definition fromTexts (texts : list jsstring)
    (calls : list (list RAGDocument)) (f : Frame) : Prop :=
  onlyBatchesOf texts calls (world f) /\
  forall d, In d (documents f) -> In (content d) texts.

(** The world after an embedding was answered, an identifier drawn and the
    clock read. *)
Definition afterEmbedding (w : World) : World :=
  setClockReads (S (clockReads w))
    (setUuidsDrawn (S (uuidsDrawn w))
       (setEmbeddingRequests (S (embeddingRequests w)) w)).

(** The record made in world [w] of the text and the vector [v]. *)
Definition documentAt (this : RAGBuilder) (idx : nat) (text : jsstring)
    (v : list number) (w : World) : RAGDocument :=
  newDocument this idx text v
    (uuid_source env (uuidsDrawn w)) (clock env (clockReads w)).

(** The world after the database took the whole batch. *)
Definition afterInsert (batch : list RAGDocument) (w : World) : World :=
  setCollection (collection w ++ batch)
    (setStoreOps (S (storeOps w))
       (setInsertManyCalls (insertManyCalls w ++ [batch]) w)).

(** The computation keeps the property [I] of the state, whatever its
    outcome. *)
Definition preserves {St A} (I : St -> Prop) (c : M St A) : Prop :=
  forall s, I s -> I (snd (c s)).

(** The database answers every operation and refuses no record. *)
Definition storeHealthy : Prop :=
  (forall n, storeFault env n = None) /\
  (forall n d, rejects env n d = false).

(** Every embedding request is answered with a vector. *)
Definition embeddingsSucceed : Prop :=
  forall n text model dimensions,
    exists v, embeddings_create env n text model dimensions = Ok v.

End Pipeline.

(** ** Worlds to run the pipeline in *)

Definition emptyWorld (number : Type) : World number :=
  {| connected := false; collection := []; indexes := [];
     insertManyCalls := []; storeOps := 0; embeddingRequests := 0;
     uuidsDrawn := 0; clockReads := 0; log := [] |}.

(** A healthy database, an embedding service whose [n]-th request fails
    when [failing n], and one file, [notes.txt], of two paragraphs. *)
Definition exampleEnv (failing : nat -> bool) : Env Z :=
  {| storeFault := fun _ => None;
     rejects := fun _ _ => false;
     embeddings_create := fun n _ _ _ =>
       if failing n then Throw (Error (str "429 quota exceeded"))
       else Ok [Z.of_nat n];
     uuid_source := Number_toString;
     clock := Z.of_nat;
     fs := fun filePath =>
       if jsstring_eqb filePath (str "notes.txt")
       then Some (File (str "first" ++ [10; 10]%N ++ str "second"))
       else None;
     poolSizes := (5, 50)%nat |}.

Definition builderFor (owner : option jsstring) : RAGBuilder :=
  new_RAGBuilder
    {| opt_mongodbUrl := None;
       opt_databaseName := None; opt_collectionName := None;
       opt_embeddingsDimension := None; opt_embeddingsModel := None;
       opt_uid := owner |}.

(** A collection of three records: one of ["owner-1"], one of ["owner-2"]
    and one without owner. *)
Definition threeRecords : World Z :=
  let doc (n : nat) (owner : option jsstring) :=
    newDocument (builderFor owner) n (str "text") [Z.of_nat n]
      (Number_toString n) (Z.of_nat n) in
  setCollection
    [doc 0%nat (Some (str "owner-1")); doc 1%nat (Some (str "owner-2"));
     doc 2%nat None]
    (emptyWorld Z).

(** ** Tactics to run the code of the pipeline *)

Ltac fields :=
  cbn [connected collection indexes insertManyCalls storeOps
       embeddingRequests uuidsDrawn clockReads log
       setConnected setCollection setIndexes setInsertManyCalls setStoreOps
       setEmbeddingRequests setUuidsDrawn setClockReads setLog
       afterEmbedding afterInsert].

Ltac run :=
  cbv [buildBody tryCatch bind inWorld createEmbeddings randomUUID new_Date
       insertMany storeOp logger get modify ret throw world documents
       processed setDocuments setProcessed].


(* ===================================================================== *)
(** * Vocabulary for the further properties *)
(* ===================================================================== *)

(** The code units of [s] that are not whitespace, in order. *)
Definition nonWhite (s : jsstring) : jsstring :=
  filter (fun c => negb (isWhiteSpace c)) s.

(** The string is empty or begins with a code unit that is not
    whitespace. *)
Definition startsClean (s : jsstring) : Prop :=
  match s with
  | [] => True
  | c :: _ => isWhiteSpace c = false
  end.

(** A pattern that matches nothing but a run of whitespace at [q] and
    captures nothing. *)
Definition whiteOnly (m : matcher) : Prop :=
  forall before s n caps,
    m before s = Some (n, caps) -> caps = [] /\ (0 < n <= ws_run s)%nat.

(** The string ends with [.], [!] or [?]. *)
Definition endsWithTerminator (s : jsstring) : Prop :=
  match rev s with
  | c :: _ => isTerminator c = true
  | [] => False
  end.

(** The token is a run of whitespace, or has no whitespace in it. *)
Definition homogeneous (t : jsstring) : Prop :=
  forallb isWhiteSpace t = true \/ nonWhite t = t.

(** A chunk as the chunker makes it: the overlap kept from the chunk
    before, then the new word tokens. *)
Definition glue (part : list jsstring * list jsstring) : jsstring :=
  join (fst part ++ snd part).

(** The overlap of each part is a suffix of the new word tokens of the part
    before it ([prev] for the first part). *)
Fixpoint carriesFrom (prev : list jsstring)
    (parts : list (list jsstring * list jsstring)) : Prop :=
  match parts with
  | [] => True
  | (carry, pending) :: rest =>
      (exists dropped, prev = dropped ++ carry) /\ carriesFrom pending rest
  end.

(** The chunks pushed so far are made of [parts]: the new word tokens of
    the parts and the buffer are the word tokens [seen], and no overlap is
    longer than [chunkOverlap]. *)
Definition tracedBy (this : SentenceChunker)
    (parts : list (list jsstring * list jsstring)) (seen : list jsstring)
    (st : Locals) : Prop :=
  chunks st = map glue parts /\
  concat (map snd parts) ++ bufWords st = seen /\
  Forall (fun part =>
            (Z.of_nat (length (join (fst part))) <= chunkOverlap this)%Z)
         parts /\
  carriesFrom [] parts.

(** The chunker that takes its text as one paragraph. *)
Definition oneParagraph (this : SentenceChunker) : SentenceChunker :=
  {| maxChunkSize := maxChunkSize this;
     chunkOverlap := chunkOverlap this;
     paragraphTokenizer := fun text => [text];
     sentenceTokenizer := sentenceTokenizer this;
     wordTokenizer := wordTokenizer this |}.

(** [st] with [before] put in front of its chunks. *)
Definition withChunksBefore (before : list jsstring) (st : Locals) : Locals :=
  {| chunks := before ++ chunks st;
     bufWords := bufWords st;
     lastBufWords := lastBufWords st |}.

(** The names of the indexes [getCollection] asks for, in its order. *)
Definition requiredIndexes : list jsstring :=
  [str "uuid_1"; str "uid_1"; str "created_at_-1";
   str "uid_1_created_at_-1"].

(** The record is one [buildFromTexts] makes for the builder out of
    [texts]: its [index] is the place of its content in [texts], and its
    [uid], model and dimension are those of the builder. *)
Definition recordOf {number : Type} (this : RAGBuilder)
    (texts : list jsstring) (d : RAGDocument number) : Prop :=
  nth_error texts (index (metadata d)) = Some (content d) /\
  uid d = uidField this /\
  embedding_model (metadata d) = embeddingsModel this /\
  embedding_dimension (metadata d) = embeddingsDimension this.

(** Since the world had [calls] as its batches and [stored] as its
    collection, only records with the property [P] were handed to
    [insertMany], stored, or put in the buffer. *)
Definition onlyRecords {number : Type} (P : RAGDocument number -> Prop)
    (calls : list (list (RAGDocument number)))
    (stored : list (RAGDocument number)) (w : World number) : Prop :=
  (exists new, insertManyCalls w = calls ++ new /\
               forall batch d, In batch new -> In d batch -> P d) /\
  (exists recs, collection w = stored ++ recs /\ Forall P recs).

Definition onlyRecordsIn {number : Type} (P : RAGDocument number -> Prop)
    (calls : list (list (RAGDocument number)))
    (stored : list (RAGDocument number)) (f : Frame number) : Prop :=
  onlyRecords P calls stored (world f) /\ Forall P (documents f).

(* ===================================================================== *)
(** * The file parser ([src/services/fileParser.ts]) *)

(** [String.prototype.split(sep)] for a separator of one code unit: the
    pieces between the occurrences of [sep], the empty ones too; the string
    itself where there is none. *)
Fixpoint splitOn (sep : code_unit) (s : jsstring) : list jsstring :=
  match s with
  | [] => [[]]
  | c :: s' =>
      if (c =? sep)%N then [] :: splitOn sep s'
      else match splitOn sep s' with
           | piece :: pieces => (c :: piece) :: pieces
           | [] => [[c]]
           end
  end.

(** [Array.prototype.pop]: the last element, [undefined] for the empty
    array. *)
Definition pop {A} (l : list A) : option A := last (map Some l) None.

(** [`${x}`] for a string that may be [undefined]. *)
Definition String_of (x : option jsstring) : jsstring :=
  match x with
  | Some s => s
  | None => str "undefined"
  end.

(** [x || '']: [undefined] and the empty string are falsy. *)
Definition orEmpty (x : option jsstring) : jsstring :=
  match x with
  | Some s => s
  | None => []
  end.

(** What the parser calls and does not define: [String.prototype.toLowerCase],
    the two libraries, [Buffer.prototype.toString('utf-8')] and
    [fs.readFile(path)].  Each call may fail, and may change the state [St]
    of what is outside. *)
Record FileEnv (St Buffer : Type) : Type := {
  toLowerCase : jsstring -> jsstring;
  (* [new PDFParse({ data: buffer }).getText()], then [.text] *)
  PDFParse_getText : Buffer -> M St jsstring;
  (* [mammoth.extractRawText({ buffer })], then [.value] *)
  mammoth_extractRawText : Buffer -> M St jsstring;
  Buffer_toString : Buffer -> M St jsstring;
  fs_readFileBuffer : jsstring -> M St Buffer
}.

Section FileParser.

Variables St Buffer : Type.
Variable host : FileEnv St Buffer.

Definition parsePDF (buffer : Buffer) : M St jsstring :=
  tryCatch (PDFParse_getText host buffer)
    (fun error =>
       throw (Error (str "Failed to parse PDF: " ++ exn_toString error))).

Definition parseDOCX (buffer : Buffer) : M St jsstring :=
  tryCatch (mammoth_extractRawText host buffer)
    (fun error =>
       throw (Error (str "Failed to parse DOCX: " ++ exn_toString error))).

Definition parseTXT (buffer : Buffer) : M St jsstring :=
  tryCatch (Buffer_toString host buffer)
    (fun error =>
       throw (Error (str "Failed to parse TXT: " ++ exn_toString error))).

Definition parseDOC (buffer : Buffer) : M St jsstring :=
  tryCatch (mammoth_extractRawText host buffer)
    (fun error =>
       throw
         (Error
            (str "Failed to parse DOC: " ++ exn_toString error ++
             str ". Legacy DOC format may not be fully supported. Please convert to DOCX."))).

(** [filename.toLowerCase().split('.').pop()] *)
Definition extensionOf (filename : jsstring) : option jsstring :=
  pop (splitOn 46%N (toLowerCase host filename)).

(** [case s:] of a [switch] on a value that may be [undefined]. *)
Definition isCase (x : option jsstring) (s : string) : bool :=
  match x with
  | Some e => jsstring_eqb e (str s)
  | None => false
  end.

Definition parseFile (buffer : Buffer) (filename : jsstring) : M St jsstring :=
  let extension := extensionOf filename in
  if isCase extension "pdf" then parsePDF buffer
  else if isCase extension "docx" then parseDOCX buffer
  else if isCase extension "doc" then parseDOC buffer
  else if isCase extension "txt" then parseTXT buffer
  else
    throw
      (Error
         (str "Unsupported file format: " ++ String_of extension ++
          str ". Supported formats: PDF, DOCX, DOC, TXT")).

(** The [try] block returns the promise of [parseFile] without awaiting it:
    the [return] leaves the block with the promise as its value, and a
    rejection of that promise comes after, outside the [catch] clause.  So
    the block below yields the computation, which is run once the block is
    left. *)
Definition parseFileFromPath (filePath : jsstring) : M St jsstring :=
  promise <-
    tryCatch
      (buffer <- fs_readFileBuffer host filePath ;;
       ret (parseFile buffer filePath))
      (fun error =>
         throw (Error (str "Failed to read file: " ++ exn_toString error))) ;;
  promise.

Definition isSupportedFormat (filename : jsstring) : bool :=
  let extension := extensionOf filename in
  includesName [str "pdf"; str "docx"; str "doc"; str "txt"]
    (orEmpty extension).

End FileParser.

(** An example of a host: buffers are the strings they decode to, the PDF
    library fails on every buffer, and the only file is [notes.txt]. *)
Definition asciiLower (c : code_unit) : code_unit :=
  if (65 <=? c)%N && (c <=? 90)%N then (c + 32)%N else c.

Definition exampleHost : FileEnv unit jsstring :=
  {| toLowerCase := map asciiLower;
     PDFParse_getText := fun _ => throw (Error (str "Invalid PDF structure"));
     mammoth_extractRawText := fun buffer => ret buffer;
     Buffer_toString := fun buffer => ret buffer;
     fs_readFileBuffer := fun filePath =>
       if jsstring_eqb filePath (str "notes.txt")
       then ret (str "Some notes.")
       else throw {| name := str "Error";
                     message := str "ENOENT: no such file or directory" |} |}.


(** A database whose [k]-th operation fails when [faulty k], with an
    embedding service that always answers. *)
Definition flakyStoreEnv (faulty : nat -> bool) : Env Z :=
  {| storeFault := fun k =>
       if faulty k
       then Some {| name := str "MongoNetworkError";
                    message := str "connection refused" |}
       else None;
     rejects := fun _ _ => false;
     embeddings_create := fun n _ _ _ => Ok [Z.of_nat n];
     uuid_source := Number_toString;
     clock := Z.of_nat;
     fs := fun _ => None;
     poolSizes := (5, 50)%nat |}.

(** A loop of [buildFromTexts] that has [n] records in its buffer. *)
Definition frameWith (n : nat) : Frame Z :=
  {| world := setConnected true (emptyWorld Z);
     documents :=
       repeat (newDocument (builderFor None) 0 (str "text") [0%Z]
                 (Number_toString 0) 0%Z) n;
     processed := n |}.

(** The two kinds of errors of [parseFile]. *)
Definition parseError (e : exn) : Prop :=
  name e = str "Error" /\
  startsWith (message e) (str "Failed to parse ") = true.

Definition unsupportedError (e : exn) : Prop :=
  name e = str "Error" /\
  startsWith (message e) (str "Unsupported file format: ") = true.

(* ===================================================================== *)
(** * Properties of the tokenizers *)
(* ===================================================================== *)

Unset Implicit Arguments.

(** ** The tokenizers at work *)

Example tokenize_keeps_whitespace :
  WordTokenizer.tokenize (BasicWordTokenizer false) (str "  Hello,  world ")
  = [str "  "; str "Hello,"; str "  "; str "world"; str " "].
Proof. reflexivity. Qed.

Example tokenize_drops_whitespace :
  WordTokenizer.tokenize (BasicWordTokenizer true) (str "  Hello,  world ")
  = [str "Hello,"; str "world"].
Proof. reflexivity. Qed.

Example sentences_of_a_paragraph :
  SentenceTokenizer.tokenize BasicSentenceTokenizer
    (str "Is it?  Yes! e.g. this . And that")
  = [str "Is it?"; str "Yes!"; str "e.g."; str "this ."; str "And that"].
Proof. reflexivity. Qed.

Example paragraphs_of_a_text :
  tokenizeParagraphs
    (str "one" ++ [10; 10]%N ++ str " two" ++ [10; 32; 9; 10; 13; 10]%N
       ++ str "three" ++ [10]%N ++ str "still three" ++ [10; 10]%N)
  = [str "one"; str "two"; str "three" ++ [10]%N ++ str "still three"].
Proof. reflexivity. Qed.

(** ** The patterns *)

Lemma ws_run_le (s : jsstring) : (ws_run s <= length s)%nat.
Proof.
  induction s as [|c s IH]; simpl; [lia|].
  destruct (isWhiteSpace c); simpl; lia.
Qed.

Lemma last_LF_lt (s : jsstring) (k : nat) :
  last_LF s = Some k -> (k < length s)%nat.
Proof.
  revert k. induction s as [|c s IH]; intros k; simpl; [discriminate|].
  destruct (last_LF s) as [k'|].
  - intros [= <-]. specialize (IH k' eq_refl). lia.
  - destruct (c =? 10)%N; [|discriminate]. intros [= <-]. lia.
Qed.

(** None of the four patterns matches the empty string, and a match at [q]
    is within the text that is left: [split_loop] passes over code units
    that are there. *)
Lemma matchers_consume (m : matcher) (before s : jsstring) (n : nat)
    (caps : list jsstring) :
  In m [re_ws_capture; re_ws; re_sentence_end; re_blank_line] ->
  m before s = Some (n, caps) -> (0 < n <= length s)%nat.
Proof.
  assert (Hws : forall k c, ws_run s = S k ->
                  Some (S k, c) = Some (n, caps) -> (0 < n <= length s)%nat).
  { intros k c Hk [= <- _]. pose proof (ws_run_le s). lia. }
  intros [<-|[<-|[<-|[<-|[]]]]].
  - unfold re_ws_capture. destruct (ws_run s) eqn:E; [discriminate|].
    now apply Hws.
  - unfold re_ws. destruct (ws_run s) eqn:E; [discriminate|]. now apply Hws.
  - unfold re_sentence_end, re_ws. destruct before as [|c before];
      [discriminate|].
    destruct (isTerminator c); [|discriminate].
    destruct (ws_run s) eqn:E; [discriminate|]. now apply Hws.
  - unfold re_blank_line. destruct s as [|c s]; [discriminate|].
    destruct (c =? 10)%N; [|discriminate].
    destruct (last_LF _) as [k|] eqn:E; [|discriminate].
    intros [= <- _]. apply last_LF_lt in E.
    rewrite length_firstn in E. simpl. lia.
Qed.

(** ** The round trip of the word tokenizer *)

Lemma nonEmpty_false (w : jsstring) : nonEmpty w = false -> w = [].
Proof.
  destruct w as [|c w]; [reflexivity|discriminate].
Qed.

Lemma join_filter_nonEmpty (words : list jsstring) :
  join (filter nonEmpty words) = join words.
Proof.
  unfold join.
  induction words as [|w words IH]; simpl; [reflexivity|].
  destruct (nonEmpty w) eqn:E; simpl.
  - now rewrite IH.
  - now rewrite (nonEmpty_false w E), IH.
Qed.

Lemma join_app (a b : list jsstring) : join (a ++ b) = join a ++ join b.
Proof. apply concat_app. Qed.

Lemma length_join_app (a b : list jsstring) :
  length (join (a ++ b)) = (length (join a) + length (join b))%nat.
Proof. now rewrite join_app, length_app. Qed.

(** Splitting on [/(\s+)/] loses nothing: the pieces and the captured
    separators, put together again, are the text that was left to scan. *)
Lemma split_loop_ws_capture_join (s : jsstring) :
  (forall skip before,
      join (split_loop re_ws_capture skip before [] s) = skipn skip s) /\
  (forall before piece,
      join (split_loop re_ws_capture 0 before piece s) = rev piece ++ s).
Proof.
  induction s as [|c s [IHskip IH0]].
  - split; intros.
    + destruct skip; reflexivity.
    + simpl. now rewrite !app_nil_r.
  - assert (H0 : forall before piece,
               join (split_loop re_ws_capture 0 before piece (c :: s))
               = rev piece ++ c :: s).
    { intros before piece. simpl. unfold re_ws_capture. simpl ws_run.
      destruct (isWhiteSpace c).
      - unfold join in *. simpl. rewrite IHskip.
        now rewrite firstn_skipn.
      - rewrite IH0. simpl. now rewrite <- app_assoc. }
    split; [|exact H0].
    intros [|k] before.
    + apply (H0 before []).
    + simpl. apply IHskip.
Qed.

Lemma split_ws_capture_join (s : jsstring) :
  join (split re_ws_capture s) = s.
Proof.
  destruct s as [|c s]; [reflexivity|].
  unfold split.
  now rewrite (proj2 (split_loop_ws_capture_join (c :: s))).
Qed.

(** C3.  For the whitespace-preserving word tokenizer
    ([BasicWordTokenizer] with [ignorePunctuation = false]),
    [formatWords(tokenize(s))] is [s], for every string [s]. *)
Theorem formatWords_tokenize_roundtrip (s : jsstring) :
  WordTokenizer.formatWords (BasicWordTokenizer false)
    (WordTokenizer.tokenize (BasicWordTokenizer false) s) = s.
Proof.
  simpl. rewrite join_filter_nonEmpty. apply split_ws_capture_join.
Qed.

(* ===================================================================== *)
(** * Properties of the sliding-window chunker *)
(* ===================================================================== *)

(** ** Loops *)

Lemma forOf_app {A S} (body : S -> A -> option S) (l1 l2 : list A) (s : S) :
  forOf body (l1 ++ l2) s =
  match forOf body l1 s with
  | Some s' => forOf body l2 s'
  | None => None
  end.
Proof.
  revert s. induction l1 as [|a l1 IH]; intros s; simpl; [reflexivity|].
  destruct (body s a); [apply IH|reflexivity].
Qed.

(** Nested loops run the inner body over the inner lists laid end to end. *)
Lemma forOf_flat_map {A B S} (body : S -> B -> option S) (g : A -> list B)
    (l : list A) (s : S) :
  forOf (fun s a => forOf body (g a) s) l s = forOf body (flat_map g l) s.
Proof.
  revert s. induction l as [|a l IH]; intros s; simpl; [reflexivity|].
  rewrite forOf_app. destruct (forOf body (g a) s); [apply IH|reflexivity].
Qed.

Lemma forOf_mono {A S} (body1 body2 : S -> A -> option S) (l : list A) :
  (forall s a s', body1 s a = Some s' -> body2 s a = Some s') ->
  forall s s', forOf body1 l s = Some s' -> forOf body2 l s = Some s'.
Proof.
  intros Hb. induction l as [|a l IH]; intros s s'; simpl; [trivial|].
  destruct (body1 s a) as [s1|] eqn:E; [|discriminate].
  rewrite (Hb _ _ _ E). apply IH.
Qed.

(** A property every turn of the body keeps holds when the loop is over. *)
Lemma forOf_invariant {A S} (Inv : S -> Prop) (ok : A -> Prop)
    (body : S -> A -> option S) (l : list A) :
  (forall s a s', ok a -> Inv s -> body s a = Some s' -> Inv s') ->
  Forall ok l ->
  forall s s', Inv s -> forOf body l s = Some s' -> Inv s'.
Proof.
  intros Hb Hl. induction Hl as [|a l Ha Hl IH]; intros s s' Hs; simpl.
  - now intros [= <-].
  - destruct (body s a) as [s1|] eqn:E; [|discriminate].
    apply IH. eapply Hb; eauto.
Qed.

Section ChunkerFacts.

Variable this : SentenceChunker.

Local Abbreviation format := (WordTokenizer.formatWords (wordTokenizer this)).

(** ** The trim loop *)

(** When the loop is over, what is left of [lastBufWords] is a suffix of it
    that fits the overlap. *)
Lemma trimLoop_result (fuel : nat) (last r : list jsstring) :
  trimLoop this fuel last = Some r ->
  (Z.of_nat (length (format r)) <= chunkOverlap this)%Z /\
  exists dropped, last = dropped ++ r.
Proof.
  revert last. induction fuel as [|fuel IH]; intros last; simpl;
    [discriminate|].
  destruct (Z.gtb_spec (Z.of_nat (length (format last))) (chunkOverlap this))
    as [Hgt|Hle].
  - intros H. destruct (IH _ H) as [Hr [dropped Hd]]. split; [exact Hr|].
    destruct last as [|w last]; simpl in Hd.
    + exists dropped. exact Hd.
    + exists (w :: dropped). simpl. now rewrite Hd.
  - intros [= <-]. split; [exact Hle|]. now exists [].
Qed.

(** More fuel does not change the outcome of a loop that was over. *)
Lemma trimLoop_mono (fuel fuel' : nat) (last r : list jsstring) :
  trimLoop this fuel last = Some r -> (fuel <= fuel')%nat ->
  trimLoop this fuel' last = Some r.
Proof.
  revert fuel' last. induction fuel as [|fuel IH]; intros fuel' last; simpl;
    [discriminate|].
  intros H Hle. destruct fuel' as [|fuel']; [lia|]. simpl.
  destruct (Z.of_nat (length (format last)) >? chunkOverlap this)%Z.
  - apply IH; [exact H|lia].
  - exact H.
Qed.

(** A negative overlap: the condition of the loop holds of every buffer,
    the empty one too, and no amount of fuel ends the loop. *)
Lemma trimLoop_negative (fuel : nat) (last : list jsstring) :
  (chunkOverlap this < 0)%Z -> trimLoop this fuel last = None.
Proof.
  intros Hneg. revert last. induction fuel as [|fuel IH]; intros last; simpl;
    [reflexivity|].
  destruct (Z.gtb_spec (Z.of_nat (length (format last))) (chunkOverlap this))
    as [Hgt|Hle]; [apply IH|lia].
Qed.

(** From here on the empty buffer is formatted as the empty string. *)
Hypothesis format_nil : format [] = [].

(** One turn of the loop on a buffer that does not fit a non-negative
    overlap makes the buffer shorter. *)
Lemma slice1_shortens (last : list jsstring) :
  (0 <= chunkOverlap this)%Z ->
  (Z.of_nat (length (format last)) > chunkOverlap this)%Z ->
  (length (slice1 last) < length last)%nat.
Proof.
  intros Hpos Hgt. destruct last as [|w last]; simpl; [|lia].
  rewrite format_nil in Hgt. simpl in Hgt. lia.
Qed.

Lemma trimLoop_total (fuel : nat) (last : list jsstring) :
  (0 <= chunkOverlap this)%Z -> (length last < fuel)%nat ->
  exists r, trimLoop this fuel last = Some r.
Proof.
  intros Hpos. revert last. induction fuel as [|fuel IH]; intros last Hlt;
    [lia|]. simpl.
  destruct (Z.gtb_spec (Z.of_nat (length (format last))) (chunkOverlap this))
    as [Hgt|Hle]; [|eauto].
  apply IH. pose proof (slice1_shortens last Hpos ltac:(lia)). lia.
Qed.

(** ** Termination *)

Lemma pushChunk_total (fuel : nat) (st : Locals) :
  (0 <= chunkOverlap this)%Z -> (length (lastBufWords st) < fuel)%nat ->
  exists r dropped,
    lastBufWords st = dropped ++ r /\
    (Z.of_nat (length (format r)) <= chunkOverlap this)%Z /\
    pushChunk this fuel st =
    Some {| chunks := chunks st ++ [format (r ++ bufWords st)];
            bufWords := bufWords st; lastBufWords := r |}.
Proof.
  intros Hpos Hlt. unfold pushChunk.
  destruct (trimLoop_total _ _ Hpos Hlt) as [r Hr]. rewrite Hr.
  destruct (trimLoop_result _ _ _ Hr) as [Hfit [dropped Hd]].
  exists r, dropped. auto.
Qed.

Lemma wordBody_total (fuel : nat) (st : Locals) (word : jsstring) :
  (0 <= chunkOverlap this)%Z -> (buffered st < fuel)%nat ->
  exists st', wordBody this fuel st word = Some st' /\
              (buffered st' <= S (buffered st))%nat.
Proof.
  intros Hpos Hlt. unfold wordBody, buffered in *.
  destruct (_ >? maxChunkSize this)%Z.
  - destruct (pushChunk_total fuel st Hpos) as (r & d & _ & _ & ->);
      [lia|].
    eexists; split; [reflexivity|]. simpl. lia.
  - eexists; split; [reflexivity|]. simpl. rewrite length_app. simpl. lia.
Qed.

Lemma words_total (fuel : nat) (words : list jsstring) (st : Locals) :
  (0 <= chunkOverlap this)%Z -> (buffered st + length words < fuel)%nat ->
  exists st', forOf (wordBody this fuel) words st = Some st' /\
              (buffered st' <= buffered st + length words)%nat.
Proof.
  intros Hpos. revert st. induction words as [|w words IH]; intros st Hlt;
    simpl in *.
  - exists st. split; [reflexivity|lia].
  - destruct (wordBody_total fuel st w Hpos) as (st1 & -> & H1);
      [lia|].
    destruct (IH st1) as (st' & -> & H'); [lia|].
    exists st'. split; [reflexivity|lia].
Qed.

Lemma paragraphBody_words (fuel : nat) (st : Locals) (paragraph : jsstring) :
  paragraphBody this fuel st paragraph =
  match forOf (wordBody this fuel) (paragraphWords this paragraph)
              {| chunks := chunks st; bufWords := bufWords st;
                 lastBufWords := [] |} with
  | None => None
  | Some st1 =>
      if (0 <? length (bufWords st1))%nat then
        match pushChunk this fuel st1 with
        | None => None
        | Some st2 =>
            Some {| chunks := chunks st2; bufWords := [];
                    lastBufWords := lastBufWords st2 |}
        end
      else Some st1
  end.
Proof.
  unfold paragraphBody, paragraphWords, sentenceBody.
  now rewrite forOf_flat_map.
Qed.

Lemma paragraphBody_total (fuel : nat) (st : Locals) (paragraph : jsstring) :
  (0 <= chunkOverlap this)%Z ->
  (buffered st + length (paragraphWords this paragraph) < fuel)%nat ->
  exists st', paragraphBody this fuel st paragraph = Some st' /\
    (buffered st' <= buffered st + length (paragraphWords this paragraph))%nat.
Proof.
  intros Hpos Hlt. rewrite paragraphBody_words.
  set (st0 := {| chunks := chunks st; bufWords := bufWords st;
                 lastBufWords := [] |}).
  assert (H0 : (buffered st0 <= buffered st)%nat)
    by (unfold buffered; simpl; lia).
  destruct (words_total fuel (paragraphWords this paragraph) st0 Hpos)
    as (st1 & -> & H1); [lia|].
  destruct (0 <? length (bufWords st1))%nat.
  - destruct (pushChunk_total fuel st1 Hpos)
      as (r & d & Hd & _ & ->); [unfold buffered in *; lia|].
    eexists; split; [reflexivity|]. unfold buffered in *. simpl.
    rewrite Hd, length_app in H1. lia.
  - exists st1. split; [reflexivity|lia].
Qed.

Lemma paragraphs_total (fuel : nat) (paragraphs : list jsstring)
    (st : Locals) :
  (0 <= chunkOverlap this)%Z ->
  (buffered st + length (flat_map (paragraphWords this) paragraphs)
   < fuel)%nat ->
  exists st', forOf (paragraphBody this fuel) paragraphs st = Some st'.
Proof.
  intros Hpos. revert st.
  induction paragraphs as [|p paragraphs IH]; intros st Hlt; simpl in *.
  - now exists st.
  - rewrite length_app in Hlt.
    destruct (paragraphBody_total fuel st p Hpos)
      as (st1 & -> & H1); [lia|].
    apply IH. lia.
Qed.

Lemma chunk_total (fuel : nat) (text : jsstring) :
  (0 <= chunkOverlap this)%Z ->
  (length (allWords this text) < fuel)%nat ->
  exists cs, chunk this fuel text = Some cs.
Proof.
  intros Hpos Hlt. unfold chunk.
  destruct (paragraphs_total fuel (paragraphTokenizer this text)
              {| chunks := []; bufWords := []; lastBufWords := [] |}
              Hpos) as [st' ->]; [exact Hlt|].
  now exists (chunks st').
Qed.

(** ** The result does not depend on the fuel *)

Lemma pushChunk_mono (fuel fuel' : nat) (st st' : Locals) :
  (fuel <= fuel')%nat ->
  pushChunk this fuel st = Some st' -> pushChunk this fuel' st = Some st'.
Proof.
  intros Hle. unfold pushChunk.
  destruct (trimLoop this fuel (lastBufWords st)) as [r|] eqn:E;
    [|discriminate].
  now rewrite (trimLoop_mono fuel fuel' _ r E Hle).
Qed.

Lemma wordBody_mono (fuel fuel' : nat) (st : Locals) (word : jsstring)
    (st' : Locals) :
  (fuel <= fuel')%nat ->
  wordBody this fuel st word = Some st' ->
  wordBody this fuel' st word = Some st'.
Proof.
  intros Hle. unfold wordBody.
  destruct (_ >? maxChunkSize this)%Z; [|trivial].
  destruct (pushChunk this fuel st) as [st1|] eqn:E; [|discriminate].
  now rewrite (pushChunk_mono fuel fuel' st st1 Hle E).
Qed.

Lemma paragraphBody_mono (fuel fuel' : nat) (st : Locals)
    (paragraph : jsstring) (st' : Locals) :
  (fuel <= fuel')%nat ->
  paragraphBody this fuel st paragraph = Some st' ->
  paragraphBody this fuel' st paragraph = Some st'.
Proof.
  intros Hle. rewrite !paragraphBody_words.
  destruct (forOf (wordBody this fuel) _ _) as [st1|] eqn:E; [|discriminate].
  rewrite (forOf_mono (wordBody this fuel) (wordBody this fuel') _
             (fun s a s' => wordBody_mono fuel fuel' s a s' Hle) _ _ E).
  destruct (0 <? length (bufWords st1))%nat; [|trivial].
  destruct (pushChunk this fuel st1) as [st2|] eqn:E2; [|discriminate].
  now rewrite (pushChunk_mono fuel fuel' st1 st2 Hle E2).
Qed.

Lemma chunk_mono (fuel fuel' : nat) (text : jsstring) (cs : list jsstring) :
  (fuel <= fuel')%nat ->
  chunk this fuel text = Some cs -> chunk this fuel' text = Some cs.
Proof.
  intros Hle. unfold chunk.
  destruct (forOf (paragraphBody this fuel) _ _) as [st'|] eqn:E;
    [|discriminate].
  now rewrite (forOf_mono (paragraphBody this fuel) (paragraphBody this fuel') _
                 (fun s a s' => paragraphBody_mono fuel fuel' s a s' Hle) _ _ E).
Qed.

(** ** A negative overlap *)

Lemma pushChunk_negative (fuel : nat) (st : Locals) :
  (chunkOverlap this < 0)%Z -> pushChunk this fuel st = None.
Proof.
  intros Hneg. unfold pushChunk. now rewrite trimLoop_negative.
Qed.

(** The only words a loop with a negative overlap gets through are those
    that need no flush: they pile up in [bufWords]. *)
Lemma words_negative (fuel : nat) (words : list jsstring) (st st' : Locals) :
  (chunkOverlap this < 0)%Z ->
  forOf (wordBody this fuel) words st = Some st' ->
  bufWords st' = bufWords st ++ words /\ chunks st' = chunks st.
Proof.
  intros Hneg. revert st. induction words as [|w words IH]; intros st; simpl.
  - intros [= <-]. now rewrite app_nil_r.
  - unfold wordBody at 1. rewrite pushChunk_negative by exact Hneg.
    destruct (_ >? maxChunkSize this)%Z; [discriminate|].
    intros H. destruct (IH _ H) as [Hb Hc]. simpl in *.
    rewrite Hb, <- app_assoc. auto.
Qed.

Lemma paragraphBody_negative (fuel : nat) (st : Locals)
    (paragraph : jsstring) (st' : Locals) :
  (chunkOverlap this < 0)%Z ->
  paragraphBody this fuel st paragraph = Some st' ->
  bufWords st = [] /\ paragraphWords this paragraph = [] /\
  bufWords st' = [].
Proof.
  intros Hneg. rewrite paragraphBody_words.
  destruct (forOf (wordBody this fuel) _ _) as [st1|] eqn:E; [|discriminate].
  destruct (words_negative _ _ _ _ Hneg E) as [Hb _]. simpl in Hb.
  rewrite pushChunk_negative by exact Hneg.
  destruct (bufWords st1) as [|w ws] eqn:E1; simpl; [|discriminate].
  intros [= <-]. symmetry in Hb. apply app_eq_nil in Hb. tauto.
Qed.

Lemma paragraphs_negative (fuel : nat) (paragraphs : list jsstring)
    (st st' : Locals) :
  (chunkOverlap this < 0)%Z ->
  forOf (paragraphBody this fuel) paragraphs st = Some st' ->
  flat_map (paragraphWords this) paragraphs = [].
Proof.
  intros Hneg. revert st.
  induction paragraphs as [|p paragraphs IH]; intros st; simpl;
    [reflexivity|].
  destruct (paragraphBody this fuel st p) as [st1|] eqn:E; [|discriminate].
  destruct (paragraphBody_negative _ _ _ _ Hneg E) as (_ & -> & _).
  apply IH.
Qed.

Lemma chunk_negative (fuel : nat) (text : jsstring) :
  (chunkOverlap this < 0)%Z -> allWords this text <> [] ->
  chunk this fuel text = None.
Proof.
  intros Hneg Hwords. unfold chunk.
  destruct (forOf (paragraphBody this fuel) _ _) as [st'|] eqn:E;
    [|reflexivity].
  exfalso. apply Hwords. exact (paragraphs_negative _ _ _ _ Hneg E).
Qed.

(** ** The length of a chunk *)

(** From here on the buffers are formatted by concatenation, as
    [BasicWordTokenizer] does. *)
Hypothesis format_join : forall words, format words = join words.

Lemma pushChunk_inv (fuel : nat) (st st1 : Locals) :
  pushChunk this fuel st = Some st1 ->
  exists r dropped,
    lastBufWords st = dropped ++ r /\
    (Z.of_nat (length (join r)) <= chunkOverlap this)%Z /\
    st1 = {| chunks := chunks st ++ [join (r ++ bufWords st)];
             bufWords := bufWords st; lastBufWords := r |}.
Proof.
  unfold pushChunk.
  destruct (trimLoop this fuel (lastBufWords st)) as [r|] eqn:E;
    [|discriminate].
  destruct (trimLoop_result _ _ _ E) as [Hfit [dropped Hd]].
  intros [= <-]. exists r, dropped. rewrite !format_join in Hfit.
  rewrite format_join. auto.
Qed.

Lemma length_join_single (word : jsstring) :
  length (join [word]) = length word.
Proof. unfold join. simpl. now rewrite app_nil_r. Qed.

(** A chunk is the trimmed overlap followed by the chunk under
    construction. *)
Lemma pushed_chunk_fits (words r buf : list jsstring) (word : jsstring) :
  In word words ->
  (Z.of_nat (length (join r)) <= chunkOverlap this)%Z ->
  bufFits this words buf ->
  fitsWith this words (join (r ++ buf)).
Proof.
  intros Hin Hr [->|(w & Hw & Hbuf)].
  - exists word. split; [exact Hin|]. rewrite app_nil_r. lia.
  - exists w. split; [exact Hw|]. rewrite length_join_app. lia.
Qed.

Lemma wordBody_fits (words : list jsstring) (fuel : nat) (st : Locals)
    (word : jsstring) (st' : Locals) :
  In word words -> chunksFit this words st ->
  wordBody this fuel st word = Some st' -> chunksFit this words st'.
Proof.
  intros Hin [Hcs Hbuf]. unfold wordBody. rewrite format_join.
  destruct (Z.gtb_spec (Z.of_nat (length (join (bufWords st ++ [word]))))
              (maxChunkSize this)) as [Hgt|Hle].
  - destruct (pushChunk this fuel st) as [st1|] eqn:E; [|discriminate].
    destruct (pushChunk_inv _ _ _ E) as (r & d & _ & Hr & ->).
    intros [= <-]. split; simpl.
    + apply Forall_app. split; [exact Hcs|].
      constructor; [|constructor].
      now apply pushed_chunk_fits with (word := word).
    + right. exists word. split; [exact Hin|].
      rewrite length_join_single. lia.
  - intros [= <-]. split; simpl; [exact Hcs|].
    right. exists word. split; [exact Hin|]. lia.
Qed.

Lemma paragraphBody_fits (words : list jsstring) (fuel : nat) (st : Locals)
    (paragraph : jsstring) (st' : Locals) :
  Forall (fun w => In w words) (paragraphWords this paragraph) ->
  chunksFit this words st ->
  paragraphBody this fuel st paragraph = Some st' ->
  chunksFit this words st'.
Proof.
  intros Hwords Hst. rewrite paragraphBody_words.
  destruct (forOf (wordBody this fuel) _ _) as [st1|] eqn:E; [|discriminate].
  assert (H1 : chunksFit this words st1).
  { refine (forOf_invariant (chunksFit this words) (fun w => In w words)
              (wordBody this fuel) _ _ Hwords _ _ _ E).
    - intros s a s' Ha Hs. now apply wordBody_fits.
    - exact Hst. }
  destruct (bufWords st1) as [|w ws] eqn:Ebuf; simpl.
  - now intros [= <-].
  - destruct (pushChunk this fuel st1) as [st2|] eqn:E2; [|discriminate].
    destruct (pushChunk_inv _ _ _ E2) as (r & d & _ & Hr & ->).
    intros [= <-]. destruct H1 as [Hcs Hbuf]. split; simpl; [|now left].
    apply Forall_app. split; [exact Hcs|]. constructor; [|constructor].
    rewrite Ebuf in *.
    destruct Hbuf as [Hnil|(w' & Hw' & Hfit)]; [discriminate|].
    apply pushed_chunk_fits with (word := w'); [exact Hw'|exact Hr|].
    right. now exists w'.
Qed.

Lemma chunk_fits (fuel : nat) (text : jsstring) (cs : list jsstring) :
  chunk this fuel text = Some cs ->
  Forall (withinOverlapAndWord this text) cs.
Proof.
  unfold chunk.
  destruct (forOf (paragraphBody this fuel) _ _) as [st'|] eqn:E;
    [|discriminate].
  intros [= <-].
  refine (proj1 (forOf_invariant (chunksFit this (allWords this text))
            (fun p => Forall (fun w => In w (allWords this text))
                        (paragraphWords this p))
            (paragraphBody this fuel) _ _ _ _ _ _ E)).
  - intros s p s' Hp Hs. now apply paragraphBody_fits.
  - apply Forall_forall. intros p Hp. apply Forall_forall. intros w Hw.
    unfold allWords. apply in_flat_map. now exists p.
  - split; simpl; [constructor|now left].
Qed.

(** ** The empty chunk *)

Lemma wordBody_keeps_chunks (fuel : nat) (st : Locals) (word : jsstring)
    (st' : Locals) :
  wordBody this fuel st word = Some st' ->
  forall c, In c (chunks st) -> In c (chunks st').
Proof.
  unfold wordBody. destruct (_ >? maxChunkSize this)%Z.
  - destruct (pushChunk this fuel st) as [st1|] eqn:E; [|discriminate].
    destruct (pushChunk_inv _ _ _ E) as (r & d & _ & _ & ->).
    intros [= <-] c Hc. simpl. apply in_or_app. now left.
  - now intros [= <-].
Qed.

Lemma words_keep_chunks (fuel : nat) (words : list jsstring)
    (st st' : Locals) :
  forOf (wordBody this fuel) words st = Some st' ->
  forall c, In c (chunks st) -> In c (chunks st').
Proof.
  revert st. induction words as [|w words IH]; intros st; simpl.
  - now intros [= <-].
  - destruct (wordBody this fuel st w) as [st1|] eqn:E; [|discriminate].
    intros H c Hc. apply (IH _ H). now apply (wordBody_keeps_chunks _ _ _ _ E).
Qed.

(** With both buffers empty, a word longer than [maxChunkSize] has the
    empty string pushed before the word is put in the buffer. *)
Lemma wordBody_long_first_word (fuel : nat) (st : Locals) (word : jsstring)
    (st' : Locals) :
  bufWords st = [] -> lastBufWords st = [] ->
  (Z.of_nat (length word) > maxChunkSize this)%Z ->
  wordBody this fuel st word = Some st' ->
  chunks st' = chunks st ++ [[]] /\ bufWords st' = [word].
Proof.
  intros Hbuf Hlast Hlong. unfold wordBody. rewrite format_join, Hbuf.
  simpl app. rewrite length_join_single.
  destruct (Z.gtb_spec (Z.of_nat (length word)) (maxChunkSize this))
    as [_|Hle]; [|lia].
  destruct (pushChunk this fuel st) as [st1|] eqn:E; [|discriminate].
  destruct (pushChunk_inv _ _ _ E) as (r & d & Hd & _ & ->).
  rewrite Hlast in Hd. symmetry in Hd. apply app_eq_nil in Hd.
  destruct Hd as [_ ->]. rewrite Hbuf. now intros [= <-].
Qed.

Lemma paragraphBody_emits (fuel : nat) (st : Locals) (paragraph : jsstring)
    (st' : Locals) :
  paragraphBody this fuel st paragraph = Some st' ->
  bufWords st' = [] /\
  (forall c, In c (chunks st) -> In c (chunks st')) /\
  (bufWords st = [] -> firstWordTooLong this paragraph ->
   In [] (chunks st')).
Proof.
  rewrite paragraphBody_words.
  set (st0 := {| chunks := chunks st; bufWords := bufWords st;
                 lastBufWords := [] |}).
  destruct (forOf (wordBody this fuel) _ st0) as [st1|] eqn:E;
    [|discriminate].
  intros H.
  assert (Hend : bufWords st' = [] /\
                 forall c, In c (chunks st1) -> In c (chunks st')).
  { destruct (bufWords st1) as [|w ws] eqn:Ebuf; simpl in H.
    - injection H as <-. auto.
    - destruct (pushChunk this fuel st1) as [st2|] eqn:E2; [|discriminate].
      destruct (pushChunk_inv _ _ _ E2) as (r & d & _ & _ & ->).
      injection H as <-. simpl. split; [reflexivity|].
      intros c Hc. apply in_or_app. now left. }
  destruct Hend as [Hempty Hkeep].
  split; [exact Hempty|]. split.
  - intros c Hc. apply Hkeep. now apply (words_keep_chunks _ _ _ _ E).
  - intros Hbuf (word & rest & Hwords & Hlong). apply Hkeep.
    rewrite Hwords in E. simpl in E.
    destruct (wordBody this fuel st0 word) as [s1|] eqn:E1; [|discriminate].
    destruct (wordBody_long_first_word fuel st0 word s1 Hbuf eq_refl Hlong E1)
      as [Hcs _].
    apply (words_keep_chunks _ _ _ _ E). rewrite Hcs.
    apply in_or_app. right. now left.
Qed.

Lemma paragraphs_emit (fuel : nat) (paragraphs : list jsstring)
    (st st' : Locals) :
  bufWords st = [] ->
  forOf (paragraphBody this fuel) paragraphs st = Some st' ->
  (forall c, In c (chunks st) -> In c (chunks st')) /\
  ((exists p, In p paragraphs /\ firstWordTooLong this p) ->
   In [] (chunks st')).
Proof.
  revert st. induction paragraphs as [|p paragraphs IH]; intros st Hbuf; simpl.
  - intros [= <-]. split; [auto|]. intros (p & [] & _).
  - destruct (paragraphBody this fuel st p) as [st1|] eqn:E; [|discriminate].
    destruct (paragraphBody_emits _ _ _ _ E) as (Hbuf1 & Hkeep & Hemit).
    intros H. destruct (IH st1 Hbuf1 H) as [Hkeep' Hemit'].
    split; [auto|].
    intros (q & [<-|Hq] & Hlong); [|apply Hemit'; now exists q].
    apply Hkeep'. now apply Hemit.
Qed.

Lemma chunk_emits_empty (fuel : nat) (text : jsstring) (cs : list jsstring) :
  (exists p, In p (paragraphTokenizer this text) /\ firstWordTooLong this p) ->
  chunk this fuel text = Some cs -> In [] cs.
Proof.
  intros Hp. unfold chunk.
  destruct (forOf (paragraphBody this fuel) _ _) as [st'|] eqn:E;
    [|discriminate].
  intros [= <-].
  refine (proj2 (paragraphs_emit fuel _
                   {| chunks := []; bufWords := []; lastBufWords := [] |}
                   st' eq_refl E) Hp).
Qed.

End ChunkerFacts.

(** ** [String.prototype.includes] finds the substrings *)

Lemma startsWith_spec (s p : jsstring) :
  startsWith s p = true <-> exists after, s = p ++ after.
Proof.
  revert s. induction p as [|a p IH]; intros s; simpl.
  - destruct s; split; eauto.
  - destruct s as [|b s].
    + split; [discriminate|]. intros [after H]. discriminate.
    + simpl. rewrite andb_true_iff, N.eqb_eq, IH. split.
      * intros [-> [after ->]]. now exists after.
      * intros [after [= -> ->]]. eauto.
Qed.

Lemma includes_spec (s p : jsstring) :
  includes s p = true <-> exists before after, s = before ++ p ++ after.
Proof.
  induction s as [|b s IH]; cbn [includes];
    rewrite orb_true_iff, startsWith_spec.
  - split.
    + intros [[after H]|H]; [|discriminate]. now exists [], after.
    + intros ([|c before] & after & H); [|discriminate]. left. now exists after.
  - rewrite IH. split.
    + intros [[after H]|(before & after & H)].
      * now exists [], after.
      * exists (b :: before), after. simpl. now rewrite H.
    + intros ([|c before] & after & H).
      * left. now exists after.
      * right. injection H as _ H. now exists before, after.
Qed.

(** ** The claims about the chunker *)

(** C10.  When [chunkOverlap >= 0] (and the empty buffer is formatted as
    the empty string, as [BasicWordTokenizer] does), [chunk] terminates on
    every text: a turn of the trim loop makes the overlap buffer strictly
    shorter, the empty buffer has length [0 <= chunkOverlap], and with
    enough fuel [chunk] returns one and the same array.  When
    [chunkOverlap < 0] the trim loop never exits, so no flush ends and
    [chunk] does not return on a text that has a word token. *)
Theorem chunk_termination (this : SentenceChunker) (text : jsstring) :
  WordTokenizer.formatWords (wordTokenizer this) [] = [] ->
  ((0 <= chunkOverlap this)%Z ->
   (forall last,
       (Z.of_nat (length (WordTokenizer.formatWords (wordTokenizer this) last))
        > chunkOverlap this)%Z ->
       (length (slice1 last) < length last)%nat) /\
   (Z.of_nat (length (WordTokenizer.formatWords (wordTokenizer this) []))
    <= chunkOverlap this)%Z /\
   exists cs, forall fuel,
       (length (allWords this text) < fuel)%nat ->
       chunk this fuel text = Some cs) /\
  ((chunkOverlap this < 0)%Z ->
   (forall fuel last, trimLoop this fuel last = None) /\
   (forall fuel st, pushChunk this fuel st = None) /\
   (allWords this text <> [] -> diverges this text)).
Proof.
  intros Hnil. split.
  - intros Hpos. split; [|split].
    + intros last. now apply slice1_shortens.
    + rewrite Hnil. simpl. lia.
    + destruct (chunk_total this Hnil (S (length (allWords this text))) text
                  Hpos (Nat.lt_succ_diag_r _)) as [cs Hcs].
      exists cs. intros fuel Hfuel.
      apply chunk_mono with (fuel := S (length (allWords this text)));
        [lia|exact Hcs].
  - intros Hneg. split; [|split].
    + intros fuel last. now apply trimLoop_negative.
    + intros fuel st. now apply pushChunk_negative.
    + intros Hwords fuel. now apply chunk_negative.
Qed.

Lemma chunk_termination_witness :
  (exists cs, forall fuel,
      (length (allWords (chunkerOfSizes 20 5) (str "Hi. Yo.")) < fuel)%nat ->
      chunk (chunkerOfSizes 20 5) fuel (str "Hi. Yo.") = Some cs) /\
  diverges (chunkerOfSizes 20 (-1)) (str "Hi. Yo.").
Proof.
  split.
  - destruct (chunk_termination (chunkerOfSizes 20 5) (str "Hi. Yo.") eq_refl)
      as [H _].
    apply H. simpl. lia.
  - destruct (chunk_termination (chunkerOfSizes 20 (-1)) (str "Hi. Yo.")
                eq_refl) as [_ H].
    apply H; [simpl; lia|]. vm_compute. discriminate.
Defined.

(** C1, as the code has it.  A chunk is the trimmed overlap, no longer than
    [chunkOverlap], followed by the chunk under construction, which is
    within [maxChunkSize] or one word token: when the buffers are formatted
    by concatenation, every chunk [chunk] returns is at most [chunkOverlap]
    plus the larger of [maxChunkSize] and the length of a word token of the
    text long, and for [chunkOverlap >= 0] it does return. *)
Theorem chunk_length_bound (this : SentenceChunker) (text : jsstring) :
  (forall words,
      WordTokenizer.formatWords (wordTokenizer this) words = join words) ->
  (forall fuel cs,
      chunk this fuel text = Some cs ->
      Forall (withinOverlapAndWord this text) cs) /\
  ((0 <= chunkOverlap this)%Z ->
   exists cs,
     (forall fuel, (length (allWords this text) < fuel)%nat ->
                   chunk this fuel text = Some cs) /\
     Forall (withinOverlapAndWord this text) cs).
Proof.
  intros Hjoin. split.
  - intros fuel cs. now apply chunk_fits.
  - intros Hpos.
    destruct (chunk_total this (Hjoin []) (S (length (allWords this text)))
                text Hpos (Nat.lt_succ_diag_r _)) as [cs Hcs].
    exists cs. split.
    + intros fuel Hfuel.
      apply chunk_mono with (fuel := S (length (allWords this text)));
        [lia|exact Hcs].
    + exact (chunk_fits this Hjoin _ _ _ Hcs).
Qed.

Lemma chunk_length_bound_witness :
  exists cs,
    (forall fuel,
        (length (allWords (chunkerOfSizes 5 5) (str "aa bb cc dd")) < fuel)%nat ->
        chunk (chunkerOfSizes 5 5) fuel (str "aa bb cc dd") = Some cs) /\
    Forall (withinOverlapAndWord (chunkerOfSizes 5 5) (str "aa bb cc dd")) cs.
Proof.
  apply (chunk_length_bound (chunkerOfSizes 5 5) (str "aa bb cc dd")
           (fun words => eq_refl)).
  simpl. lia.
Defined.

(** C1, as it is stated, fails: with [maxChunkSize = 5] and
    [chunkOverlap = 5] the second chunk of ["aa bb cc dd"] is the overlap
    ["aa bb"] followed by [" cc "], nine code units long, and no word token
    of the text is longer than two. *)
Lemma chunk_exceeds_one_word :
  chunk (chunkerOfSizes 5 5) 8 (str "aa bb cc dd")
  = Some [str "aa bb"; str "aa bb cc "; str " cc dd"] /\
  allWords (chunkerOfSizes 5 5) (str "aa bb cc dd")
  = [str "aa"; str " "; str "bb"; str " "; str "cc"; str " "; str "dd"] /\
  ~ withinOneWord (chunkerOfSizes 5 5) (str "aa bb cc dd") (str "aa bb cc ").
Proof.
  split; [reflexivity|]. split; [reflexivity|].
  intros (word & Hin & Hle). vm_compute in Hin.
  repeat (destruct Hin as [<-|Hin]; [vm_compute in Hle; now apply Hle|]).
  exact Hin.
Qed.

(** C8, as the code has it.  When [chunkOverlap >= 0], [maxChunkSize > 0]
    and the buffers are formatted by concatenation: if the first word token
    of some paragraph of the text is longer than [maxChunkSize], the array
    [chunk] returns holds the empty string.  Both buffers are empty when the
    size check fires for that token, and the empty string is pushed before
    the token is put in the buffer. *)
Theorem long_first_word_emits_empty_chunk (this : SentenceChunker)
    (text paragraph : jsstring) :
  (forall words,
      WordTokenizer.formatWords (wordTokenizer this) words = join words) ->
  (0 < maxChunkSize this)%Z ->
  (0 <= chunkOverlap this)%Z ->
  In paragraph (paragraphTokenizer this text) ->
  firstWordTooLong this paragraph ->
  (exists cs,
      (forall fuel, (length (allWords this text) < fuel)%nat ->
                    chunk this fuel text = Some cs) /\
      In [] cs) /\
  (forall fuel st word st',
      bufWords st = [] -> lastBufWords st = [] ->
      (Z.of_nat (length word) > maxChunkSize this)%Z ->
      wordBody this fuel st word = Some st' ->
      chunks st' = chunks st ++ [[]] /\ bufWords st' = [word]).
Proof.
  intros Hjoin _ Hpos Hin Hlong. split.
  - destruct (chunk_total this (Hjoin []) (S (length (allWords this text)))
                text Hpos (Nat.lt_succ_diag_r _)) as [cs Hcs].
    exists cs. split.
    + intros fuel Hfuel.
      apply chunk_mono with (fuel := S (length (allWords this text)));
        [lia|exact Hcs].
    + apply (chunk_emits_empty this Hjoin
               (S (length (allWords this text))) text cs); [|exact Hcs].
      now exists paragraph.
  - intros fuel st word st'. now apply wordBody_long_first_word.
Qed.

Lemma long_first_word_emits_empty_chunk_witness :
  exists cs,
    (forall fuel,
        (length (allWords (chunkerOfSizes 3 0) (str "abcdef gh")) < fuel)%nat ->
        chunk (chunkerOfSizes 3 0) fuel (str "abcdef gh") = Some cs) /\
    In [] cs.
Proof.
  apply (long_first_word_emits_empty_chunk (chunkerOfSizes 3 0)
           (str "abcdef gh") (str "abcdef gh") (fun words => eq_refl)).
  - simpl. lia.
  - simpl. lia.
  - vm_compute. now left.
  - exists (str "abcdef"), [str " "; str "gh"]. split; [reflexivity|].
    vm_compute. reflexivity.
Defined.

(** C8, as it is stated, fails for a negative overlap: with
    [maxChunkSize = 3] and [chunkOverlap = -1] the first word token of
    ["abcdef"] is longer than [maxChunkSize], the trim loop of the first
    flush never exits, and [chunk] returns no array at all. *)
Lemma long_first_word_negative_overlap :
  (0 < maxChunkSize (chunkerOfSizes 3 (-1)))%Z /\
  In (str "abcdef")
     (paragraphTokenizer (chunkerOfSizes 3 (-1)) (str "abcdef")) /\
  firstWordTooLong (chunkerOfSizes 3 (-1)) (str "abcdef") /\
  diverges (chunkerOfSizes 3 (-1)) (str "abcdef") /\
  ~ emits (chunkerOfSizes 3 (-1)) (str "abcdef") [].
Proof.
  assert (Hdiv : diverges (chunkerOfSizes 3 (-1)) (str "abcdef")).
  { intros fuel. apply chunk_negative; [simpl; lia|].
    vm_compute. discriminate. }
  split; [simpl; lia|]. split; [vm_compute; now left|]. split.
  - exists (str "abcdef"), []. split; [reflexivity|]. vm_compute. reflexivity.
  - split; [exact Hdiv|].
    intros (fuel & cs & Hcs & _). rewrite Hdiv in Hcs. discriminate.
Qed.

(** C5.  With [maxChunkSize = 20], [chunkOverlap = 5] and the default
    tokenizers, ["This is sentence one. This is sentence two."] is one
    paragraph and is cut in three chunks, and each chunk after the first
    begins with a suffix of the chunk before it that is at most 5 code
    units long. *)
Theorem overlap_example :
  exists cs,
    (forall fuel,
        (length (allWords (chunkerOfSizes 20 5)
                   (str "This is sentence one. This is sentence two."))
         < fuel)%nat ->
        chunk (chunkerOfSizes 20 5) fuel
          (str "This is sentence one. This is sentence two.") = Some cs) /\
    cs = [str "This is sentence "; str " one.This is sentence"; str " two."] /\
    paragraphTokenizer (chunkerOfSizes 20 5)
      (str "This is sentence one. This is sentence two.")
    = [str "This is sentence one. This is sentence two."] /\
    (2 <= length cs)%nat /\
    forall k prev next,
      nth_error cs k = Some prev -> nth_error cs (S k) = Some next ->
      overlaps 5 prev next.
Proof.
  eexists. split; [|split; [reflexivity|]].
  - intros fuel Hfuel.
    apply chunk_mono with (fuel := 15%nat); [exact Hfuel|]. reflexivity.
  - split; [reflexivity|]. split; [simpl; lia|].
    intros [|[|k]] prev next; simpl.
    + intros [= <-] [= <-].
      exists (str " "), (str "This is sentence"), (str "one.This is sentence").
      split; [reflexivity|]. split; [reflexivity|]. simpl. lia.
    + intros [= <-] [= <-].
      exists [], (str " one.This is sentence"), (str " two.").
      split; [reflexivity|]. split; [reflexivity|]. simpl. lia.
    + intros _ H. destruct k; discriminate.
Qed.

Lemma overlap_example_witness :
  chunk (chunkerOfSizes 20 5) 15
    (str "This is sentence one. This is sentence two.")
  = Some [str "This is sentence "; str " one.This is sentence"; str " two."] /\
  overlaps 5 (str "This is sentence ") (str " one.This is sentence").
Proof.
  destruct overlap_example as (cs & Hcs & -> & _ & _ & Hov).
  split.
  - apply Hcs. vm_compute. reflexivity.
  - apply (Hov 0%nat); reflexivity.
Defined.

(** C9.  The default chunker turns the two-sentence text ["Hi. Yo."] into
    the single chunk ["Hi.Yo."]: the sentence tokenizer drops the whitespace
    after the full stop, the chunk joins the two sentences with nothing in
    between, and it is not a substring of the text. *)
Theorem chunk_across_sentences_not_substring :
  exists text s1 s2,
    SentenceTokenizer.tokenize BasicSentenceTokenizer text = [s1; s2] /\
    (forall fuel, (0 < fuel)%nat ->
       chunk (new_SentenceChunker no_options) fuel text = Some [s1 ++ s2]) /\
    emits (new_SentenceChunker no_options) text (s1 ++ s2) /\
    includes text (s1 ++ s2) = false /\
    ~ (exists before after, text = before ++ (s1 ++ s2) ++ after).
Proof.
  exists (str "Hi. Yo."), (str "Hi."), (str "Yo.").
  split; [reflexivity|]. split; [|split; [|split]].
  - intros fuel Hfuel. apply chunk_mono with (fuel := 1%nat); [lia|].
    reflexivity.
  - exists 1%nat, [str "Hi.Yo."]. split; [reflexivity|]. now left.
  - reflexivity.
  - intros H. apply includes_spec in H. discriminate H.
Qed.

Lemma chunk_across_sentences_not_substring_witness :
  exists text s1 s2,
    SentenceTokenizer.tokenize BasicSentenceTokenizer text = [s1; s2] /\
    chunk (new_SentenceChunker no_options) 1 text = Some [s1 ++ s2] /\
    includes text (s1 ++ s2) = false.
Proof.
  destruct chunk_across_sentences_not_substring
    as (text & s1 & s2 & Hs & Hc & _ & Hi & _).
  exists text, s1, s2. split; [exact Hs|]. split; [|exact Hi].
  apply Hc. constructor.
Defined.

(* ===================================================================== *)
(** * Properties of the ingestion pipeline *)
(* ===================================================================== *)

(** ** Computations that keep a property of the state *)

Section Preserves.

Context {St : Type} (I : St -> Prop).

Lemma preserves_ret {A} (a : A) : preserves I (ret a).
Proof. intros s Hs. exact Hs. Qed.

Lemma preserves_throw {A} (e : exn) : preserves I (@throw St A e).
Proof. intros s Hs. exact Hs. Qed.

Lemma preserves_get : preserves I get.
Proof. intros s Hs. exact Hs. Qed.

Lemma preserves_modify (f : St -> St) :
  (forall s, I s -> I (f s)) -> preserves I (modify f).
Proof. intros Hf s Hs. now apply Hf. Qed.

Lemma preserves_bind {A B} (c : M St A) (k : A -> M St B) :
  preserves I c -> (forall a, preserves I (k a)) -> preserves I (bind c k).
Proof.
  intros Hc Hk s Hs. unfold bind. specialize (Hc s Hs).
  destruct (c s) as [[a|e] s']; simpl in *; [now apply Hk|exact Hc].
Qed.

Lemma preserves_tryCatch {A} (c : M St A) (handler : exn -> M St A) :
  preserves I c -> (forall e, preserves I (handler e)) ->
  preserves I (tryCatch c handler).
Proof.
  intros Hc Hh s Hs. unfold tryCatch. specialize (Hc s Hs).
  destruct (c s) as [[a|e] s']; simpl in *; [exact Hc|now apply Hh].
Qed.

Lemma preserves_forIdx {A} (body : nat -> A -> M St unit) (l : list A) :
  (forall idx a, In a l -> preserves I (body idx a)) ->
  forall idx, preserves I (forIdx body idx l).
Proof.
  induction l as [|a l IH]; intros Hbody idx; simpl.
  - apply preserves_ret.
  - apply preserves_bind.
    + apply Hbody. now left.
    + intros _. apply IH. intros idx' a' Ha'. apply Hbody. now right.
Qed.

End Preserves.

Create HintDb preserves.
#[local] Hint Resolve preserves_ret preserves_throw preserves_get : preserves.

Section PipelineFacts.

Variable number : Type.
Variable env : Env number.

Local Abbreviation World := (World number).
Local Abbreviation Frame := (Frame number).
Local Abbreviation RAGDocument := (RAGDocument number).

(** ** The bootstrap of the collection *)

Section Bootstrap.

(** A property of the world that does not look at the connection, the
    indexes, the count of the operations and the log. *)
Variable I : World -> Prop.
Hypothesis I_connected : forall b w, I w -> I (setConnected b w).
Hypothesis I_indexes : forall i w, I w -> I (setIndexes i w).
Hypothesis I_storeOps : forall n w, I w -> I (setStoreOps n w).
Hypothesis I_log : forall l w, I w -> I (setLog l w).

Lemma preserves_logger (level : LogLevel) (msg : jsstring) :
  preserves I (logger level msg).
Proof. apply preserves_modify. intros s. apply I_log. Qed.

Lemma preserves_storeOp : preserves I (storeOp env).
Proof.
  apply preserves_bind; [apply preserves_get|]. intros w.
  apply preserves_bind; [apply preserves_modify, I_storeOps|]. intros _.
  destruct (storeFault env (storeOps w)); auto with preserves.
Qed.

Lemma preserves_connectToDatabase : preserves I (connectToDatabase env).
Proof.
  apply preserves_bind; [apply preserves_get|]. intros w.
  destruct (connected w); [apply preserves_ret|].
  apply preserves_tryCatch.
  - apply preserves_bind; [apply preserves_storeOp|]. intros _.
    apply preserves_bind; [apply preserves_modify, I_connected|]. intros _.
    apply preserves_bind; [apply preserves_logger|]. intros _.
    apply preserves_logger.
  - intros e. apply preserves_bind; [apply preserves_logger|]. intros _.
    apply preserves_throw.
Qed.

Lemma preserves_ensureIndex (indexNames : list jsstring) (n : jsstring) :
  preserves I (ensureIndex env indexNames n).
Proof.
  unfold ensureIndex. destruct (negb _); [|apply preserves_ret].
  apply preserves_bind; [apply preserves_storeOp|]. intros _.
  apply preserves_modify. intros s. apply I_indexes.
Qed.

Lemma preserves_getCollection (this : RAGBuilder) :
  preserves I (getCollection env this).
Proof.
  apply preserves_bind; [apply preserves_connectToDatabase|]. intros _.
  apply preserves_bind.
  { apply preserves_bind; [apply preserves_get|]. intros w.
    destruct (connected w); auto with preserves. }
  intros _. apply preserves_tryCatch.
  - apply preserves_bind.
    { apply preserves_bind; [apply preserves_storeOp|]. intros _.
      apply preserves_bind; [apply preserves_get|]. intros w.
      apply preserves_ret. }
    intros indexNames.
    repeat (apply preserves_bind; [apply preserves_ensureIndex|]; intros _).
    apply preserves_ensureIndex.
  - intros e. apply preserves_logger.
Qed.

End Bootstrap.

Lemma getCollection_sameRecords (this : RAGBuilder) (w : World) :
  sameRecords w (snd (getCollection env this w)).
Proof.
  apply (preserves_getCollection (sameRecords w)); try (intros; assumption).
  repeat split.
Qed.

(** The bootstrap fails only when the connection does: what goes wrong with
    the indexes is caught and logged. *)
Lemma getCollection_healthy (this : RAGBuilder) (w : World) :
  storeHealthy env -> fst (getCollection env this w) = Ok tt.
Proof.
  intros [Hfault _]. unfold getCollection.
  assert (Hconn : exists w1, connectToDatabase env w = (Ok tt, w1) /\
                             connected w1 = true).
  { unfold connectToDatabase. cbv [bind get].
    destruct (connected w) eqn:E; [now exists w|].
    cbv [tryCatch bind storeOp get modify logger ret throw].
    rewrite Hfault. eexists. split; reflexivity. }
  destruct Hconn as (w1 & H1 & Hc).
  cbv [bind getClient get]. rewrite H1, Hc.
  cbv [tryCatch ret].
  match goal with
  | |- fst (match ?c with _ => _ end) = _ =>
      destruct c as [[[]|e] w2]; reflexivity
  end.
Qed.

Lemma getCollection_run (this : RAGBuilder) (w : World) :
  storeHealthy env ->
  exists w0, getCollection env this w = (Ok tt, w0) /\ sameRecords w w0.
Proof.
  intros H. exists (snd (getCollection env this w)). split.
  - rewrite (surjective_pairing (getCollection env this w)).
    now rewrite getCollection_healthy.
  - apply getCollection_sameRecords.
Qed.

(** ** One turn of the loop of [buildFromTexts] *)

Lemma healthy_accepts (n : nat) (batch : list RAGDocument) :
  storeHealthy env ->
  filter (fun d => negb (rejects env n d)) batch = batch /\
  existsb (rejects env n) batch = false.
Proof.
  intros [_ Hrej]. induction batch as [|d batch [IH1 IH2]]; simpl;
    [auto|].
  now rewrite Hrej, IH1, IH2.
Qed.

Lemma insertMany_healthy (batch : list RAGDocument) (w : World) :
  storeHealthy env ->
  insertMany env batch w = (Ok tt, afterInsert batch w).
Proof.
  intros H. cbv [insertMany bind modify storeOp get ret throw].
  rewrite (proj1 H). cbn [storeOps setInsertManyCalls setStoreOps].
  destruct (healthy_accepts (storeOps w) batch H) as [-> ->]. reflexivity.
Qed.

(** The embedding request fails: the error is logged and the buffer is as it
    was. *)
Lemma buildBody_skips (this : RAGBuilder) (showProgress : bool) (idx : nat)
    (text : jsstring) (f : Frame) (e : exn) :
  embeddings_create env (embeddingRequests (world f)) text
    (embeddingsModel this) (embeddingsDimension this) = Throw e ->
  exists w',
    buildBody env this showProgress idx text f
    = (Ok tt, {| world := w'; documents := documents f;
                 processed := processed f |}) /\
    collection w' = collection (world f) /\
    insertManyCalls w' = insertManyCalls (world f) /\
    embeddingRequests w' = S (embeddingRequests (world f)) /\
    uuidsDrawn w' = uuidsDrawn (world f) /\
    clockReads w' = clockReads (world f) /\
    In (LogError,
        str "Error processing document " ++ Number_toString idx
          ++ str ": " ++ exn_toString e) (log w').
Proof.
  intros He. destruct f as [w docs n].
  cbn [world documents processed] in *. run. rewrite He.
  eexists. split; [reflexivity|]. repeat (split; [reflexivity|]).
  cbn [log setLog setEmbeddingRequests]. apply in_or_app. right. now left.
Qed.

(** The embedding request is answered and the buffer stays short of 100
    records: the new record is put in the buffer. *)
Lemma buildBody_buffers (this : RAGBuilder) (showProgress : bool) (idx : nat)
    (text : jsstring) (f : Frame) (v : list number) :
  embeddings_create env (embeddingRequests (world f)) text
    (embeddingsModel this) (embeddingsDimension this) = Ok v ->
  (S (length (documents f)) < 100)%nat ->
  buildBody env this showProgress idx text f
  = (Ok tt,
     {| world := afterEmbedding (world f);
        documents := documents f ++ [documentAt env this idx text v (world f)];
        processed := S (processed f) |}).
Proof.
  intros He Hlen. destruct f as [w docs n].
  cbn [world documents processed] in *. run. rewrite He.
  cbn [uuidsDrawn clockReads setEmbeddingRequests setUuidsDrawn
       setClockReads].
  replace (100 <=? length (docs ++ _))%nat with false; [reflexivity|].
  symmetry. apply Nat.leb_gt. rewrite length_app. simpl in *. lia.
Qed.

(** The embedding request is answered and the buffer reaches 100 records:
    the buffer is handed to [insertMany] and emptied. *)
Lemma buildBody_flushes (this : RAGBuilder) (showProgress : bool) (idx : nat)
    (text : jsstring) (f : Frame) (v : list number) :
  storeHealthy env ->
  embeddings_create env (embeddingRequests (world f)) text
    (embeddingsModel this) (embeddingsDimension this) = Ok v ->
  (100 <= S (length (documents f)))%nat ->
  buildBody env this showProgress idx text f
  = (Ok tt,
     {| world :=
          afterInsert (documents f ++ [documentAt env this idx text v (world f)])
            (afterEmbedding (world f));
        documents := [];
        processed := S (processed f) |}).
Proof.
  intros H He Hlen. destruct f as [w docs n].
  cbn [world documents processed] in *. run. rewrite He.
  cbn [uuidsDrawn clockReads storeOps setEmbeddingRequests setUuidsDrawn
       setClockReads setInsertManyCalls setStoreOps].
  replace (100 <=? length (docs ++ _))%nat with true.
  2:{ symmetry. apply Nat.leb_le. rewrite length_app. simpl in *. lia. }
  rewrite (proj1 H).
  match goal with
  | |- context [existsb (rejects env ?n) ?b] =>
      destruct (healthy_accepts n b H) as [-> ->]
  end.
  reflexivity.
Qed.

(** ** [buildFromTexts] *)

Lemma filter_all {A} (p : A -> bool) (l : list A) :
  forallb p l = true -> filter p l = l.
Proof.
  induction l as [|a l IH]; simpl; [reflexivity|].
  rewrite andb_true_iff. intros [-> H]. now rewrite IH.
Qed.

(** Once the collection is there and the loop is over, what is left in the
    buffer is handed to [insertMany]. *)
Lemma buildFromTexts_unfold (this : RAGBuilder) (texts : list jsstring)
    (showProgress : bool) (w w0 : World) (f' : Frame) :
  getCollection env this w = (Ok tt, w0) ->
  forIdx (buildBody env this showProgress) 0 (filter validText texts)
    {| world := w0; documents := []; processed := 0 |} = (Ok tt, f') ->
  buildFromTexts env this texts showProgress w
  = if (0 <? length (documents f'))%nat
    then insertMany env (documents f') (world f')
    else (Ok tt, world f').
Proof.
  intros H0 Hloop. unfold buildFromTexts. cbv [bind withLocals].
  rewrite H0, Hloop. cbv [get inWorld ret].
  destruct (0 <? length (documents f'))%nat; [|reflexivity].
  destruct f' as [w' docs n]. cbn [world documents processed].
  now destruct (insertMany env docs w') as [r w''].
Qed.

(** With a healthy database and an embedding service that answers, the loop
    hands the records to [insertMany] a hundred at a time, in the order of
    the texts, and keeps fewer than a hundred in the buffer. *)
Lemma build_loop (this : RAGBuilder) (showProgress : bool) :
  storeHealthy env -> embeddingsSucceed env ->
  forall (texts : list jsstring) (idx : nat) (f : Frame),
    (length (documents f) < 100)%nat ->
    exists f' batches,
      forIdx (buildBody env this showProgress) idx texts f = (Ok tt, f') /\
      insertManyCalls (world f') = insertManyCalls (world f) ++ batches /\
      collection (world f') = collection (world f) ++ concat batches /\
      Forall (fun b => length b = 100%nat) batches /\
      (length (documents f') < 100)%nat /\
      (100 * length batches + length (documents f')
       = length (documents f) + length texts)%nat /\
      map (@content number) (concat batches ++ documents f')
      = map (@content number) (documents f) ++ texts.
Proof.
  intros Hstore Hembed texts.
  induction texts as [|text texts IH]; intros idx f Hlen.
  - exists f, []. cbn [forIdx concat length map app].
    rewrite !app_nil_r, Nat.mul_0_r.
    repeat (split; [reflexivity || assumption || constructor || lia|]).
    reflexivity.
  - destruct (Hembed (embeddingRequests (world f)) text
                (embeddingsModel this) (embeddingsDimension this)) as [v Hv].
    cbn [forIdx]. unfold bind at 1.
    destruct (Nat.lt_ge_cases (S (length (documents f))) 100) as [Hlt|Hge].
    + rewrite (buildBody_buffers this showProgress idx text f v Hv Hlt).
      set (f1 := {| world := afterEmbedding (world f);
                    documents := documents f ++ _;
                    processed := S (processed f) |}).
      destruct (IH (S idx) f1) as (f' & batches & -> & Hc & Hs & Hb & Hl & Hn
                                   & Hm).
      { unfold f1. cbn [documents]. rewrite length_app. simpl. lia. }
      exists f', batches. split; [reflexivity|].
      split; [exact Hc|]. split; [exact Hs|]. split; [exact Hb|].
      split; [exact Hl|]. split.
      * rewrite Hn. unfold f1. cbn [documents]. rewrite length_app. simpl.
        lia.
      * rewrite Hm. unfold f1. cbn [documents].
        rewrite map_app, <- app_assoc. reflexivity.
    + rewrite (buildBody_flushes this showProgress idx text f v Hstore Hv Hge).
      set (batch := documents f ++ [documentAt env this idx text v (world f)]).
      set (f1 := {| world := afterInsert batch (afterEmbedding (world f));
                    documents := []; processed := S (processed f) |}).
      destruct (IH (S idx) f1) as (f' & batches & -> & Hc & Hs & Hb & Hl & Hn
                                   & Hm).
      { simpl. lia. }
      assert (Hbatch : length batch = 100%nat).
      { unfold batch. rewrite length_app. simpl. lia. }
      exists f', (batch :: batches). split; [reflexivity|].
      split; [rewrite Hc; unfold f1; cbn; now rewrite <- app_assoc|].
      split; [rewrite Hs; unfold f1; cbn; now rewrite <- app_assoc|].
      split; [now constructor|]. split; [exact Hl|]. split.
      * simpl length in *. lia.
      * simpl concat. rewrite <- app_assoc, map_app, Hm. simpl.
        unfold batch. rewrite map_app, <- app_assoc. reflexivity.
Qed.

(** C4.  When [buildFromTexts] is given 250 texts that are all non-empty
    once trimmed, every embedding request is answered and the database is
    healthy, [insertMany] is called three times, with the first hundred
    records, the next hundred and the last fifty, in the order of the
    texts. *)
Theorem buildFromTexts_250_in_three_batches (this : RAGBuilder)
    (texts : list jsstring) (showProgress : bool) (w : World) :
  length texts = 250%nat ->
  forallb validText texts = true ->
  embeddingsSucceed env ->
  storeHealthy env ->
  exists w' b1 b2 b3,
    buildFromTexts env this texts showProgress w = (Ok tt, w') /\
    insertManyCalls w' = insertManyCalls w ++ [b1; b2; b3] /\
    length b1 = 100%nat /\ length b2 = 100%nat /\ length b3 = 50%nat /\
    map (@content number) (b1 ++ b2 ++ b3) = texts /\
    collection w' = collection w ++ b1 ++ b2 ++ b3.
Proof.
  intros Hlen Hvalid Hembed Hstore.
  destruct (getCollection_run this w Hstore)
    as (w0 & H0 & Hcol & Hcalls & _).
  destruct (build_loop this showProgress Hstore Hembed texts 0
              {| world := w0; documents := []; processed := 0 |})
    as (f' & batches & Hloop & Hc & Hs & Hb & Hl & Hn & Hm);
    [simpl; lia|].
  cbn [world documents] in *. simpl in Hn, Hm.
  assert (Hk : length batches = 2%nat) by lia.
  destruct batches as [|b1 [|b2 [|b3 batches]]]; try discriminate Hk.
  apply Forall_cons_iff in Hb as [Hb1 Hb].
  apply Forall_cons_iff in Hb as [Hb2 _].
  exists (afterInsert (documents f') (world f')), b1, b2, (documents f').
  rewrite (buildFromTexts_unfold this texts showProgress w w0 f' H0)
    by (rewrite filter_all by exact Hvalid; exact Hloop).
  replace (0 <? length (documents f'))%nat with true
    by (symmetry; apply Nat.ltb_lt; simpl in Hn; lia).
  rewrite insertMany_healthy by exact Hstore.
  split; [reflexivity|]. cbn. rewrite Hc, Hs, Hcalls, Hcol.
  split; [now rewrite <- app_assoc|].
  split; [exact Hb1|]. split; [exact Hb2|]. split; [simpl in Hn; lia|].
  split.
  - simpl in Hm. rewrite app_nil_r, <- app_assoc in Hm. exact Hm.
  - simpl. now rewrite app_nil_r, <- !app_assoc.
Qed.

(** C2.  Three texts that are non-empty once trimmed, a healthy database,
    and an embedding service that answers the first and the third request
    and fails the second: [buildFromTexts] returns without raising, the
    error is logged, and the one batch handed to [insertMany] holds the
    records of the first and the third text (sequence indexes 0 and 2);
    nothing of the second text reaches the collection. *)
Theorem buildFromTexts_skips_failed_unit (this : RAGBuilder)
    (t1 t2 t3 : jsstring) (showProgress : bool) (w : World)
    (v1 v3 : list number) (e : exn) :
  validText t1 = true -> validText t2 = true -> validText t3 = true ->
  storeHealthy env ->
  embeddings_create env (embeddingRequests w) t1
    (embeddingsModel this) (embeddingsDimension this) = Ok v1 ->
  embeddings_create env (S (embeddingRequests w)) t2
    (embeddingsModel this) (embeddingsDimension this) = Throw e ->
  embeddings_create env (S (S (embeddingRequests w))) t3
    (embeddingsModel this) (embeddingsDimension this) = Ok v3 ->
  exists w',
    buildFromTexts env this [t1; t2; t3] showProgress w = (Ok tt, w') /\
    let d1 := newDocument this 0 t1 v1
                (uuid_source env (uuidsDrawn w)) (clock env (clockReads w)) in
    let d3 := newDocument this 2 t3 v3
                (uuid_source env (S (uuidsDrawn w)))
                (clock env (S (clockReads w))) in
    insertManyCalls w' = insertManyCalls w ++ [[d1; d3]] /\
    collection w' = collection w ++ [d1; d3] /\
    In (LogError,
        str "Error processing document " ++ Number_toString 1
          ++ str ": " ++ exn_toString e) (log w').
Proof.
  intros Ht1 Ht2 Ht3 Hstore H1 H2 H3.
  destruct (getCollection_run this w Hstore)
    as (w0 & H0 & Hcol & Hcalls & Hreq & Huuid & Hclock).
  rewrite <- Hreq in H1, H2, H3.
  (* first text *)
  pose proof (buildBody_buffers this showProgress 0 t1
                {| world := w0; documents := []; processed := 0 |} v1 H1
                ltac:(simpl; lia)) as B1.
  cbn [world documents processed app] in B1.
  set (d1 := documentAt env this 0 t1 v1 w0) in B1.
  set (f1 := {| world := afterEmbedding w0; documents := [d1];
                processed := 1 |}) in B1.
  (* second text *)
  destruct (buildBody_skips this showProgress 1 t2 f1 e H2)
    as (w2 & B2 & Hcol2 & Hcalls2 & Hreq2 & Huuid2 & Hclock2 & Hlog2).
  cbn [f1 world documents processed] in B2.
  (* third text *)
  assert (H3' : embeddings_create env (embeddingRequests w2) t3
                  (embeddingsModel this) (embeddingsDimension this) = Ok v3).
  { rewrite Hreq2. exact H3. }
  pose proof (buildBody_buffers this showProgress 2 t3
                {| world := w2; documents := [d1]; processed := 1 |} v3 H3'
                ltac:(simpl; lia)) as B3.
  cbn [world documents processed app] in B3.
  set (d3 := documentAt env this 2 t3 v3 w2) in B3.
  set (f3 := {| world := afterEmbedding w2; documents := [d1; d3];
                processed := 2 |}) in B3.
  assert (Hloop : forIdx (buildBody env this showProgress) 0
                    (filter validText [t1; t2; t3])
                    {| world := w0; documents := []; processed := 0 |}
                  = (Ok tt, f3)).
  { simpl filter. rewrite Ht1, Ht2, Ht3. cbn [forIdx]. unfold bind.
    rewrite B1, B2, B3. reflexivity. }
  exists (afterInsert [d1; d3] (afterEmbedding w2)).
  rewrite (buildFromTexts_unfold this [t1; t2; t3] showProgress w w0 f3 H0
             Hloop).
  cbn [f3 documents world length Nat.ltb Nat.leb].
  rewrite insertMany_healthy by exact Hstore.
  split; [reflexivity|].
  assert (E1 : d1 = newDocument this 0 t1 v1
                      (uuid_source env (uuidsDrawn w))
                      (clock env (clockReads w))).
  { unfold d1, documentAt. now rewrite Huuid, Hclock. }
  assert (E3 : d3 = newDocument this 2 t3 v3
                      (uuid_source env (S (uuidsDrawn w)))
                      (clock env (S (clockReads w)))).
  { unfold d3, documentAt. rewrite Huuid2, Hclock2. cbn.
    now rewrite Huuid, Hclock. }
  cbn. rewrite Hcalls2, Hcol2. cbn. rewrite Hcalls, Hcol, <- E1, <- E3.
  repeat split. exact Hlog2.
Qed.

(** ** [cleanupByUid] *)

Lemma jsstring_eqb_spec (a b : jsstring) : jsstring_eqb a b = true <-> a = b.
Proof.
  unfold jsstring_eqb. destruct (list_eq_dec N.eq_dec a b); split;
    congruence.
Qed.

Lemma matchesUid_spec (u : jsstring) (d : RAGDocument) :
  matchesUid u d = true <-> uid d = Some u.
Proof.
  unfold matchesUid. destruct (uid d) as [u'|].
  - rewrite jsstring_eqb_spec. split; congruence.
  - split; discriminate.
Qed.

Lemma filter_matches_none (u : jsstring) (l : list RAGDocument) :
  filter (matchesUid u) (filter (fun d => negb (matchesUid u d)) l) = [].
Proof.
  induction l as [|d l IH]; simpl; [reflexivity|].
  destruct (matchesUid u d) eqn:E; simpl; [exact IH|].
  now rewrite E.
Qed.

Lemma filter_others_again (u : jsstring) (l : list RAGDocument) :
  filter (fun d => negb (matchesUid u d))
    (filter (fun d => negb (matchesUid u d)) l)
  = filter (fun d => negb (matchesUid u d)) l.
Proof.
  induction l as [|d l IH]; simpl; [reflexivity|].
  destruct (matchesUid u d) eqn:E; simpl; [exact IH|].
  now rewrite E, IH.
Qed.

Lemma cleanupByUid_run (this : RAGBuilder) (u : jsstring) (w : World) :
  storeHealthy env ->
  exists w1,
    cleanupByUid env this u w
    = (Ok (length (filter (matchesUid u) (collection w))), w1) /\
    collection w1 = filter (fun d => negb (matchesUid u d)) (collection w).
Proof.
  intros Hstore.
  destruct (getCollection_run this w Hstore) as (w0 & H0 & Hcol & _).
  unfold cleanupByUid. cbv [bind]. rewrite H0.
  cbv [deleteMany bind storeOp get modify ret throw].
  rewrite (proj1 Hstore). cbn [collection setStoreOps setCollection].
  rewrite Hcol. eexists. split; reflexivity.
Qed.

(** C6.  With a healthy database, [cleanupByUid(u)] (for ["owner-1"] and
    any other [u]) removes the records whose [uid] field is [u] and no
    other: the records with another [uid] or with none stay as they are, in
    their order.  It returns the number of the records it removed, and a
    second call on the collection it left returns 0 and changes nothing. *)
Theorem cleanupByUid_removes_owner (this : RAGBuilder) (u : jsstring)
    (w : World) :
  storeHealthy env ->
  exists w1,
    cleanupByUid env this u w
    = (Ok (length (filter (matchesUid u) (collection w))), w1) /\
    collection w1 = filter (fun d => negb (matchesUid u d)) (collection w) /\
    (forall d, In d (collection w1) <->
               In d (collection w) /\ uid d <> Some u) /\
    (forall d, In d (filter (matchesUid u) (collection w)) <->
               In d (collection w) /\ uid d = Some u) /\
    (length (filter (matchesUid u) (collection w)) + length (collection w1)
     = length (collection w))%nat /\
    (forall w1', collection w1' = collection w1 ->
       exists w2, cleanupByUid env this u w1' = (Ok 0%nat, w2) /\
                  collection w2 = collection w1').
Proof.
  intros Hstore.
  destruct (cleanupByUid_run this u w Hstore) as (w1 & Hrun & Hcol).
  exists w1. split; [exact Hrun|]. split; [exact Hcol|].
  split; [|split; [|split]].
  - intros d. rewrite Hcol, filter_In, negb_true_iff.
    rewrite <- (matchesUid_spec u d).
    destruct (matchesUid u d); intuition congruence.
  - intros d. now rewrite filter_In, matchesUid_spec.
  - rewrite Hcol. apply filter_length.
  - intros w1' Hsame.
    destruct (cleanupByUid_run this u w1' Hstore) as (w2 & Hrun2 & Hcol2).
    exists w2. rewrite Hrun2, Hcol2, Hsame, Hcol.
    now rewrite filter_matches_none, filter_others_again.
Qed.

(** ** [buildFromFile] *)

Section Batches.

Variable texts : list jsstring.
Variable calls : list (list RAGDocument).

Lemma onlyBatchesOf_insert (batch : list RAGDocument) (w w' : World) :
  onlyBatchesOf texts calls w ->
  (forall d, In d batch -> In (content d) texts) ->
  insertManyCalls w' = insertManyCalls w ++ [batch] ->
  onlyBatchesOf texts calls w'.
Proof.
  intros (new & Hnew & Hb) Hbatch Hcalls. exists (new ++ [batch]). split.
  - now rewrite Hcalls, Hnew, app_assoc.
  - intros b d Hin Hd. apply in_app_or in Hin as [Hin|[<-|[]]].
    + now apply (Hb b).
    + now apply Hbatch.
Qed.

Lemma buildBody_fromTexts (this : RAGBuilder) (showProgress : bool)
    (idx : nat) (text : jsstring) :
  In text texts ->
  preserves (fromTexts texts calls)
    (buildBody env this showProgress idx text).
Proof.
  intros Htext [w docs n] [Hw Hd]. unfold fromTexts in *.
  cbn [world documents] in *. run.
  destruct (embeddings_create env (embeddingRequests w) text
              (embeddingsModel this) (embeddingsDimension this)) as [v|e].
  2:{ split; [exact Hw|exact Hd]. }
  cbn [uuidsDrawn clockReads storeOps setEmbeddingRequests setUuidsDrawn
       setClockReads].
  set (d := newDocument this idx text v _ _).
  assert (Hd' : forall d', In d' (docs ++ [d]) -> In (content d') texts).
  { intros d' Hin. apply in_app_or in Hin as [Hin|[<-|[]]];
      [now apply Hd|exact Htext]. }
  destruct (100 <=? length (docs ++ [d]))%nat.
  2:{ split; [exact Hw|exact Hd']. }
  fields.
  destruct (storeFault env (storeOps w)) as [e|].
  { split; [|exact Hd'].
    now apply (onlyBatchesOf_insert (docs ++ [d]) w). }
  destruct (existsb (rejects env (storeOps w)) (docs ++ [d])).
  - split; [|exact Hd'].
    now apply (onlyBatchesOf_insert (docs ++ [d]) w).
  - split; [|intros d' []].
    now apply (onlyBatchesOf_insert (docs ++ [d]) w).
Qed.

Lemma insertMany_calls (batch : list RAGDocument) (w : World) :
  insertManyCalls (snd (insertMany env batch w))
  = insertManyCalls w ++ [batch].
Proof.
  cbv [insertMany bind modify storeOp get ret throw].
  cbn [storeOps setInsertManyCalls].
  destruct (storeFault env (storeOps w)); [reflexivity|].
  destruct (existsb _ _); reflexivity.
Qed.

End Batches.

(** Whatever the collaborators do, [buildFromTexts] hands [insertMany]
    nothing but records of the texts it was given. *)
Lemma buildFromTexts_onlyBatchesOf (this : RAGBuilder)
    (texts : list jsstring) (showProgress : bool) (w : World) :
  onlyBatchesOf texts (insertManyCalls w)
    (snd (buildFromTexts env this texts showProgress w)).
Proof.
  assert (H0 : onlyBatchesOf texts (insertManyCalls w)
                 (snd (getCollection env this w))).
  { apply (preserves_getCollection
             (onlyBatchesOf texts (insertManyCalls w)));
      try (intros; assumption).
    exists []. split; [now rewrite app_nil_r|]. intros b d []. }
  unfold buildFromTexts. cbv [bind withLocals].
  destruct (getCollection env this w) as [[[]|e] w0]; [|exact H0].
  cbn [snd] in H0.
  assert (Hloop :
    onlyBatchesOf texts (insertManyCalls w)
      (world (snd (forIdx (buildBody env this showProgress) 0
                     (filter validText texts)
                     {| world := w0; documents := []; processed := 0 |}))) /\
    forall d,
      In d (documents (snd (forIdx (buildBody env this showProgress) 0
                              (filter validText texts)
                              {| world := w0; documents := [];
                                 processed := 0 |}))) ->
      In (content d) texts).
  { apply (preserves_forIdx
             (fun f => onlyBatchesOf texts (insertManyCalls w) (world f) /\
                       forall d, In d (documents f) -> In (content d) texts)).
    - intros idx text Hin. apply buildBody_fromTexts.
      now apply filter_In in Hin.
    - split; [exact H0|]. intros d []. }
  destruct (forIdx _ _ _ _) as [[[]|e] [w' docs n]];
    cbn [snd world documents] in *; [|exact (proj1 Hloop)].
  cbv [get inWorld ret]. cbn [world documents processed].
  destruct (0 <? length docs)%nat; [|exact (proj1 Hloop)].
  pose proof (insertMany_calls docs w') as Hcalls. simpl.
  destruct (insertMany env docs w') as [r w'']. simpl in *.
  exact (onlyBatchesOf_insert texts _ docs w' w'' (proj1 Hloop) (proj2 Hloop)
           Hcalls).
Qed.

(** C7.  [buildFromFile(path)] raises [Error("Input file not found: " +
    path)] and leaves the world as it was when there is nothing at the
    path.  When the path is a file, it does what [buildFromTexts] does on
    the paragraphs [tokenizeParagraphs] makes of the whole text of the
    file: the sliding-window chunker has no part in it, and every record
    handed to [insertMany] has a whole paragraph as its content. *)
Theorem buildFromFile_reads_paragraphs (this : RAGBuilder)
    (filePath : jsstring) (showProgress : bool) (w : World) :
  (fs env filePath = None ->
   buildFromFile env this filePath showProgress w
   = (Throw (Error (str "Input file not found: " ++ filePath)), w)) /\
  (forall rawData,
      fs env filePath = Some (File rawData) ->
      buildFromFile env this filePath showProgress w
      = buildFromTexts env this (tokenizeParagraphs rawData) showProgress w /\
      onlyBatchesOf (tokenizeParagraphs rawData) (insertManyCalls w)
        (snd (buildFromFile env this filePath showProgress w))).
Proof.
  split.
  - intros Hfs. unfold buildFromFile, fs_access. rewrite Hfs. reflexivity.
  - intros rawData Hfs.
    assert (E : buildFromFile env this filePath showProgress w
                = buildFromTexts env this (tokenizeParagraphs rawData)
                    showProgress w).
    { unfold buildFromFile, fs_access, fs_readFile. rewrite Hfs.
      reflexivity. }
    split; [exact E|]. rewrite E. apply buildFromTexts_onlyBatchesOf.
Qed.

End PipelineFacts.

(** ** The claims on the pipeline, run *)

Lemma buildFromTexts_skips_failed_unit_witness :
  exists w',
    buildFromTexts (exampleEnv (Nat.eqb 1)) (builderFor (Some (str "owner-1")))
      [str "one"; str "two"; str "three"] true (emptyWorld Z) = (Ok tt, w') /\
    map (@content Z) (collection w') = [str "one"; str "three"] /\
    map (fun d => index (metadata d)) (collection w') = [0; 2]%nat /\
    map (@length _) (insertManyCalls w') = [2%nat].
Proof.
  destruct (buildFromTexts_skips_failed_unit Z (exampleEnv (Nat.eqb 1))
              (builderFor (Some (str "owner-1")))
              (str "one") (str "two") (str "three") true (emptyWorld Z)
              [0%Z] [2%Z] (Error (str "429 quota exceeded"))
              eq_refl eq_refl eq_refl
              (conj (fun _ => eq_refl) (fun _ _ => eq_refl))
              eq_refl eq_refl eq_refl)
    as (w' & Hrun & Hcalls & Hcol & _).
  exists w'. split; [exact Hrun|]. rewrite Hcol, Hcalls.
  repeat split.
Defined.

Lemma buildFromTexts_250_in_three_batches_witness :
  exists w' b1 b2 b3,
    buildFromTexts (exampleEnv (fun _ => false)) (builderFor None)
      (repeat (str "unit") 250) true (emptyWorld Z) = (Ok tt, w') /\
    insertManyCalls w' = [b1; b2; b3] /\
    length b1 = 100%nat /\ length b2 = 100%nat /\ length b3 = 50%nat.
Proof.
  destruct (buildFromTexts_250_in_three_batches Z
              (exampleEnv (fun _ => false)) (builderFor None)
              (repeat (str "unit") 250) true (emptyWorld Z)
              (repeat_length (str "unit") 250)
              ltac:(vm_compute; reflexivity)
              (fun n _ _ _ => ex_intro _ [Z.of_nat n] eq_refl)
              (conj (fun _ => eq_refl) (fun _ _ => eq_refl)))
    as (w' & b1 & b2 & b3 & Hrun & Hcalls & H1 & H2 & H3 & _).
  exists w', b1, b2, b3. auto.
Defined.

Lemma cleanupByUid_removes_owner_witness :
  exists w1,
    cleanupByUid (exampleEnv (fun _ => false)) (builderFor None)
      (str "owner-1") threeRecords = (Ok 1%nat, w1) /\
    map (@uid Z) (collection w1) = [Some (str "owner-2"); None] /\
    exists w2,
      cleanupByUid (exampleEnv (fun _ => false)) (builderFor None)
        (str "owner-1") w1 = (Ok 0%nat, w2) /\
      collection w2 = collection w1.
Proof.
  destruct (cleanupByUid_removes_owner Z (exampleEnv (fun _ => false))
              (builderFor None) (str "owner-1") threeRecords
              (conj (fun _ => eq_refl) (fun _ _ => eq_refl)))
    as (w1 & Hrun & Hcol & _ & _ & _ & Hagain).
  exists w1. split; [exact Hrun|]. split; [now rewrite Hcol|].
  exact (Hagain w1 eq_refl).
Defined.

Lemma buildFromFile_reads_paragraphs_witness :
  buildFromFile (exampleEnv (fun _ => false)) (builderFor None)
    (str "missing.txt") true (emptyWorld Z)
  = (Throw (Error (str "Input file not found: missing.txt")), emptyWorld Z) /\
  buildFromFile (exampleEnv (fun _ => false)) (builderFor None)
    (str "notes.txt") true (emptyWorld Z)
  = buildFromTexts (exampleEnv (fun _ => false)) (builderFor None)
      [str "first"; str "second"] true (emptyWorld Z).
Proof.
  split.
  - exact (proj1 (buildFromFile_reads_paragraphs Z
                    (exampleEnv (fun _ => false)) (builderFor None)
                    (str "missing.txt") true (emptyWorld Z)) eq_refl).
  - exact (proj1 (proj2 (buildFromFile_reads_paragraphs Z
                    (exampleEnv (fun _ => false)) (builderFor None)
                    (str "notes.txt") true (emptyWorld Z))
                    (str "first" ++ [10; 10]%N ++ str "second") eq_refl)).
Defined.

(* ===================================================================== *)
(** * Further properties of the tokenizers *)
(* ===================================================================== *)

(** ** [trim] *)

Lemma trimStart_app_single (a : jsstring) (c : code_unit) :
  trimStart (a ++ [c]) =
  match trimStart a with
  | [] => if isWhiteSpace c then [] else [c]
  | _ :: _ => trimStart a ++ [c]
  end.
Proof.
  induction a as [|b a IH]; simpl; [reflexivity|].
  destruct (isWhiteSpace b); [exact IH|reflexivity].
Qed.

(** [trimEnd], read from the front. *)
Lemma trimEnd_cons (c : code_unit) (s : jsstring) :
  trimEnd (c :: s) =
  match trimEnd s with
  | [] => if isWhiteSpace c then [] else [c]
  | _ :: _ => c :: trimEnd s
  end.
Proof.
  unfold trimEnd. simpl rev. rewrite trimStart_app_single.
  destruct (trimStart (rev s)) as [|b t] eqn:Et.
  - simpl. now destruct (isWhiteSpace c).
  - rewrite rev_app_distr. change (rev [c] ++ rev (b :: t))
      with (c :: rev (b :: t)).
    destruct (rev (b :: t)) eqn:E; [|reflexivity].
    apply (f_equal (@length _)) in E. rewrite length_rev in E. discriminate.
Qed.

Lemma trimStart_clean (s : jsstring) : startsClean (trimStart s).
Proof.
  induction s as [|c s IH]; simpl; [exact I|].
  destruct (isWhiteSpace c) eqn:E; [exact IH|exact E].
Qed.

Lemma trimStart_of_clean (s : jsstring) : startsClean s -> trimStart s = s.
Proof.
  destruct s as [|c s]; simpl; [reflexivity|]. now intros ->.
Qed.

Lemma trimEnd_clean (s : jsstring) : startsClean s -> startsClean (trimEnd s).
Proof.
  destruct s as [|c s]; [intros _; exact I|]. simpl. intros Hc.
  rewrite trimEnd_cons, Hc. destruct (trimEnd s); exact Hc.
Qed.

Lemma trimEnd_idempotent (s : jsstring) : trimEnd (trimEnd s) = trimEnd s.
Proof.
  unfold trimEnd. rewrite rev_involutive.
  now rewrite (trimStart_of_clean _ (trimStart_clean (rev s))).
Qed.

Lemma nonWhite_trimStart (s : jsstring) : nonWhite (trimStart s) = nonWhite s.
Proof.
  induction s as [|c s IH]; simpl; [reflexivity|].
  destruct (isWhiteSpace c) eqn:E; simpl; [exact IH|]. now rewrite E.
Qed.

Lemma nonWhite_rev (s : jsstring) : nonWhite (rev s) = rev (nonWhite s).
Proof. apply filter_rev. Qed.

Lemma nonWhite_app (a b : jsstring) :
  nonWhite (a ++ b) = nonWhite a ++ nonWhite b.
Proof. apply filter_app. Qed.

Lemma nonWhite_trim (s : jsstring) : nonWhite (trim s) = nonWhite s.
Proof.
  unfold trim, trimEnd.
  now rewrite nonWhite_rev, nonWhite_trimStart, nonWhite_rev, rev_involutive,
    nonWhite_trimStart.
Qed.

Lemma trimStart_nil_iff (s : jsstring) : trimStart s = [] <-> nonWhite s = [].
Proof.
  induction s as [|c s IH]; simpl; [tauto|].
  destruct (isWhiteSpace c); simpl; [exact IH|]. split; discriminate.
Qed.

Lemma trim_nil_iff (s : jsstring) : trim s = [] <-> nonWhite s = [].
Proof.
  rewrite <- (nonWhite_trim s). split; [now intros ->|].
  unfold trim, trimEnd. intros H.
  rewrite nonWhite_rev in H.
  apply (f_equal (@rev _)) in H. rewrite rev_involutive in H. simpl in H.
  apply trimStart_nil_iff in H.
  rewrite trimStart_of_clean in H by apply trimStart_clean. now rewrite H.
Qed.

(** What [trim] gives is trimmed: it has no whitespace at either end. *)
Lemma trim_idempotent (s : jsstring) : trim (trim s) = trim s.
Proof.
  unfold trim at 1.
  rewrite (trimStart_of_clean (trim s)).
  - unfold trim. apply trimEnd_idempotent.
  - unfold trim. apply trimEnd_clean, trimStart_clean.
Qed.

Lemma trim_ends_clean (s : jsstring) :
  startsClean (trim s) /\ startsClean (rev (trim s)).
Proof.
  split.
  - unfold trim. apply trimEnd_clean, trimStart_clean.
  - unfold trim, trimEnd. rewrite rev_involutive. apply trimStart_clean.
Qed.

(** ** Splitting on whitespace loses whitespace only *)

Lemma ws_run_cons_pos (c : code_unit) (s : jsstring) (k : nat) :
  (S k <= ws_run (c :: s))%nat ->
  isWhiteSpace c = true /\ (k <= ws_run s)%nat.
Proof.
  simpl. destruct (isWhiteSpace c); [split; [reflexivity|lia]|lia].
Qed.

Lemma nonWhite_white_cons (c : code_unit) (s : jsstring) :
  isWhiteSpace c = true -> nonWhite (c :: s) = nonWhite s.
Proof. intros H. unfold nonWhite. simpl. now rewrite H. Qed.

Lemma split_loop_nonWhite (m : matcher) (s : jsstring) :
  whiteOnly m ->
  (forall skip before,
      (skip <= ws_run s)%nat ->
      nonWhite (join (split_loop m skip before [] s)) = nonWhite s) /\
  (forall before piece,
      nonWhite (join (split_loop m 0 before piece s))
      = nonWhite (rev piece ++ s)).
Proof.
  intros Hm. induction s as [|c s [IHskip IH0]].
  - split; intros.
    + destruct skip; reflexivity.
    + simpl. now rewrite !app_nil_r.
  - assert (H0 : forall before piece,
               nonWhite (join (split_loop m 0 before piece (c :: s)))
               = nonWhite (rev piece ++ c :: s)).
    { intros before piece. cbn [split_loop].
      destruct (m before (c :: s)) as [[n caps]|] eqn:E.
      - destruct (Hm _ _ _ _ E) as [-> [Hpos Hle]].
        destruct n as [|k]; [lia|].
        destruct (ws_run_cons_pos c s k Hle) as [Hc Hk].
        unfold join. simpl concat. rewrite !nonWhite_app.
        fold (join (split_loop m k (c :: before) [] s)).
        rewrite (IHskip k (c :: before) Hk).
        now rewrite (nonWhite_white_cons c s Hc).
      - rewrite IH0. simpl rev. now rewrite <- app_assoc. }
    split; [|exact H0].
    intros [|k] before Hle.
    + apply (H0 before []).
    + destruct (ws_run_cons_pos c s k Hle) as [Hc Hk].
      cbn [split_loop]. rewrite (IHskip k (c :: before) Hk).
      now rewrite (nonWhite_white_cons c s Hc).
Qed.

Lemma split_nonWhite (m : matcher) (s : jsstring) :
  whiteOnly m -> nonWhite (join (split m s)) = nonWhite s.
Proof.
  intros Hm. destruct s as [|c s].
  - unfold split. destruct (m [] []) as [[n caps]|] eqn:E; [|reflexivity].
    destruct (Hm _ _ _ _ E) as [_ H]. simpl in H. lia.
  - unfold split. now rewrite (proj2 (split_loop_nonWhite m (c :: s) Hm)).
Qed.

Lemma re_ws_whiteOnly : whiteOnly re_ws.
Proof.
  intros before s n caps. unfold re_ws.
  destruct (ws_run s) eqn:E; [discriminate|]. intros [= <- <-].
  split; [reflexivity|lia].
Qed.

Lemma re_sentence_end_whiteOnly : whiteOnly re_sentence_end.
Proof.
  intros before s n caps. unfold re_sentence_end.
  destruct before as [|c before]; [discriminate|].
  destruct (isTerminator c); [apply re_ws_whiteOnly|discriminate].
Qed.

Lemma re_blank_line_whiteOnly : whiteOnly re_blank_line.
Proof.
  intros before s n caps. unfold re_blank_line.
  destruct s as [|c s]; [discriminate|].
  destruct (N.eqb_spec c 10) as [->|]; [|discriminate].
  destruct (last_LF _) as [k|] eqn:E; [|discriminate].
  intros [= <- <-]. apply last_LF_lt in E. rewrite length_firstn in E.
  split; [reflexivity|]. simpl. lia.
Qed.

Lemma nonWhite_join_cons (w : jsstring) (words : list jsstring) :
  nonWhite (join (w :: words)) = nonWhite w ++ nonWhite (join words).
Proof. unfold join. simpl. apply nonWhite_app. Qed.

Lemma nonWhite_join_map_trim (l : list jsstring) :
  nonWhite (join (map trim l)) = nonWhite (join l).
Proof.
  induction l as [|w l IH]; [reflexivity|]. simpl map.
  now rewrite !nonWhite_join_cons, nonWhite_trim, IH.
Qed.

Lemma nonWhite_join_filter_trim (l : list jsstring) :
  nonWhite (join (filter (fun s => nonEmpty (trim s)) l))
  = nonWhite (join l).
Proof.
  induction l as [|w l IH]; [reflexivity|]. simpl filter.
  destruct (nonEmpty (trim w)) eqn:E.
  - now rewrite !nonWhite_join_cons, IH.
  - rewrite nonWhite_join_cons, IH.
    apply nonEmpty_false, trim_nil_iff in E. now rewrite E.
Qed.

Lemma paragraphs_trimmed (text : jsstring) :
  Forall (fun p => p <> [] /\ trim p = p /\
                   startsClean p /\ startsClean (rev p) /\
                   validText p = true)
         (tokenizeParagraphs text).
Proof.
  unfold tokenizeParagraphs. apply Forall_forall. intros p Hp.
  apply filter_In in Hp as [Hp Hne]. apply in_map_iff in Hp as (q & <- & _).
  assert (Htrim : trim (trim q) = trim q) by apply trim_idempotent.
  split; [intros E; rewrite E in Hne; discriminate|].
  split; [exact Htrim|]. split; [apply trim_ends_clean|].
  split; [apply trim_ends_clean|]. unfold validText. now rewrite Htrim.
Qed.

(** X1.  Every paragraph [tokenizeParagraphs] returns is non-empty and
    trimmed: [trim] leaves it as it is, it neither begins nor ends with
    whitespace, and it passes the filter of [buildFromTexts]. *)
Theorem tokenizeParagraphs_trimmed (text : jsstring) :
  Forall (fun p => p <> [] /\ trim p = p /\
                   startsClean p /\ startsClean (rev p) /\
                   validText p = true)
         (tokenizeParagraphs text).
Proof. apply paragraphs_trimmed. Qed.

Lemma tokenizeParagraphs_content (text : jsstring) :
  nonWhite (join (tokenizeParagraphs text)) = nonWhite text /\
  (tokenizeParagraphs text = [] <-> trim text = []).
Proof.
  assert (H : nonWhite (join (tokenizeParagraphs text)) = nonWhite text).
  { unfold tokenizeParagraphs.
    rewrite join_filter_nonEmpty, nonWhite_join_map_trim.
    apply split_nonWhite, re_blank_line_whiteOnly. }
  split; [exact H|]. rewrite trim_nil_iff, <- H. split; [now intros ->|].
  intros Hnil.
  pose proof (paragraphs_trimmed text) as Hall.
  destruct (tokenizeParagraphs text) as [|p ps]; [reflexivity|].
  apply Forall_inv in Hall. destruct Hall as (Hne & Htrim & _).
  rewrite nonWhite_join_cons in Hnil. apply app_eq_nil in Hnil as [Hp _].
  apply trim_nil_iff in Hp. congruence.
Qed.

(** X2.  [tokenizeParagraphs] loses nothing but whitespace: the code units
    of the paragraphs that are not whitespace are those of the text, in
    order.  It returns no paragraph exactly when [text.trim()] is empty. *)
Theorem tokenizeParagraphs_keeps_content (text : jsstring) :
  nonWhite (join (tokenizeParagraphs text)) = nonWhite text /\
  (tokenizeParagraphs text = [] <-> trim text = []).
Proof. apply tokenizeParagraphs_content. Qed.

(** ** The shape of the word tokens *)

Lemma firstn_ws_run_white (s : jsstring) :
  forallb isWhiteSpace (firstn (ws_run s) s) = true.
Proof.
  induction s as [|c s IH]; simpl; [reflexivity|].
  destruct (isWhiteSpace c) eqn:E; simpl; [now rewrite E|reflexivity].
Qed.

Lemma nonWhite_fixed_iff (t : jsstring) :
  nonWhite t = t <-> Forall (fun c => isWhiteSpace c = false) t.
Proof.
  induction t as [|c t IH]; simpl; [split; auto|].
  destruct (isWhiteSpace c) eqn:E; simpl.
  - split.
    + intros H. exfalso.
      assert (Hin : In c (nonWhite t)) by (rewrite H; now left).
      apply filter_In in Hin as [_ Hc]. now rewrite E in Hc.
    + intros H. apply Forall_inv in H. congruence.
  - split.
    + intros [= H]. constructor; [exact E|now apply IH].
    + intros H. f_equal. apply IH. now apply Forall_inv_tail in H.
Qed.

(** A pattern that matches wherever a whitespace run begins cuts the text
    in pieces without whitespace; what it captures is put between them. *)
Lemma split_loop_pieces (m : matcher) (Q : jsstring -> Prop) (s : jsstring) :
  (forall before s, m before s = None -> ws_run s = 0%nat) ->
  (forall before s n caps,
      m before s = Some (n, caps) -> (0 < n)%nat /\ Forall Q caps) ->
  forall skip before piece,
    Forall (fun c => isWhiteSpace c = false) piece ->
    Forall (fun t => nonWhite t = t \/ Q t)
           (split_loop m skip before piece s).
Proof.
  intros Hnone Hsome. induction s as [|c s IH]; intros skip before piece Hp.
  - simpl. constructor; [|constructor]. left.
    apply nonWhite_fixed_iff, Forall_rev, Hp.
  - cbn [split_loop]. destruct skip as [|k]; [|apply IH; constructor].
    destruct (m before (c :: s)) as [[n caps]|] eqn:E.
    + destruct (Hsome _ _ _ _ E) as [Hpos Hcaps].
      destruct n as [|k]; [lia|]. constructor.
      * left. apply nonWhite_fixed_iff, Forall_rev, Hp.
      * apply Forall_app. split; [|apply IH; constructor].
        eapply Forall_impl; [|exact Hcaps]. intros t Ht. now right.
    + apply IH. constructor; [|exact Hp].
      specialize (Hnone _ _ E). simpl in Hnone.
      now destruct (isWhiteSpace c).
Qed.

Lemma split_pieces (m : matcher) (Q : jsstring -> Prop) (s : jsstring) :
  (forall before s, m before s = None -> ws_run s = 0%nat) ->
  (forall before s n caps,
      m before s = Some (n, caps) -> (0 < n)%nat /\ Forall Q caps) ->
  Forall (fun t => nonWhite t = t \/ Q t) (split m s).
Proof.
  intros Hnone Hsome. destruct s as [|c s].
  - unfold split. destruct (m [] []); constructor; [now left|constructor].
  - unfold split. apply split_loop_pieces; [assumption..|constructor].
Qed.

Lemma nonWhite_join_fixed (words : list jsstring) :
  Forall (fun t => nonWhite t = t) words -> nonWhite (join words) = join words.
Proof.
  induction 1 as [|w words Hw _ IH]; [reflexivity|].
  rewrite nonWhite_join_cons, Hw, IH. reflexivity.
Qed.

(** X3.  With [ignorePunctuation = true] the word tokens are non-empty and
    free of whitespace, and [formatWords(tokenize(s))] is [s] with every
    whitespace code unit taken out: this policy does not round-trip. *)
Theorem tokenize_collapsing_drops_whitespace (s : jsstring) :
  Forall (fun t => t <> [] /\ nonWhite t = t)
         (WordTokenizer.tokenize (BasicWordTokenizer true) s) /\
  WordTokenizer.formatWords (BasicWordTokenizer true)
    (WordTokenizer.tokenize (BasicWordTokenizer true) s) = nonWhite s.
Proof.
  assert (Hpieces : Forall (fun t => nonWhite t = t) (split re_ws s)).
  { eapply Forall_impl;
      [|apply (split_pieces re_ws (fun _ => False) s)].
    - intros t [H|[]]. exact H.
    - intros before s'. unfold re_ws. now destruct (ws_run s').
    - intros before s' n caps. unfold re_ws.
      destruct (ws_run s'); [discriminate|]. intros [= <- <-].
      split; [lia|constructor]. }
  split.
  - simpl. apply Forall_forall. intros t Ht.
    apply filter_In in Ht as [Ht Hne]. split.
    + intros ->. discriminate.
    + now apply (proj1 (Forall_forall _ _) Hpieces).
  - simpl. rewrite join_filter_nonEmpty.
    rewrite <- (nonWhite_join_fixed _ Hpieces).
    apply split_nonWhite, re_ws_whiteOnly.
Qed.

(** X4.  With [ignorePunctuation = false] every word token is non-empty
    and is either a run of whitespace or free of whitespace. *)
Theorem tokenize_preserving_tokens (s : jsstring) :
  Forall (fun t => t <> [] /\ homogeneous t)
         (WordTokenizer.tokenize (BasicWordTokenizer false) s).
Proof.
  simpl. apply Forall_forall. intros t Ht.
  apply filter_In in Ht as [Ht Hne]. split; [intros ->; discriminate|].
  pose proof (split_pieces re_ws_capture
                (fun t => forallb isWhiteSpace t = true) s) as H.
  assert (Hall : Forall (fun t => nonWhite t = t \/
                                  forallb isWhiteSpace t = true)
                        (split re_ws_capture s)).
  { apply H.
    - intros before s'. unfold re_ws_capture. now destruct (ws_run s').
    - intros before s' n caps. unfold re_ws_capture.
      pose proof (firstn_ws_run_white s') as Hrun.
      destruct (ws_run s') eqn:E; [discriminate|]. intros [= <- <-].
      split; [lia|]. constructor; [exact Hrun|constructor]. }
  destruct (proj1 (Forall_forall _ _) Hall t Ht) as [Hn|Hw];
    [now right|now left].
Qed.

(** ** The shape of the sentences *)

Lemma split_loop_not_nil (m : matcher) (s : jsstring) :
  forall skip before piece, split_loop m skip before piece s <> [].
Proof.
  induction s as [|c s IH]; intros skip before piece; cbn [split_loop];
    [discriminate|].
  destruct skip; [|apply IH].
  destruct (m before (c :: s)) as [[[|k] caps]|]; try apply IH;
    try discriminate.
  destruct piece; [apply IH|discriminate].
Qed.

Lemma removelast_cons {A} (x : A) (l : list A) :
  l <> [] -> removelast (x :: l) = x :: removelast l.
Proof. destruct l; [congruence|reflexivity]. Qed.

Lemma ws_run_0_clean (s : jsstring) : ws_run s = 0%nat -> startsClean s.
Proof.
  destruct s as [|c s]; simpl; [trivial|].
  now destruct (isWhiteSpace c).
Qed.

Lemma startsClean_app_l (a b : jsstring) :
  a <> [] -> startsClean (a ++ b) -> startsClean a.
Proof. destruct a; [congruence|trivial]. Qed.

(** The pieces cut at [/(?<=[.!?])\s+/]: each piece but the last ends with a
    terminator, each piece but the first begins after the whole whitespace
    run. *)
Lemma split_loop_sentences (s : jsstring) :
  (forall skip before,
      skip = ws_run s ->
      Forall endsWithTerminator
        (removelast (split_loop re_sentence_end skip before [] s)) /\
      Forall startsClean (split_loop re_sentence_end skip before [] s)) /\
  (forall before piece,
      (piece = [] \/ exists c p b, piece = c :: p /\ before = c :: b) ->
      (piece = [] -> before = [] \/ ws_run s = 0%nat) ->
      Forall endsWithTerminator
        (removelast (split_loop re_sentence_end 0 before piece s)) /\
      Forall startsClean (tl (split_loop re_sentence_end 0 before piece s)) /\
      (startsClean (rev piece ++ s) ->
       startsClean (hd [] (split_loop re_sentence_end 0 before piece s)))).
Proof.
  induction s as [|c s [IHskip IH0]].
  - split.
    + intros skip before _. simpl. split; repeat constructor.
    + intros before piece _ _. simpl. rewrite app_nil_r.
      split; [constructor|]. split; [constructor|trivial].
  - assert (H0 : forall before piece,
      (piece = [] \/ exists c p b, piece = c :: p /\ before = c :: b) ->
      (piece = [] -> before = [] \/ ws_run (c :: s) = 0%nat) ->
      Forall endsWithTerminator
        (removelast (split_loop re_sentence_end 0 before piece (c :: s))) /\
      Forall startsClean
        (tl (split_loop re_sentence_end 0 before piece (c :: s))) /\
      (startsClean (rev piece ++ c :: s) ->
       startsClean
         (hd [] (split_loop re_sentence_end 0 before piece (c :: s))))).
    { intros before piece Hhd Hnil. cbn [split_loop].
      destruct (re_sentence_end before (c :: s)) as [[n caps]|] eqn:E.
      - assert (Hm : exists c0 b k,
                   before = c0 :: b /\ isTerminator c0 = true /\
                   ws_run (c :: s) = S k /\ n = S k /\ caps = []).
        { unfold re_sentence_end, re_ws in E.
          destruct before as [|c0 b]; [discriminate|].
          destruct (isTerminator c0) eqn:Ec; [|discriminate].
          destruct (ws_run (c :: s)) as [|k] eqn:Ek; [discriminate|].
          injection E as <- <-. now exists c0, b, k. }
        destruct Hm as (c0 & b & k & -> & Hc0 & Hrun & -> & ->).
        assert (Hk : k = ws_run s).
        { simpl in Hrun. destruct (isWhiteSpace c); [lia|discriminate]. }
        destruct Hhd as [->|(c1 & p & b1 & -> & [= <- <-])].
        { destruct (Hnil eq_refl) as [H|H]; [discriminate|lia]. }
        destruct (IHskip k (c :: c0 :: b) Hk) as [Hend Hstart].
        cbn [app]. rewrite removelast_cons by apply split_loop_not_nil.
        split; [|split].
        + constructor; [|exact Hend].
          unfold endsWithTerminator. rewrite rev_involutive. exact Hc0.
        + exact Hstart.
        + cbn [hd]. apply startsClean_app_l.
          intros H. apply (f_equal (@length _)) in H.
          rewrite length_rev in H. discriminate.
      - destruct (IH0 (c :: before) (c :: piece)) as (Hend & Hstart & Hhead).
        + right. now exists c, piece, before.
        + discriminate.
        + split; [exact Hend|]. split; [exact Hstart|].
          intros Hc. apply Hhead. simpl rev. now rewrite <- app_assoc. }
    split; [|exact H0].
    intros skip before ->. cbn [split_loop ws_run].
    destruct (isWhiteSpace c) eqn:Ec.
    + apply IHskip. reflexivity.
    + destruct (H0 before []) as (Hend & Hstart & Hhead).
      * now left.
      * intros _. right. simpl. now rewrite Ec.
      * cbn [split_loop] in Hend, Hstart, Hhead. split; [exact Hend|].
        destruct (match re_sentence_end before (c :: s) with
                  | Some (S k, caps) =>
                      rev [] :: caps ++
                        split_loop re_sentence_end k (c :: before) [] s
                  | Some (0%nat, caps) =>
                      split_loop re_sentence_end 0 (c :: before) [c] s
                  | None => split_loop re_sentence_end 0 (c :: before) [c] s
                  end) as [|x l]; [constructor|].
        constructor; [|exact Hstart]. apply Hhead. simpl. exact Ec.
Qed.

Lemma terminator_not_white (c : code_unit) :
  isTerminator c = true -> isWhiteSpace c = false.
Proof.
  unfold isTerminator. rewrite !orb_true_iff, !N.eqb_eq.
  intros [[->| ->]| ->]; reflexivity.
Qed.

Lemma endsWithTerminator_kept (x : jsstring) :
  endsWithTerminator x -> nonEmpty (trim x) = true.
Proof.
  unfold endsWithTerminator. intros H.
  destruct (trim x) as [|a t] eqn:E; [|reflexivity]. exfalso.
  apply trim_nil_iff in E.
  apply (f_equal (@rev _)) in E. rewrite <- nonWhite_rev in E.
  destruct (rev x) as [|c r]; [exact H|].
  simpl in E. unfold nonWhite in E. simpl in E.
  rewrite (terminator_not_white c H) in E. discriminate.
Qed.

Lemma Forall_removelast_filter {A} (P : A -> Prop) (f : A -> bool)
    (l : list A) :
  (forall x, P x -> f x = true) ->
  Forall P (removelast l) -> Forall P (removelast (filter f l)).
Proof.
  intros Hf. induction l as [|x l IH]; [trivial|].
  destruct l as [|y l].
  - intros _. simpl. destruct (f x); constructor.
  - rewrite removelast_cons by discriminate. intros H.
    apply Forall_cons_iff in H as [Hx Hl]. cbn [filter].
    rewrite (Hf x Hx). specialize (IH Hl). cbn [filter] in IH.
    destruct (if f y then y :: filter f l else filter f l) as [|z r] eqn:E.
    + constructor.
    + rewrite removelast_cons by discriminate. now constructor.
Qed.

Lemma Forall_tl {A} (P : A -> Prop) (l : list A) :
  Forall P l -> Forall P (tl l).
Proof. destruct 1; [constructor|assumption]. Qed.

Lemma Forall_filter {A} (P : A -> Prop) (f : A -> bool) (l : list A) :
  Forall P l -> Forall P (filter f l).
Proof.
  intros H. apply Forall_forall. intros x Hx.
  apply filter_In in Hx as [Hx _]. revert x Hx. now apply Forall_forall.
Qed.

Lemma Forall_tl_filter {A} (P : A -> Prop) (f : A -> bool) (l : list A) :
  Forall P (tl l) -> Forall P (tl (filter f l)).
Proof.
  destruct l as [|x l]; [trivial|]. simpl. intros H.
  destruct (f x); [now apply Forall_filter|].
  now apply Forall_tl, Forall_filter.
Qed.

(** X5.  The sentences of [BasicSentenceTokenizer]: each has a code unit
    that is not whitespace; each but the last ends with [.], [!] or [?];
    each but the first begins with a code unit that is not whitespace (the
    whole whitespace run after the terminator is dropped); and together
    they hold the code units of the paragraph that are not whitespace, in
    order. *)
Theorem sentences_shape (text : jsstring) :
  let sentences := SentenceTokenizer.tokenize BasicSentenceTokenizer text in
  Forall (fun s => nonWhite s <> []) sentences /\
  Forall endsWithTerminator (removelast sentences) /\
  Forall startsClean (tl sentences) /\
  nonWhite (join sentences) = nonWhite text.
Proof.
  cbn zeta. simpl SentenceTokenizer.tokenize.
  assert (Hpieces :
    Forall endsWithTerminator (removelast (split re_sentence_end text)) /\
    Forall startsClean (tl (split re_sentence_end text))).
  { destruct text as [|c text].
    - simpl. split; constructor.
    - unfold split.
      destruct (proj2 (split_loop_sentences (c :: text)) [] [])
        as (Hend & Hstart & _); [now left|now left|]. now split. }
  destruct Hpieces as [Hend Hstart].
  split; [|split; [|split]].
  - apply Forall_forall. intros s Hs. apply filter_In in Hs as [_ Hs].
    intros H. apply trim_nil_iff in H. now rewrite H in Hs.
  - apply Forall_removelast_filter; [|exact Hend].
    apply endsWithTerminator_kept.
  - now apply Forall_tl_filter.
  - rewrite nonWhite_join_filter_trim.
    apply split_nonWhite, re_sentence_end_whiteOnly.
Qed.

(* ===================================================================== *)
(** * Further properties of the chunker *)
(* ===================================================================== *)

(** ** What a chunk is made of *)

Lemma last_nonempty_default {A} (x : A) (l : list A) (d d' : A) :
  last (x :: l) d = last (x :: l) d'.
Proof.
  revert x. induction l as [|y l IH]; intros x; [reflexivity|].
  change (last (y :: l) d = last (y :: l) d'). apply IH.
Qed.

Lemma carriesFrom_snoc (prev : list jsstring)
    (parts : list (list jsstring * list jsstring))
    (carry pending : list jsstring) :
  carriesFrom prev parts ->
  (exists dropped, last (map snd parts) prev = dropped ++ carry) ->
  carriesFrom prev (parts ++ [(carry, pending)]).
Proof.
  revert prev. induction parts as [|[c p] parts IH]; intros prev; simpl.
  - intros _ H. now split.
  - intros [Hc Hrest] H. split; [exact Hc|]. apply IH; [exact Hrest|].
    destruct parts as [|[c' p'] parts']; [exact H|].
    cbn [map snd] in *.
    now rewrite (last_nonempty_default p' (map snd parts') p prev).
Qed.

Section ChunkerTrace.

Variable this : SentenceChunker.

Hypothesis format_join :
  forall words, WordTokenizer.formatWords (wordTokenizer this) words
                = join words.

(** Between the words of a paragraph [lastBufWords] is, besides, a suffix of
    the new word tokens of the last part. *)
Lemma wordBody_traced (fuel : nat)
    (parts : list (list jsstring * list jsstring)) (seen : list jsstring)
    (st : Locals) (word : jsstring) (st' : Locals) :
  tracedBy this parts seen st ->
  (exists dropped, last (map snd parts) [] = dropped ++ lastBufWords st) ->
  wordBody this fuel st word = Some st' ->
  exists parts',
    tracedBy this parts' (seen ++ [word]) st' /\
    exists dropped, last (map snd parts') [] = dropped ++ lastBufWords st'.
Proof.
  intros (Hcs & Hseen & Hfit & Hcarry) [d0 Hlast]. unfold wordBody.
  destruct (_ >? maxChunkSize this)%Z.
  - destruct (pushChunk this fuel st) as [st1|] eqn:E; [|discriminate].
    destruct (pushChunk_inv this format_join _ _ _ E)
      as (r & d & Hd & Hr & ->).
    intros [= <-]. exists (parts ++ [(r, bufWords st)]).
    unfold tracedBy. cbn [chunks bufWords lastBufWords].
    split; [split; [|split; [|split]]|].
    + rewrite map_app, Hcs. reflexivity.
    + rewrite map_app, concat_app. simpl. rewrite app_nil_r, <- Hseen.
      reflexivity.
    + apply Forall_app. split; [exact Hfit|]. now repeat constructor.
    + apply carriesFrom_snoc; [exact Hcarry|].
      exists (d0 ++ d). now rewrite Hlast, Hd, app_assoc.
    + exists []. rewrite map_app. cbn [map snd]. now rewrite last_last.
  - intros [= <-]. exists parts.
    unfold tracedBy. cbn [chunks bufWords lastBufWords].
    split; [split; [|split; [|split]]|]; try assumption.
    + now rewrite app_assoc, Hseen.
    + now exists d0.
Qed.

Lemma words_traced (fuel : nat) (words : list jsstring) :
  forall (parts : list (list jsstring * list jsstring))
         (seen : list jsstring) (st st' : Locals),
    tracedBy this parts seen st ->
    (exists dropped, last (map snd parts) [] = dropped ++ lastBufWords st) ->
    forOf (wordBody this fuel) words st = Some st' ->
    exists parts',
      tracedBy this parts' (seen ++ words) st' /\
      exists dropped, last (map snd parts') [] = dropped ++ lastBufWords st'.
Proof.
  induction words as [|w words IH]; intros parts seen st st' Ht Hl; simpl.
  - intros [= <-]. exists parts. now rewrite app_nil_r.
  - destruct (wordBody this fuel st w) as [st1|] eqn:E; [|discriminate].
    destruct (wordBody_traced _ _ _ _ _ _ Ht Hl E) as (parts1 & Ht1 & Hl1).
    intros H. destruct (IH _ _ _ _ Ht1 Hl1 H) as (parts' & Ht' & Hl').
    exists parts'. rewrite <- app_assoc in Ht'. now split.
Qed.

Lemma paragraphBody_traced (fuel : nat)
    (parts : list (list jsstring * list jsstring)) (seen : list jsstring)
    (st : Locals) (paragraph : jsstring) (st' : Locals) :
  tracedBy this parts seen st -> bufWords st = [] ->
  paragraphBody this fuel st paragraph = Some st' ->
  bufWords st' = [] /\
  exists parts',
    tracedBy this parts' (seen ++ paragraphWords this paragraph) st'.
Proof.
  intros Ht Hbuf. rewrite paragraphBody_words.
  set (st0 := {| chunks := chunks st; bufWords := bufWords st;
                 lastBufWords := [] |}).
  destruct (forOf (wordBody this fuel) _ st0) as [st1|] eqn:E;
    [|discriminate].
  destruct (words_traced fuel (paragraphWords this paragraph) parts seen
              st0 st1) as (parts1 & Ht1 & Hl1).
  { exact Ht. }
  { exists (last (map snd parts) []). simpl. now rewrite app_nil_r. }
  { exact E. }
  destruct Ht1 as (Hcs & Hseen & Hfit & Hcarry). destruct Hl1 as [d0 Hlast].
  destruct (bufWords st1) as [|w ws] eqn:Ebuf; simpl.
  - intros [= <-]. split; [exact Ebuf|]. exists parts1.
    repeat split; try assumption. now rewrite Ebuf.
  - destruct (pushChunk this fuel st1) as [st2|] eqn:E2; [|discriminate].
    destruct (pushChunk_inv this format_join _ _ _ E2)
      as (r & d & Hd & Hr & ->).
    intros [= <-]. split; [reflexivity|].
    exists (parts1 ++ [(r, bufWords st1)]).
    unfold tracedBy. cbn [chunks bufWords lastBufWords].
    split; [|split; [|split]].
    + now rewrite map_app, Hcs.
    + rewrite map_app, concat_app. simpl. now rewrite !app_nil_r, Ebuf.
    + apply Forall_app. split; [exact Hfit|]. now repeat constructor.
    + apply carriesFrom_snoc; [exact Hcarry|].
      exists (d0 ++ d). now rewrite Hlast, Hd, app_assoc.
Qed.

Lemma paragraphs_traced (fuel : nat) (paragraphs : list jsstring) :
  forall (parts : list (list jsstring * list jsstring))
         (seen : list jsstring) (st st' : Locals),
    tracedBy this parts seen st -> bufWords st = [] ->
    forOf (paragraphBody this fuel) paragraphs st = Some st' ->
    bufWords st' = [] /\
    exists parts',
      tracedBy this parts'
        (seen ++ flat_map (paragraphWords this) paragraphs) st'.
Proof.
  induction paragraphs as [|p paragraphs IH]; intros parts seen st st' Ht Hb;
    simpl.
  - intros [= <-]. split; [exact Hb|]. exists parts. now rewrite app_nil_r.
  - destruct (paragraphBody this fuel st p) as [st1|] eqn:E; [|discriminate].
    destruct (paragraphBody_traced _ _ _ _ _ _ Ht Hb E) as (Hb1 & parts1 & Ht1).
    intros H. destruct (IH _ _ _ _ Ht1 Hb1 H) as (Hb' & parts' & Ht').
    split; [exact Hb'|]. exists parts'. now rewrite <- app_assoc in Ht'.
Qed.

End ChunkerTrace.

(** The parts of the chunks of a text. *)
Lemma chunk_overlap_structure_parts (this : SentenceChunker) (fuel : nat)
    (text : jsstring) (cs : list jsstring) :
  (forall words,
      WordTokenizer.formatWords (wordTokenizer this) words = join words) ->
  chunk this fuel text = Some cs ->
  exists parts,
    cs = map glue parts /\
    concat (map snd parts) = allWords this text /\
    Forall (fun part =>
              (Z.of_nat (length (join (fst part))) <= chunkOverlap this)%Z)
           parts /\
    carriesFrom [] parts.
Proof.
  intros Hjoin. unfold chunk.
  destruct (forOf (paragraphBody this fuel) _ _) as [st'|] eqn:E;
    [|discriminate].
  intros [= <-].
  destruct (paragraphs_traced this Hjoin fuel (paragraphTokenizer this text)
              [] []
              {| chunks := []; bufWords := []; lastBufWords := [] |} st')
    as (Hbuf & parts & Hcs & Hseen & Hfit & Hcarry).
  { repeat split; constructor. }
  { reflexivity. }
  { exact E. }
  exists parts. rewrite Hbuf, app_nil_r in Hseen. now repeat split.
Qed.

(** X6.  What the chunks are made of, for buffers formatted by
    concatenation: each chunk is an overlap followed by new word tokens; the
    new word tokens of all the chunks, end to end, are the word tokens of
    the text, so that none is lost and none comes twice as new; no overlap
    is longer than [chunkOverlap]; and each overlap is a suffix of the new
    word tokens of the chunk before (the first chunk has none). *)
Theorem chunk_overlap_structure (this : SentenceChunker) (fuel : nat)
    (text : jsstring) (cs : list jsstring) :
  (forall words,
      WordTokenizer.formatWords (wordTokenizer this) words = join words) ->
  chunk this fuel text = Some cs ->
  exists parts,
    cs = map glue parts /\
    concat (map snd parts) = allWords this text /\
    Forall (fun part =>
              (Z.of_nat (length (join (fst part))) <= chunkOverlap this)%Z)
           parts /\
    carriesFrom [] parts.
Proof. apply chunk_overlap_structure_parts. Qed.

Lemma chunk_overlap_structure_witness :
  exists parts,
    [str "This is sentence "; str " one.This is sentence"; str " two."]
    = map glue parts /\
    concat (map snd parts)
    = allWords (chunkerOfSizes 20 5)
        (str "This is sentence one. This is sentence two.") /\
    Forall (fun part => (Z.of_nat (length (join (fst part))) <= 5)%Z) parts /\
    carriesFrom [] parts.
Proof.
  assert (Hrun : chunk (chunkerOfSizes 20 5) 15
                   (str "This is sentence one. This is sentence two.")
                 = Some [str "This is sentence ";
                         str " one.This is sentence"; str " two."])
    by reflexivity.
  destruct (chunk_overlap_structure (chunkerOfSizes 20 5) 15
              (str "This is sentence one. This is sentence two.") _
              (fun words => eq_refl) Hrun)
    as (parts & Hcs & Hwords & Hfit & Hcarry).
  exists parts. repeat split; assumption.
Defined.

(** ** No overlap: the chunks are the text *)

Lemma join_concat (l : list (list jsstring)) :
  join (concat l) = join (map join l).
Proof.
  induction l as [|x l IH]; [reflexivity|].
  simpl concat. rewrite join_app, IH. reflexivity.
Qed.

Lemma length_zero_nil {A} (l : list A) :
  (Z.of_nat (length l) <= 0)%Z -> l = [].
Proof. destruct l; [reflexivity|simpl; lia]. Qed.

(** X7.  With [chunkOverlap = 0] (buffers formatted by concatenation) the
    chunks, put end to end, are the word tokens of the text put end to end:
    the chunks cut the text of the tokens without losing or repeating
    anything. *)
Theorem chunk_zero_overlap_partition (this : SentenceChunker) (fuel : nat)
    (text : jsstring) (cs : list jsstring) :
  (forall words,
      WordTokenizer.formatWords (wordTokenizer this) words = join words) ->
  chunkOverlap this = 0%Z ->
  chunk this fuel text = Some cs ->
  join cs = join (allWords this text).
Proof.
  intros Hjoin Hzero Hrun.
  destruct (chunk_overlap_structure_parts this fuel text cs Hjoin Hrun)
    as (parts & -> & <- & Hfit & _).
  rewrite join_concat, map_map. f_equal.
  apply map_ext_in. intros [carry pending] Hin.
  apply (proj1 (Forall_forall _ _) Hfit) in Hin. cbn [fst snd] in *.
  rewrite Hzero in Hin. apply length_zero_nil in Hin.
  unfold glue. cbn [fst snd]. now rewrite join_app, Hin.
Qed.

Lemma chunk_zero_overlap_partition_witness :
  join [str "aa bb"; str " cc "; str "dd"] = str "aa bb cc dd".
Proof.
  exact (chunk_zero_overlap_partition (chunkerOfSizes 5 0) 8
           (str "aa bb cc dd") [str "aa bb"; str " cc "; str "dd"]
           (fun words => eq_refl) eq_refl eq_refl).
Defined.

(** ** The default tokenizers keep what is not whitespace *)

Lemma join_flat_map {A} (f : A -> list jsstring) (l : list A) :
  join (flat_map f l) = join (map (fun a => join (f a)) l).
Proof.
  induction l as [|a l IH]; [reflexivity|].
  simpl flat_map. rewrite join_app, IH. reflexivity.
Qed.

Lemma nonWhite_join_map (g : jsstring -> jsstring) (l : list jsstring) :
  (forall s, nonWhite (g s) = nonWhite s) ->
  nonWhite (join (map g l)) = nonWhite (join l).
Proof.
  intros Hg. induction l as [|s l IH]; [reflexivity|]. simpl map.
  now rewrite !nonWhite_join_cons, Hg, IH.
Qed.

Lemma allWords_default_content (maxSize overlap : Z) (text : jsstring) :
  nonWhite (join (allWords (chunkerOfSizes maxSize overlap) text))
  = nonWhite text.
Proof.
  unfold allWords, paragraphWords. cbn [chunkerOfSizes new_SentenceChunker
    paragraphTokenizer sentenceTokenizer wordTokenizer nullish
    opt_paragraphTokenizer opt_sentenceTokenizer opt_wordTokenizer].
  rewrite join_flat_map.
  rewrite <- (proj1 (tokenizeParagraphs_content text)).
  apply nonWhite_join_map. intros p.
  rewrite join_flat_map.
  rewrite (map_ext _ (fun s => s)).
  2:{ intros s. cbn. rewrite join_filter_nonEmpty.
      apply split_ws_capture_join. }
  rewrite map_id. cbn.
  rewrite nonWhite_join_filter_trim.
  apply split_nonWhite, re_sentence_end_whiteOnly.
Qed.

(** X8.  With the default tokenizers and [chunkOverlap = 0], whatever
    [maxChunkSize] is, [chunk] returns, and its chunks put end to end hold
    the code units of the text that are not whitespace, all of them and in
    their order: only whitespace (between sentences and paragraphs, and
    around the text) is lost. *)
Theorem chunk_default_keeps_content (maxSize : Z) (text : jsstring) :
  exists cs,
    (forall fuel,
        (length (allWords (chunkerOfSizes maxSize 0) text) < fuel)%nat ->
        chunk (chunkerOfSizes maxSize 0) fuel text = Some cs) /\
    nonWhite (join cs) = nonWhite text.
Proof.
  destruct (chunk_total (chunkerOfSizes maxSize 0) eq_refl
              (S (length (allWords (chunkerOfSizes maxSize 0) text))) text
              ltac:(simpl; lia) (Nat.lt_succ_diag_r _)) as [cs Hcs].
  exists cs. split.
  - intros fuel Hfuel.
    apply chunk_mono
      with (fuel := S (length (allWords (chunkerOfSizes maxSize 0) text)));
      [lia|exact Hcs].
  - destruct (chunk_overlap_structure_parts (chunkerOfSizes maxSize 0) _ _ _
                (fun words => eq_refl) Hcs)
      as (parts & -> & Hwords & Hfit & _).
    rewrite <- (allWords_default_content maxSize 0 text), <- Hwords.
    rewrite join_concat, map_map. f_equal. f_equal.
    apply map_ext_in. intros [carry pending] Hin.
    apply (proj1 (Forall_forall _ _) Hfit) in Hin. cbn [fst snd] in *.
    apply length_zero_nil in Hin.
    unfold glue. cbn [fst snd]. now rewrite join_app, Hin.
Qed.

(** ** Texts without a word *)

Lemma paragraphs_no_words (this : SentenceChunker) (fuel : nat)
    (paragraphs : list jsstring) (st : Locals) :
  flat_map (paragraphWords this) paragraphs = [] ->
  bufWords st = [] ->
  exists st', forOf (paragraphBody this fuel) paragraphs st = Some st' /\
              chunks st' = chunks st /\ bufWords st' = [].
Proof.
  revert st. induction paragraphs as [|p paragraphs IH]; intros st Hw Hb;
    simpl in *.
  - now exists st.
  - apply app_eq_nil in Hw as [Hp Hrest].
    rewrite paragraphBody_words, Hp. simpl forOf. cbn [bufWords].
    rewrite Hb. simpl.
    destruct (IH {| chunks := chunks st; bufWords := [];
                    lastBufWords := [] |} Hrest eq_refl)
      as (st' & Hrun & Hcs & Hb').
    exists st'. now split.
Qed.

(** X9.  With the default tokenizers, whatever the two sizes are,
    [chunk(text)] is the empty array exactly when [text.trim()] is empty;
    on such a text it returns for a negative [chunkOverlap] too. *)
Theorem chunk_empty_iff_blank (maxSize overlap : Z) (text : jsstring) :
  (trim text = [] ->
   forall fuel, chunk (chunkerOfSizes maxSize overlap) fuel text = Some []) /\
  (forall fuel,
      chunk (chunkerOfSizes maxSize overlap) fuel text = Some [] ->
      trim text = []).
Proof.
  split.
  - intros Hblank fuel.
    assert (Hp : tokenizeParagraphs text = [])
      by now apply (proj2 (tokenizeParagraphs_content text)).
    unfold chunk.
    destruct (paragraphs_no_words (chunkerOfSizes maxSize overlap) fuel
                (paragraphTokenizer (chunkerOfSizes maxSize overlap) text)
                {| chunks := []; bufWords := []; lastBufWords := [] |})
      as (st' & -> & Hcs & _); [|reflexivity|now rewrite Hcs].
    change (paragraphTokenizer (chunkerOfSizes maxSize overlap) text)
      with (tokenizeParagraphs text).
    now rewrite Hp.
  - intros fuel Hrun.
    destruct (chunk_overlap_structure_parts
                (chunkerOfSizes maxSize overlap) _ _ _
                (fun words => eq_refl) Hrun) as (parts & Hcs & Hwords & _).
    symmetry in Hcs. apply map_eq_nil in Hcs. subst parts.
    apply trim_nil_iff.
    rewrite <- (allWords_default_content maxSize overlap text), <- Hwords.
    reflexivity.
Qed.

Lemma chunk_empty_iff_blank_witness :
  chunk (chunkerOfSizes 20 (-1)) 0 (str "  " ++ [10; 9; 10]%N) = Some [].
Proof.
  exact (proj1 (chunk_empty_iff_blank 20 (-1) (str "  " ++ [10; 9; 10]%N))
           eq_refl 0%nat).
Defined.

Lemma chunk_default_keeps_content_witness :
  exists cs,
    chunk (chunkerOfSizes 5 0) 7 (str " aa bb.  cc dd ") = Some cs /\
    nonWhite (join cs) = str "aabb.ccdd".
Proof.
  destruct (chunk_default_keeps_content 5 (str " aa bb.  cc dd "))
    as (cs & Hrun & Hcontent).
  exists cs. split; [apply Hrun; vm_compute; constructor|exact Hcontent].
Defined.

(** ** Paragraphs are chunked one by one *)

Section ParagraphsApart.

Variable this : SentenceChunker.

Lemma trimLoop_oneParagraph (fuel : nat) (last : list jsstring) :
  trimLoop (oneParagraph this) fuel last = trimLoop this fuel last.
Proof.
  revert last. induction fuel as [|fuel IH]; intros last; [reflexivity|].
  simpl. now rewrite IH.
Qed.

Lemma paragraphBody_oneParagraph (fuel : nat) (st : Locals)
    (paragraph : jsstring) :
  paragraphBody (oneParagraph this) fuel st paragraph
  = paragraphBody this fuel st paragraph.
Proof.
  assert (Hpush : forall s, pushChunk (oneParagraph this) fuel s
                            = pushChunk this fuel s).
  { intros s. unfold pushChunk. now rewrite trimLoop_oneParagraph. }
  assert (Hword : forall s w, wordBody (oneParagraph this) fuel s w
                              = wordBody this fuel s w).
  { intros s w. unfold wordBody. now rewrite Hpush. }
  rewrite !paragraphBody_words.
  change (paragraphWords (oneParagraph this) paragraph)
    with (paragraphWords this paragraph).
  assert (Hloop : forall l s, forOf (wordBody (oneParagraph this) fuel) l s
                              = forOf (wordBody this fuel) l s).
  { induction l as [|w l IH]; intros s; simpl; [reflexivity|].
    rewrite Hword. destruct (wordBody this fuel s w); [apply IH|reflexivity]. }
  rewrite Hloop.
  destruct (forOf (wordBody this fuel) _ _) as [st1|]; [|reflexivity].
  now rewrite Hpush.
Qed.

(** The chunks pushed earlier are only carried along. *)
Lemma pushChunk_withChunksBefore (fuel : nat) (before : list jsstring)
    (st : Locals) :
  pushChunk this fuel (withChunksBefore before st)
  = option_map (withChunksBefore before) (pushChunk this fuel st).
Proof.
  unfold pushChunk. cbn [withChunksBefore lastBufWords bufWords chunks].
  destruct (trimLoop this fuel (lastBufWords st)); [|reflexivity].
  simpl. unfold withChunksBefore. simpl. now rewrite app_assoc.
Qed.

Lemma wordBody_withChunksBefore (fuel : nat) (before : list jsstring)
    (st : Locals) (word : jsstring) :
  wordBody this fuel (withChunksBefore before st) word
  = option_map (withChunksBefore before) (wordBody this fuel st word).
Proof.
  unfold wordBody. rewrite pushChunk_withChunksBefore.
  cbn [withChunksBefore bufWords].
  destruct (_ >? maxChunkSize this)%Z.
  - destruct (pushChunk this fuel st); reflexivity.
  - reflexivity.
Qed.

Lemma words_withChunksBefore (fuel : nat) (before : list jsstring)
    (words : list jsstring) (st : Locals) :
  forOf (wordBody this fuel) words (withChunksBefore before st)
  = option_map (withChunksBefore before)
      (forOf (wordBody this fuel) words st).
Proof.
  revert st. induction words as [|w words IH]; intros st; simpl;
    [reflexivity|].
  rewrite wordBody_withChunksBefore.
  destruct (wordBody this fuel st w); simpl; [apply IH|reflexivity].
Qed.

(** With an empty [bufWords], the body of the loop over the paragraphs does
    what it does on the first paragraph of a text, after the chunks that
    are there. *)
Lemma paragraphBody_apart (fuel : nat) (st : Locals) (paragraph : jsstring) :
  bufWords st = [] ->
  paragraphBody this fuel st paragraph
  = option_map (withChunksBefore (chunks st))
      (paragraphBody this fuel
         {| chunks := []; bufWords := []; lastBufWords := [] |} paragraph).
Proof.
  intros Hbuf. rewrite !paragraphBody_words. cbn [chunks bufWords].
  rewrite Hbuf.
  replace {| chunks := chunks st; bufWords := []; lastBufWords := [] |}
    with (withChunksBefore (chunks st)
            {| chunks := []; bufWords := []; lastBufWords := [] |}).
  2:{ unfold withChunksBefore. cbn. now rewrite app_nil_r. }
  rewrite words_withChunksBefore.
  destruct (forOf (wordBody this fuel) _ _) as [st1|]; [|reflexivity].
  cbn [option_map withChunksBefore bufWords].
  destruct (0 <? length (bufWords st1))%nat; [|reflexivity].
  fold (withChunksBefore (chunks st) st1).
  rewrite pushChunk_withChunksBefore.
  destruct (pushChunk this fuel st1) as [st2|]; reflexivity.
Qed.

Lemma paragraphBody_empties (fuel : nat) (st : Locals) (paragraph : jsstring)
    (st' : Locals) :
  paragraphBody this fuel st paragraph = Some st' -> bufWords st' = [].
Proof.
  rewrite paragraphBody_words.
  destruct (forOf (wordBody this fuel) _ _) as [st1|]; [|discriminate].
  destruct (bufWords st1) as [|w ws] eqn:E; simpl.
  - now intros [= <-].
  - destruct (pushChunk this fuel st1); [|discriminate]. now intros [= <-].
Qed.

Lemma chunk_oneParagraph (fuel : nat) (paragraph : jsstring) :
  chunk (oneParagraph this) fuel paragraph
  = option_map chunks
      (paragraphBody this fuel
         {| chunks := []; bufWords := []; lastBufWords := [] |} paragraph).
Proof.
  unfold chunk. cbn [oneParagraph paragraphTokenizer forOf].
  rewrite paragraphBody_oneParagraph.
  now destruct (paragraphBody this fuel _ paragraph).
Qed.

Lemma paragraphs_apart (fuel : nat) (paragraphs : list jsstring) :
  forall st st',
    bufWords st = [] ->
    forOf (paragraphBody this fuel) paragraphs st = Some st' ->
    exists css,
      Forall2 (fun p c => chunk (oneParagraph this) fuel p = Some c)
              paragraphs css /\
      chunks st' = chunks st ++ concat css.
Proof.
  induction paragraphs as [|p paragraphs IH]; intros st st' Hbuf; simpl.
  - intros [= <-]. exists []. split; [constructor|]. now rewrite app_nil_r.
  - rewrite (paragraphBody_apart fuel st p Hbuf).
    pose proof (chunk_oneParagraph fuel p) as Hone.
    pose proof (paragraphBody_empties fuel
                  {| chunks := []; bufWords := []; lastBufWords := [] |} p)
      as Hempties.
    destruct (paragraphBody this fuel _ p) as [s1|]; [|discriminate].
    pose proof (Hempties s1 eq_refl) as Hb1.
    cbn [option_map]. intros H.
    destruct (IH (withChunksBefore (chunks st) s1) st' Hb1 H)
      as (css & Hall & Hcs).
    exists (chunks s1 :: css). split; [now constructor|].
    rewrite Hcs. cbn. now rewrite app_assoc.
Qed.

End ParagraphsApart.

(** X10.  Paragraphs are chunked one by one: when [chunk(text)] returns,
    its array is, in the order of the paragraphs, the chunks the same
    chunker makes of each paragraph taken as a text of its own.  No overlap
    and no pending word goes from a paragraph to the next. *)
Theorem chunk_paragraphs_apart (this : SentenceChunker) (fuel : nat)
    (text : jsstring) (cs : list jsstring) :
  chunk this fuel text = Some cs ->
  exists css,
    Forall2 (fun p c => chunk (oneParagraph this) fuel p = Some c)
            (paragraphTokenizer this text) css /\
    cs = concat css.
Proof.
  unfold chunk at 1.
  destruct (forOf (paragraphBody this fuel) _ _) as [st'|] eqn:E;
    [|discriminate].
  intros [= <-].
  destruct (paragraphs_apart this fuel (paragraphTokenizer this text)
              {| chunks := []; bufWords := []; lastBufWords := [] |} st'
              eq_refl E) as (css & Hall & Hcs).
  exists css. split; [exact Hall|exact Hcs].
Qed.

Lemma chunk_paragraphs_apart_witness :
  exists css,
    Forall2 (fun p c => chunk (oneParagraph (chunkerOfSizes 5 5)) 8 p = Some c)
            [str "aa bb cc"; str "dd ee"] css /\
    [str "aa bb"; str "aa bb cc"; str "dd ee"] = concat css.
Proof.
  exact (chunk_paragraphs_apart (chunkerOfSizes 5 5) 8
           (str "aa bb cc" ++ [10; 10]%N ++ str "dd ee")
           [str "aa bb"; str "aa bb cc"; str "dd ee"] eq_refl).
Defined.

(* ===================================================================== *)
(** * Further properties of the ingestion pipeline *)
(* ===================================================================== *)

Section PipelineMore.

Variable number : Type.
Variable env : Env number.

Local Abbreviation World := (World number).
Local Abbreviation Frame := (Frame number).
Local Abbreviation RAGDocument := (RAGDocument number).

(** ** When [getCollection] raises *)

Lemma connectToDatabase_result (w : World) :
  connectToDatabase env w
  = if connected w then (Ok tt, w)
    else match storeFault env (storeOps w) with
         | Some e =>
             (Throw e,
              setLog (log w ++ [(LogError, str "MongoDB connection error:")])
                (setStoreOps (S (storeOps w)) w))
         | None =>
             (Ok tt,
              setLog
                (log w ++
                 [(LogInfo,
                   str "Connected to MongoDB with connection pooling enabled");
                  (LogInfo,
                   str "Connection pool: min="
                     ++ Number_toString (fst (poolSizes env))
                     ++ str ", max=" ++ Number_toString (snd (poolSizes env)))])
                (setConnected true (setStoreOps (S (storeOps w)) w)))
         end.
Proof.
  unfold connectToDatabase. cbv [bind get].
  destruct (connected w) eqn:E; [reflexivity|].
  cbv [tryCatch bind storeOp get modify logger ret throw].
  destruct (storeFault env (storeOps w)); [reflexivity|].
  unfold setLog, setConnected, setStoreOps. simpl.
  now rewrite <- app_assoc.
Qed.

Lemma getCollection_result (this : RAGBuilder) (w : World) :
  fst (getCollection env this w)
  = if connected w then Ok tt
    else match storeFault env (storeOps w) with
         | Some e => Throw e
         | None => Ok tt
         end.
Proof.
  unfold getCollection. cbv [bind]. rewrite connectToDatabase_result.
  assert (Hrest : forall w1, connected w1 = true ->
    fst (let (r, s') := getClient w1 in
         match r with
         | Ok _ =>
             tryCatch
               (indexNames <- listIndexes env;;
                ensureIndex env indexNames (str "uuid_1");;
                ensureIndex env indexNames (str "uid_1");;
                ensureIndex env indexNames (str "created_at_-1");;
                ensureIndex env indexNames (str "uid_1_created_at_-1"))%exec
               (fun error =>
                  logger LogWarn
                    (str "Could not create indexes: " ++ exn_toString error))
               s'
         | Throw e => (Throw e, s')
         end) = Ok tt).
  { intros w1 Hc. cbv [getClient bind get]. rewrite Hc. cbv [ret tryCatch].
    match goal with
    | |- fst (match ?c with _ => _ end) = _ =>
        destruct c as [[[]|e] w2]; reflexivity
    end. }
  destruct (connected w) eqn:E.
  - now apply Hrest.
  - destruct (storeFault env (storeOps w)); [reflexivity|].
    now apply Hrest.
Qed.

(** X11.  [getCollection] raises only when the connection has to be made
    and cannot: with the connection there it never raises, and a failure to
    list or to create the indexes is never raised.  Whatever happens, it
    leaves the records, the batches given to [insertMany] and the counts of
    the embedding requests, identifiers and clock reads as they were. *)
Theorem getCollection_raises_only_on_connect (this : RAGBuilder) (w : World) :
  fst (getCollection env this w)
  = (if connected w then Ok tt
     else match storeFault env (storeOps w) with
          | Some e => Throw e
          | None => Ok tt
          end) /\
  sameRecords w (snd (getCollection env this w)).
Proof.
  split; [apply getCollection_result|apply getCollection_sameRecords].
Qed.

(** ** The indexes *)

Lemma includesName_spec (names : list jsstring) (n : jsstring) :
  includesName names n = true <-> In n names.
Proof.
  unfold includesName. rewrite existsb_exists. split.
  - intros (x & Hx & E). apply jsstring_eqb_spec in E. now subst.
  - intros H. exists n. split; [exact H|]. now apply jsstring_eqb_spec.
Qed.

Lemma storeOp_run (w : World) :
  storeFault env (storeOps w) = None ->
  storeOp env w = (Ok (storeOps w), setStoreOps (S (storeOps w)) w).
Proof. intros H. cbv [storeOp bind get modify ret throw]. now rewrite H. Qed.

Lemma ensureIndex_run (names : list jsstring) (n : jsstring) (w : World) :
  (forall k, storeFault env k = None) ->
  ensureIndex env names n w
  = (Ok tt,
     if includesName names n then w
     else setIndexes (indexes w ++ [n]) (setStoreOps (S (storeOps w)) w)).
Proof.
  intros H. unfold ensureIndex. destruct (includesName names n); simpl;
    [reflexivity|].
  unfold createIndex. cbv [bind]. rewrite storeOp_run by apply H.
  reflexivity.
Qed.

(** The world after [getCollection], when no operation on the database
    fails: the indexes that were missing are added, in the order of
    [requiredIndexes]. *)
Lemma getCollection_healthy_state (this : RAGBuilder) (w : World) :
  (forall k, storeFault env k = None) ->
  let added :=
    filter (fun n => negb (includesName (indexes w) n)) requiredIndexes in
  let w' := snd (getCollection env this w) in
  indexes w' = indexes w ++ added /\
  connected w' = true /\
  storeOps w'
  = ((if connected w then 0 else 1) + S (storeOps w) + length added)%nat.
Proof.
  intros H. cbv zeta.
  assert (Hboot : forall w1, connected w1 = true ->
    let w' := snd ((@getClient number;;
                    tryCatch
                      (indexNames <- listIndexes env;;
                       ensureIndex env indexNames (str "uuid_1");;
                       ensureIndex env indexNames (str "uid_1");;
                       ensureIndex env indexNames (str "created_at_-1");;
                       ensureIndex env indexNames
                         (str "uid_1_created_at_-1"))%exec
                      (fun error =>
                         logger LogWarn
                           (str "Could not create indexes: "
                              ++ exn_toString error)))%exec w1) in
    indexes w' = indexes w1 ++
                 filter (fun n => negb (includesName (indexes w1) n))
                        requiredIndexes /\
    connected w' = true /\
    storeOps w'
    = (S (storeOps w1) +
       length (filter (fun n => negb (includesName (indexes w1) n))
                      requiredIndexes))%nat).
  { intros w1 Hc. cbv zeta. cbv [bind getClient get]. rewrite Hc.
    cbv [ret tryCatch listIndexes bind get].
    rewrite storeOp_run by apply H.
    rewrite !ensureIndex_run by apply H.
    cbn [indexes setStoreOps fst snd requiredIndexes filter].
    destruct (includesName (indexes w1) (str "uuid_1"));
      destruct (includesName (indexes w1) (str "uid_1"));
      destruct (includesName (indexes w1) (str "created_at_-1"));
      destruct (includesName (indexes w1) (str "uid_1_created_at_-1"));
      cbn; rewrite <- ?app_assoc; cbn; rewrite ?app_nil_r;
      (split; [reflexivity|split; [exact Hc|lia]]). }
  unfold getCollection. cbv [bind] in *.
  rewrite connectToDatabase_result.
  destruct (connected w) eqn:E.
  - destruct (Hboot w E) as (Hi & Hco & Hs). cbv [bind] in Hi, Hco, Hs.
    split; [exact Hi|]. split; [exact Hco|]. rewrite Hs. reflexivity.
  - rewrite H.
    set (w1 := setLog _ _).
    destruct (Hboot w1 eq_refl) as (Hi & Hco & Hs).
    cbv [bind] in Hi, Hco, Hs.
    split; [exact Hi|]. split; [exact Hco|]. rewrite Hs.
    unfold w1. reflexivity.
Qed.

(** X12.  When no operation on the database fails, [getCollection] leaves
    the connection made and the four indexes there: it creates those that
    were missing, each once, and keeps the others.  A second call creates
    nothing: its one operation on the database is the listing. *)
Theorem getCollection_indexes (this : RAGBuilder) (w : World) :
  (forall k, storeFault env k = None) ->
  let w1 := snd (getCollection env this w) in
  let w2 := snd (getCollection env this w1) in
  connected w1 = true /\
  (forall n, In n requiredIndexes -> In n (indexes w1)) /\
  (exists added,
      indexes w1 = indexes w ++ added /\ NoDup added /\
      forall n, In n added <-> In n requiredIndexes /\ ~ In n (indexes w)) /\
  indexes w2 = indexes w1 /\
  storeOps w2 = S (storeOps w1).
Proof.
  intros H. cbv zeta.
  destruct (getCollection_healthy_state this w H) as (Hi & Hc & _).
  cbv zeta in Hi, Hc.
  assert (Hall : forall n, In n requiredIndexes ->
                   In n (indexes (snd (getCollection env this w)))).
  { intros n Hn. rewrite Hi. apply in_or_app.
    destruct (includesName (indexes w) n) eqn:E.
    - left. now apply includesName_spec.
    - right. apply filter_In. split; [exact Hn|]. now rewrite E. }
  split; [exact Hc|]. split; [exact Hall|]. split.
  - eexists. split; [exact Hi|]. split.
    + apply NoDup_filter. unfold requiredIndexes.
      repeat constructor; simpl; intuition discriminate.
    + intros n. rewrite filter_In, negb_true_iff.
      rewrite <- (includesName_spec (indexes w) n).
      destruct (includesName (indexes w) n); intuition congruence.
  - destruct (getCollection_healthy_state this
                (snd (getCollection env this w)) H) as (Hi2 & _ & Hs2).
    cbv zeta in Hi2, Hs2. rewrite Hc in Hs2.
    assert (Hnone : filter (fun n => negb (includesName
                      (indexes (snd (getCollection env this w))) n))
                      requiredIndexes = []).
    { assert (F : forall l, (forall n, In n l ->
                    In n (indexes (snd (getCollection env this w)))) ->
                  filter (fun n => negb (includesName
                    (indexes (snd (getCollection env this w))) n)) l = []).
      { induction l as [|n l IH]; intros Hl; [reflexivity|]. simpl.
        rewrite (proj2 (includesName_spec _ n) (Hl n (or_introl eq_refl))).
        simpl. apply IH. intros m Hm. apply Hl. now right. }
      now apply F. }
    rewrite Hnone in Hi2, Hs2. rewrite app_nil_r in Hi2.
    split; [exact Hi2|]. rewrite Hs2. simpl. now rewrite Nat.add_0_r.
Qed.

(** ** What [buildFromTexts] raises *)

(** Whatever fails for a text, the embedding request or the insertion of a
    full buffer, is caught and logged. *)
Lemma buildBody_never_throws (this : RAGBuilder) (showProgress : bool)
    (idx : nat) (text : jsstring) (f : Frame) :
  fst (buildBody env this showProgress idx text f) = Ok tt.
Proof.
  unfold buildBody, tryCatch.
  match goal with
  | |- fst (match ?c with _ => _ end) = _ =>
      destruct c as [[[]|e] f']; reflexivity
  end.
Qed.

Lemma forIdx_never_throws (this : RAGBuilder) (showProgress : bool)
    (texts : list jsstring) :
  forall idx f,
    fst (forIdx (buildBody env this showProgress) idx texts f) = Ok tt.
Proof.
  induction texts as [|text texts IH]; intros idx f; [reflexivity|].
  cbn [forIdx]. unfold bind.
  pose proof (buildBody_never_throws this showProgress idx text f) as H.
  destruct (buildBody env this showProgress idx text f) as [[[]|e] f1];
    [apply IH|discriminate].
Qed.


(** ** One embedding request for each valid text *)

Lemma buildBody_requests (this : RAGBuilder) (showProgress : bool)
    (idx : nat) (text : jsstring) (f : Frame) :
  embeddingRequests (world (snd (buildBody env this showProgress idx text f)))
  = S (embeddingRequests (world f)).
Proof.
  destruct f as [w docs n]. run.
  destruct (embeddings_create env (embeddingRequests w) text
              (embeddingsModel this) (embeddingsDimension this)) as [v|e];
    [|reflexivity].
  fields.
  destruct (100 <=? length _)%nat; [|reflexivity].
  fields.
  destruct (storeFault env (storeOps w)); [reflexivity|].
  destruct (existsb _ _); reflexivity.
Qed.

Lemma forIdx_requests (this : RAGBuilder) (showProgress : bool)
    (texts : list jsstring) :
  forall idx f,
    embeddingRequests
      (world (snd (forIdx (buildBody env this showProgress) idx texts f)))
    = (embeddingRequests (world f) + length texts)%nat.
Proof.
  induction texts as [|text texts IH]; intros idx f; simpl;
    [now rewrite Nat.add_0_r|].
  unfold bind.
  pose proof (buildBody_never_throws this showProgress idx text f) as Hok.
  pose proof (buildBody_requests this showProgress idx text f) as Hreq.
  destruct (buildBody env this showProgress idx text f) as [[[]|e] f1];
    [|discriminate].
  cbn [snd] in Hreq. rewrite IH, Hreq. lia.
Qed.

Lemma insertMany_requests (batch : list RAGDocument) (w : World) :
  embeddingRequests (snd (insertMany env batch w)) = embeddingRequests w.
Proof.
  cbv [insertMany bind modify storeOp get ret throw]. fields.
  destruct (storeFault env (storeOps w)); [reflexivity|].
  destruct (existsb _ _); reflexivity.
Qed.

(** X14.  When the connection is there or can be made, [buildFromTexts]
    sends one embedding request for each text that is not empty once
    trimmed, and none for the others, whatever the answers are and whatever
    the database does afterwards. *)
Theorem buildFromTexts_requests (this : RAGBuilder) (texts : list jsstring)
    (showProgress : bool) (w : World) :
  connected w = true \/ storeFault env (storeOps w) = None ->
  embeddingRequests (snd (buildFromTexts env this texts showProgress w))
  = (embeddingRequests w + length (filter validText texts))%nat.
Proof.
  intros Hconn. unfold buildFromTexts. cbv [bind withLocals].
  pose proof (getCollection_result this w) as Hres.
  destruct (getCollection_sameRecords number env this w) as (_ & _ & Hreq & _).
  destruct (getCollection env this w) as [[[]|e0] w0]; cbn [fst snd] in *.
  - pose proof (forIdx_requests this showProgress (filter validText texts) 0
                  {| world := w0; documents := []; processed := 0 |}) as Hloop.
    pose proof (forIdx_never_throws this showProgress
                  (filter validText texts) 0
                  {| world := w0; documents := []; processed := 0 |}) as Hok.
    destruct (forIdx _ _ _ _) as [[[]|e1] [w1 docs n]]; [|discriminate].
    cbn [snd world] in Hloop. cbv [get inWorld ret].
    cbn [world documents processed].
    destruct (0 <? length docs)%nat.
    + pose proof (insertMany_requests docs w1) as Hins. simpl.
      destruct (insertMany env docs w1) as [r w2]. simpl in *.
      now rewrite Hins, Hloop, Hreq.
    + cbn [snd world]. now rewrite Hloop, Hreq.
  - exfalso. destruct Hconn as [Hc|Hf].
    + rewrite Hc in Hres. discriminate.
    + rewrite Hf in Hres. now destruct (connected w).
Qed.

(** X15.  On texts that are all empty once trimmed (the empty array too),
    [buildFromTexts] does what [getCollection] does and nothing else. *)
Theorem buildFromTexts_blank (this : RAGBuilder) (texts : list jsstring)
    (showProgress : bool) (w : World) :
  forallb (fun text => negb (validText text)) texts = true ->
  buildFromTexts env this texts showProgress w = getCollection env this w.
Proof.
  intros Hblank.
  assert (Hnone : filter validText texts = []).
  { induction texts as [|t texts IH]; [reflexivity|]. simpl in *.
    apply andb_true_iff in Hblank as [Ht Hrest].
    apply negb_true_iff in Ht. rewrite Ht. now apply IH. }
  unfold buildFromTexts. cbv [bind withLocals]. rewrite Hnone.
  destruct (getCollection env this w) as [[[]|e] w0]; reflexivity.
Qed.

(** ** The records *)

Lemma preserves_forIdx_nth {St A} (I : St -> Prop)
    (body : nat -> A -> M St unit) (l : list A) :
  forall idx0,
    (forall i a, nth_error l i = Some a -> preserves I (body (idx0 + i)%nat a)) ->
    preserves I (forIdx body idx0 l).
Proof.
  induction l as [|a l IH]; intros idx0 Hbody; simpl.
  - apply preserves_ret.
  - apply preserves_bind.
    + specialize (Hbody 0%nat a eq_refl). now rewrite Nat.add_0_r in Hbody.
    + intros _. apply IH. intros i a' Ha'.
      specialize (Hbody (S i) a' Ha'). now rewrite Nat.add_succ_r in Hbody.
Qed.

Section Records.

Variable P : RAGDocument -> Prop.
Variable calls : list (list RAGDocument).
Variable stored : list RAGDocument.

Lemma onlyRecords_insert (batch kept : list RAGDocument) (w w' : World) :
  onlyRecords P calls stored w -> Forall P batch ->
  insertManyCalls w' = insertManyCalls w ++ [batch] ->
  collection w' = collection w ++ kept ->
  (forall d, In d kept -> In d batch) ->
  onlyRecords P calls stored w'.
Proof.
  intros [(new & Hnew & Hb) (recs & Hrecs & Hr)] Hbatch Hcalls Hcol Hkept.
  split.
  - exists (new ++ [batch]). split; [now rewrite Hcalls, Hnew, app_assoc|].
    intros b d Hin Hd. apply in_app_or in Hin as [Hin|[<-|[]]].
    + now apply (Hb b).
    + revert d Hd. now apply Forall_forall.
  - exists (recs ++ kept). split; [now rewrite Hcol, Hrecs, app_assoc|].
    apply Forall_app. split; [exact Hr|]. apply Forall_forall.
    intros d Hd. apply Hkept in Hd. revert d Hd. now apply Forall_forall.
Qed.

Lemma buildBody_onlyRecords (this : RAGBuilder) (showProgress : bool)
    (idx : nat) (text : jsstring) :
  (forall v u t, P (newDocument this idx text v u t)) ->
  preserves (onlyRecordsIn P calls stored)
    (buildBody env this showProgress idx text).
Proof.
  intros Hnew [w docs n] [Hw Hd]. unfold onlyRecordsIn in *.
  cbn [world documents] in *. run.
  destruct (embeddings_create env (embeddingRequests w) text
              (embeddingsModel this) (embeddingsDimension this)) as [v|e].
  2:{ split; [exact Hw|exact Hd]. }
  fields.
  set (d := newDocument this idx text v _ _).
  assert (Hd' : Forall P (docs ++ [d])).
  { apply Forall_app. split; [exact Hd|]. constructor; [apply Hnew|constructor]. }
  destruct (100 <=? length (docs ++ [d]))%nat.
  2:{ split; [exact Hw|exact Hd']. }
  fields.
  destruct (storeFault env (storeOps w)) as [e|].
  { split; [|exact Hd'].
    apply (onlyRecords_insert (docs ++ [d]) [] w); try assumption;
      [reflexivity|cbn; now rewrite app_nil_r|intros ? []]. }
  destruct (existsb (rejects env (storeOps w)) (docs ++ [d])).
  - split; [|exact Hd'].
    apply (onlyRecords_insert (docs ++ [d])
             (filter (fun d => negb (rejects env (storeOps w) d)) (docs ++ [d]))
             w); try assumption; [reflexivity|reflexivity|].
    intros x Hx. now apply filter_In in Hx.
  - split; [|constructor].
    apply (onlyRecords_insert (docs ++ [d])
             (filter (fun d => negb (rejects env (storeOps w) d)) (docs ++ [d]))
             w); try assumption; [reflexivity|reflexivity|].
    intros x Hx. now apply filter_In in Hx.
Qed.

Lemma insertMany_onlyRecords (batch : list RAGDocument) (w : World) :
  onlyRecords P calls stored w -> Forall P batch ->
  onlyRecords P calls stored (snd (insertMany env batch w)).
Proof.
  intros Hw Hbatch.
  cbv [insertMany bind modify storeOp get ret throw]. fields.
  destruct (storeFault env (storeOps w)) as [e|].
  { apply (onlyRecords_insert batch [] w); try assumption;
      [reflexivity|cbn; now rewrite app_nil_r|intros ? []]. }
  assert (H : onlyRecords P calls stored
                (setCollection
                   (collection w ++
                    filter (fun d => negb (rejects env (storeOps w) d)) batch)
                   (setStoreOps (S (storeOps w))
                      (setInsertManyCalls (insertManyCalls w ++ [batch]) w)))).
  { apply (onlyRecords_insert batch
             (filter (fun d => negb (rejects env (storeOps w) d)) batch) w);
      try assumption; [reflexivity|reflexivity|].
    intros x Hx. now apply filter_In in Hx. }
  destruct (existsb _ _); exact H.
Qed.

End Records.

Lemma buildFromTexts_onlyRecords (this : RAGBuilder) (texts : list jsstring)
    (showProgress : bool) (w : World) :
  onlyRecords (recordOf this (filter validText texts))
    (insertManyCalls w) (collection w)
    (snd (buildFromTexts env this texts showProgress w)).
Proof.
  set (P := recordOf this (filter validText texts)).
  assert (H0 : onlyRecords P (insertManyCalls w) (collection w)
                 (snd (getCollection env this w))).
  { apply (preserves_getCollection number env
             (onlyRecords P (insertManyCalls w) (collection w)));
      try (intros; assumption).
    split.
    - exists []. split; [now rewrite app_nil_r|]. intros b d [].
    - exists []. split; [now rewrite app_nil_r|constructor]. }
  unfold buildFromTexts. cbv [bind withLocals].
  destruct (getCollection env this w) as [[[]|e] w0]; [|exact H0].
  cbn [snd] in H0.
  assert (Hloop :
    onlyRecordsIn P (insertManyCalls w) (collection w)
      (snd (forIdx (buildBody env this showProgress) 0
              (filter validText texts)
              {| world := w0; documents := []; processed := 0 |}))).
  { apply (preserves_forIdx_nth
             (onlyRecordsIn P (insertManyCalls w) (collection w))).
    - intros i text Hi. apply buildBody_onlyRecords.
      intros v u t. unfold P, recordOf. cbn. now repeat split.
    - split; [exact H0|constructor]. }
  destruct (forIdx _ _ _ _) as [[[]|e] [w' docs n]];
    destruct Hloop as [Hw Hd]; cbn [snd world documents] in *; [|exact Hw].
  cbv [get inWorld ret]. cbn [world documents processed].
  destruct (0 <? length docs)%nat; [|exact Hw].
  pose proof (insertMany_onlyRecords P (insertManyCalls w) (collection w)
                docs w' Hw Hd) as Hins. simpl.
  destruct (insertMany env docs w') as [r w'']. exact Hins.
Qed.

(** X16.  Whatever the collaborators do, every record that [buildFromTexts]
    hands to [insertMany], and every record that gets into the collection,
    was made by this call for one of the valid texts: its [index] is the
    place of its content among the texts that are not empty once trimmed,
    and its [uid], model and dimension are those of the builder. *)
Theorem buildFromTexts_records (this : RAGBuilder) (texts : list jsstring)
    (showProgress : bool) (w : World) :
  let w' := snd (buildFromTexts env this texts showProgress w) in
  (exists new,
      insertManyCalls w' = insertManyCalls w ++ new /\
      forall batch d, In batch new -> In d batch ->
                      recordOf this (filter validText texts) d) /\
  (exists recs,
      collection w' = collection w ++ recs /\
      Forall (recordOf this (filter validText texts)) recs).
Proof. apply buildFromTexts_onlyRecords. Qed.

(** ** Building, then cleaning up *)

Lemma buildFromTexts_healthy_ok (this : RAGBuilder) (texts : list jsstring)
    (showProgress : bool) (w : World) :
  storeHealthy env ->
  fst (buildFromTexts env this texts showProgress w) = Ok tt.
Proof.
  intros Hstore.
  destruct (getCollection_run number env this w Hstore) as (w0 & H0 & _).
  pose proof (forIdx_never_throws this showProgress (filter validText texts) 0
                {| world := w0; documents := []; processed := 0 |}) as Hok.
  destruct (forIdx (buildBody env this showProgress) 0
              (filter validText texts)
              {| world := w0; documents := []; processed := 0 |})
    as [r f'] eqn:Hloop.
  cbn [fst] in Hok. subst r.
  rewrite (buildFromTexts_unfold number env this texts showProgress w w0 f'
             H0 Hloop).
  destruct (0 <? length (documents f'))%nat; [|reflexivity].
  now rewrite (insertMany_healthy number env (documents f') (world f') Hstore).
Qed.

Lemma filter_matches_all (u : jsstring) (recs : list RAGDocument) :
  Forall (fun d => uid d = Some u) recs ->
  filter (matchesUid u) recs = recs /\
  filter (fun d => negb (matchesUid u d)) recs = [].
Proof.
  induction 1 as [|d recs Hd _ [IH1 IH2]]; [now split|]. cbn [filter].
  rewrite (proj2 (matchesUid_spec number u d) Hd). cbn [negb].
  now rewrite IH1, IH2.
Qed.

Lemma filter_matches_no_uid (u : jsstring) (recs : list RAGDocument) :
  Forall (fun d => uid d = None) recs ->
  filter (matchesUid u) recs = [] /\
  filter (fun d => negb (matchesUid u d)) recs = recs.
Proof.
  induction 1 as [|d recs Hd _ [IH1 IH2]]; [now split|]. cbn [filter].
  replace (matchesUid u d) with false by (unfold matchesUid; now rewrite Hd).
  cbn [negb]. now rewrite IH1, IH2.
Qed.

(** What [buildFromTexts] adds to the collection of a healthy database. *)
Lemma buildFromTexts_healthy_adds (this : RAGBuilder) (texts : list jsstring)
    (showProgress : bool) (w : World) :
  storeHealthy env ->
  exists w1 recs,
    buildFromTexts env this texts showProgress w = (Ok tt, w1) /\
    collection w1 = collection w ++ recs /\
    Forall (fun d => uid d = uidField this) recs.
Proof.
  intros Hstore.
  pose proof (buildFromTexts_healthy_ok this texts showProgress w Hstore)
    as Hok.
  destruct (buildFromTexts_onlyRecords this texts showProgress w)
    as [_ (recs & Hcol & Hrecs)].
  destruct (buildFromTexts env this texts showProgress w) as [r w1].
  cbn [fst snd] in *. subst r. exists w1, recs.
  split; [reflexivity|]. split; [exact Hcol|].
  eapply Forall_impl; [|exact Hrecs]. intros d Hd. apply Hd.
Qed.

(** X17.  On a healthy database, for a builder whose [uid] is the non-empty
    string [u]: [buildFromTexts] followed by [cleanupByUid(u)] removes the
    records the build has added, with those that had [u] before, and leaves
    the collection as a [cleanupByUid(u)] alone would; the count returned
    is that of both. *)
Theorem build_then_cleanup (this : RAGBuilder) (u : jsstring)
    (texts : list jsstring) (showProgress : bool) (w : World) :
  storeHealthy env ->
  builder_uid this = Some u -> u <> [] ->
  exists w1 w2 recs,
    buildFromTexts env this texts showProgress w = (Ok tt, w1) /\
    collection w1 = collection w ++ recs /\
    cleanupByUid env this u w1
    = (Ok (length (filter (matchesUid u) (collection w)) + length recs)%nat,
       w2) /\
    collection w2 = filter (fun d => negb (matchesUid u d)) (collection w).
Proof.
  intros Hstore Hu Hne.
  assert (Hfield : uidField this = Some u).
  { unfold uidField. rewrite Hu. destruct u; [congruence|reflexivity]. }
  destruct (buildFromTexts_healthy_adds this texts showProgress w Hstore)
    as (w1 & recs & Hrun & Hcol & Hrecs).
  rewrite Hfield in Hrecs.
  destruct (cleanupByUid_run number env this u w1 Hstore) as (w2 & Hrun2 & Hcol2).
  destruct (filter_matches_all u recs Hrecs) as [Hall Hnone].
  exists w1, w2, recs. split; [exact Hrun|]. split; [exact Hcol|].
  rewrite Hrun2, Hcol2, Hcol, !filter_app, Hall, Hnone, length_app, app_nil_r.
  now split.
Qed.

(** X18.  For a builder without [uid], or whose [uid] is the empty string,
    the records have no [uid] field, and no [cleanupByUid] removes them,
    whatever its argument is, the empty string too. *)
Theorem records_without_uid_stay (this : RAGBuilder) (u : jsstring)
    (texts : list jsstring) (showProgress : bool) (w : World) :
  storeHealthy env ->
  builder_uid this = None \/ builder_uid this = Some [] ->
  exists w1 w2 recs,
    buildFromTexts env this texts showProgress w = (Ok tt, w1) /\
    collection w1 = collection w ++ recs /\
    Forall (fun d => uid d = None) recs /\
    cleanupByUid env this u w1
    = (Ok (length (filter (matchesUid u) (collection w))), w2) /\
    collection w2
    = filter (fun d => negb (matchesUid u d)) (collection w) ++ recs.
Proof.
  intros Hstore Hu.
  assert (Hfield : uidField this = None).
  { unfold uidField. now destruct Hu as [-> | ->]. }
  destruct (buildFromTexts_healthy_adds this texts showProgress w Hstore)
    as (w1 & recs & Hrun & Hcol & Hrecs).
  rewrite Hfield in Hrecs.
  destruct (cleanupByUid_run number env this u w1 Hstore) as (w2 & Hrun2 & Hcol2).
  destruct (filter_matches_no_uid u recs Hrecs) as [Hnone Hall].
  exists w1, w2, recs. split; [exact Hrun|]. split; [exact Hcol|].
  split; [exact Hrecs|].
  rewrite Hrun2, Hcol2, Hcol, !filter_app, Hall, Hnone, app_nil_r.
  now split.
Qed.

(** ** A batch that [insertMany] fails on *)

Lemma buildBody_insert_fails (this : RAGBuilder) (showProgress : bool)
    (idx : nat) (text : jsstring) (f : Frame) (v : list number) (e : exn) :
  embeddings_create env (embeddingRequests (world f)) text
    (embeddingsModel this) (embeddingsDimension this) = Ok v ->
  (100 <= S (length (documents f)))%nat ->
  storeFault env (storeOps (world f)) = Some e ->
  buildBody env this showProgress idx text f
  = (Ok tt,
     {| world :=
          setLog
            (log (world f) ++
             [(LogError,
               str "Error processing document " ++ Number_toString idx
                 ++ str ": " ++ exn_toString e)])
            (setStoreOps (S (storeOps (world f)))
               (setInsertManyCalls
                  (insertManyCalls (world f) ++
                   [documents f ++ [documentAt env this idx text v (world f)]])
                  (afterEmbedding (world f))));
        documents := documents f ++ [documentAt env this idx text v (world f)];
        processed := S (processed f) |}).
Proof.
  intros He Hlen Hfault. destruct f as [w docs n].
  cbn [world documents processed] in *. run. rewrite He. fields.
  replace (100 <=? length (docs ++ _))%nat with true.
  2:{ symmetry. apply Nat.leb_le. rewrite length_app. simpl. lia. }
  fields. rewrite Hfault. reflexivity.
Qed.

Lemma buildBody_flushes_at (this : RAGBuilder) (showProgress : bool)
    (idx : nat) (text : jsstring) (f : Frame) (v : list number) :
  embeddings_create env (embeddingRequests (world f)) text
    (embeddingsModel this) (embeddingsDimension this) = Ok v ->
  (100 <= S (length (documents f)))%nat ->
  storeFault env (storeOps (world f)) = None ->
  (forall d, rejects env (storeOps (world f)) d = false) ->
  buildBody env this showProgress idx text f
  = (Ok tt,
     {| world :=
          afterInsert (documents f ++ [documentAt env this idx text v (world f)])
            (afterEmbedding (world f));
        documents := [];
        processed := S (processed f) |}).
Proof.
  intros He Hlen Hfault Hrej. destruct f as [w docs n].
  cbn [world documents processed] in *. run. rewrite He. fields.
  replace (100 <=? length (docs ++ _))%nat with true.
  2:{ symmetry. apply Nat.leb_le. rewrite length_app. simpl. lia. }
  fields. rewrite Hfault.
  assert (Hacc : forall batch : list RAGDocument,
             filter (fun d => negb (rejects env (storeOps w) d)) batch = batch
             /\ existsb (rejects env (storeOps w)) batch = false).
  { induction batch as [|d batch [IH1 IH2]]; simpl; [auto|].
    now rewrite Hrej, IH1, IH2. }
  match goal with
  | |- context [existsb (rejects env (storeOps w)) ?b] =>
      destruct (Hacc b) as [-> ->]
  end.
  reflexivity.
Qed.

(** X19.  A full buffer on which [insertMany] fails inside the loop is
    neither dropped nor emptied: the failure is logged under the index of
    the text at hand, and at the next text whose embedding is answered the
    same records are handed to [insertMany] once more, with the new record
    after them. *)
Theorem failed_batch_is_resubmitted (this : RAGBuilder) (showProgress : bool)
    (idx : nat) (text1 text2 : jsstring) (f : Frame)
    (v1 v2 : list number) (e : exn) :
  (99 <= length (documents f))%nat ->
  embeddings_create env (embeddingRequests (world f)) text1
    (embeddingsModel this) (embeddingsDimension this) = Ok v1 ->
  storeFault env (storeOps (world f)) = Some e ->
  embeddings_create env (S (embeddingRequests (world f))) text2
    (embeddingsModel this) (embeddingsDimension this) = Ok v2 ->
  storeFault env (S (storeOps (world f))) = None ->
  (forall d, rejects env (S (storeOps (world f))) d = false) ->
  exists f' d1 d2,
    forIdx (buildBody env this showProgress) idx [text1; text2] f
    = (Ok tt, f') /\
    content d1 = text1 /\ content d2 = text2 /\
    insertManyCalls (world f')
    = insertManyCalls (world f)
        ++ [documents f ++ [d1]; documents f ++ [d1; d2]] /\
    collection (world f') = collection (world f) ++ documents f ++ [d1; d2] /\
    documents f' = [] /\
    In (LogError,
        str "Error processing document " ++ Number_toString idx
          ++ str ": " ++ exn_toString e) (log (world f')).
Proof.
  intros Hlen H1 Hf1 H2 Hf2 Hrej.
  pose proof (buildBody_insert_fails this showProgress idx text1 f v1 e H1
                ltac:(lia) Hf1) as B1.
  set (d1 := documentAt env this idx text1 v1 (world f)) in *.
  set (f1 := {| world := _; documents := documents f ++ [d1];
                processed := S (processed f) |}) in B1.
  pose proof (buildBody_flushes_at this showProgress (S idx) text2 f1 v2 H2)
    as B2.
  set (d2 := documentAt env this (S idx) text2 v2 (world f1)) in *.
  eexists. exists d1, d2. cbn [forIdx]. unfold bind.
  rewrite B1, B2.
  2:{ unfold f1. cbn [documents]. rewrite length_app. simpl. lia. }
  2:{ exact Hf2. }
  2:{ exact Hrej. }
  split; [reflexivity|]. split; [reflexivity|]. split; [reflexivity|].
  cbn. rewrite <- !app_assoc. cbn.
  split; [reflexivity|]. split; [reflexivity|]. split; [reflexivity|].
  apply in_or_app. right. now left.
Qed.

(** ** Every valid text stored, whatever their number *)

Lemma build_loop_indexes (this : RAGBuilder) (showProgress : bool) :
  storeHealthy env -> embeddingsSucceed env ->
  forall (texts : list jsstring) (idx : nat) (f : Frame),
    exists f' batches,
      forIdx (buildBody env this showProgress) idx texts f = (Ok tt, f') /\
      insertManyCalls (world f') = insertManyCalls (world f) ++ batches /\
      map (fun d => index (metadata d)) (concat batches ++ documents f')
      = map (fun d => index (metadata d)) (documents f)
          ++ seq idx (length texts).
Proof.
  intros Hstore Hembed texts.
  induction texts as [|text texts IH]; intros idx f.
  - exists f, []. cbn [forIdx concat length seq app].
    now rewrite !app_nil_r.
  - destruct (Hembed (embeddingRequests (world f)) text
                (embeddingsModel this) (embeddingsDimension this)) as [v Hv].
    cbn [forIdx]. unfold bind at 1.
    destruct (Nat.lt_ge_cases (S (length (documents f))) 100) as [Hlt|Hge].
    + rewrite (buildBody_buffers number env this showProgress idx text f v
                 Hv Hlt).
      set (f1 := {| world := afterEmbedding (world f);
                    documents := documents f ++ _;
                    processed := S (processed f) |}).
      destruct (IH (S idx) f1) as (f' & batches & -> & Hc & Hi).
      exists f', batches. split; [reflexivity|]. split; [exact Hc|].
      rewrite Hi. unfold f1. cbn [documents length seq].
      rewrite map_app, <- app_assoc. reflexivity.
    + rewrite (buildBody_flushes number env this showProgress idx text f v
                 Hstore Hv Hge).
      set (batch := documents f ++ [documentAt env this idx text v (world f)]).
      set (f1 := {| world := afterInsert batch (afterEmbedding (world f));
                    documents := []; processed := S (processed f) |}).
      destruct (IH (S idx) f1) as (f' & batches & -> & Hc & Hi).
      exists f', (batch :: batches). split; [reflexivity|].
      split; [rewrite Hc; unfold f1; cbn; now rewrite <- app_assoc|].
      cbn [concat]. rewrite <- app_assoc, map_app, Hi.
      unfold f1, batch. cbn [documents map length seq app].
      rewrite map_app, <- app_assoc. reflexivity.
Qed.

Lemma removelast_snoc {A : Type} (l : list A) (a : A) :
  removelast (l ++ [a]) = l.
Proof. now rewrite removelast_app, app_nil_r. Qed.

Lemma buildFromTexts_healthy_all (this : RAGBuilder)
    (texts : list jsstring) (showProgress : bool) (w : World) :
  storeHealthy env -> embeddingsSucceed env ->
  exists w' batches,
    buildFromTexts env this texts showProgress w = (Ok tt, w') /\
    insertManyCalls w' = insertManyCalls w ++ batches /\
    collection w' = collection w ++ concat batches /\
    map (@content number) (concat batches) = filter validText texts /\
    map (fun d => index (metadata d)) (concat batches)
    = seq 0 (length (filter validText texts)) /\
    Forall (fun b => length b = 100%nat) (removelast batches) /\
    Forall (fun b => (1 <= length b <= 100)%nat) batches.
Proof.
  intros Hstore Hembed.
  destruct (getCollection_run number env this w Hstore)
    as (w0 & H0 & Hcol & Hcalls & _).
  set (f0 := {| world := w0; documents := []; processed := 0 |}).
  destruct (build_loop number env this showProgress Hstore Hembed
              (filter validText texts) 0 f0)
    as (f' & batches & Hloop & Hc & Hs & Hb & Hl & Hn & Hm);
    [simpl; lia|].
  destruct (build_loop_indexes this showProgress Hstore Hembed
              (filter validText texts) 0 f0)
    as (f2 & batches2 & Hloop2 & Hc2 & Hi).
  rewrite Hloop in Hloop2. injection Hloop2 as <-.
  rewrite Hc in Hc2. apply app_inv_head in Hc2 as <-.
  unfold f0 in *. cbn [world documents map app] in *.
  rewrite (buildFromTexts_unfold number env this texts showProgress w w0 f'
             H0 Hloop).
  assert (Hfull : Forall (fun b => (1 <= length b <= 100)%nat) batches).
  { eapply Forall_impl; [|exact Hb]. intros b ->. lia. }
  destruct (documents f') as [|d docs] eqn:Hdocs.
  - exists (world f'), batches. cbn [length Nat.ltb Nat.leb].
    rewrite app_nil_r in Hm, Hi.
    split; [reflexivity|]. split; [now rewrite Hc, Hcalls|].
    split; [now rewrite Hs, Hcol|]. split; [exact Hm|]. split; [exact Hi|].
    split; [|exact Hfull].
    clear -Hb. induction Hb as [|b [|b' bs] Hlen Hb IH]; simpl;
      constructor; [exact Hlen|]. exact IH.
  - exists (afterInsert (d :: docs) (world f')), (batches ++ [d :: docs]).
    replace (0 <? length (d :: docs))%nat with true by reflexivity.
    rewrite (insertMany_healthy number env (d :: docs) (world f') Hstore).
    split; [reflexivity|]. fields.
    rewrite Hc, Hs, Hcalls, Hcol, concat_app. cbn [concat].
    rewrite app_nil_r, <- !app_assoc.
    split; [reflexivity|]. split; [reflexivity|].
    split; [exact Hm|]. split; [exact Hi|].
    split; [now rewrite removelast_snoc|].
    apply Forall_app. split; [exact Hfull|].
    constructor; [|constructor]. simpl in Hl |- *. lia.
Qed.

(** X20.  With a healthy database and an embedding service that answers,
    whatever the number of texts: [buildFromTexts] stores one record for
    each text that is not empty once trimmed, in their order, the [index]
    of a record being its rank among those texts, from 0; [insertMany] gets
    them in batches of a hundred, but for the last one, which has a hundred
    records at most and one at least. *)
Theorem buildFromTexts_stores_every_valid_text (this : RAGBuilder)
    (texts : list jsstring) (showProgress : bool) (w : World) :
  storeHealthy env -> embeddingsSucceed env ->
  exists w' batches,
    buildFromTexts env this texts showProgress w = (Ok tt, w') /\
    insertManyCalls w' = insertManyCalls w ++ batches /\
    collection w' = collection w ++ concat batches /\
    map (@content number) (concat batches) = filter validText texts /\
    map (fun d => index (metadata d)) (concat batches)
    = seq 0 (length (filter validText texts)) /\
    Forall (fun b => length b = 100%nat) (removelast batches) /\
    Forall (fun b => (1 <= length b <= 100)%nat) batches.
Proof. apply buildFromTexts_healthy_all. Qed.

(** ** Files *)

Lemma filter_all_valid (texts : list jsstring) :
  Forall (fun p => validText p = true) texts ->
  filter validText texts = texts.
Proof.
  induction 1 as [|p texts Hp _ IH]; [reflexivity|].
  cbn [filter]. now rewrite Hp, IH.
Qed.

(** X21.  [buildFromFile] on a file that can be read, with a healthy
    database and an embedding service that answers: none of the paragraphs
    is filtered out by [buildFromTexts], so that the collection gets one
    record for each paragraph of the file, in their order, the [index] of a
    record being the rank of its paragraph in the file. *)
Theorem buildFromFile_one_record_per_paragraph (this : RAGBuilder)
    (filePath rawData : jsstring) (showProgress : bool) (w : World) :
  fs env filePath = Some (File rawData) ->
  storeHealthy env -> embeddingsSucceed env ->
  exists w' recs,
    buildFromFile env this filePath showProgress w = (Ok tt, w') /\
    collection w' = collection w ++ recs /\
    map (@content number) recs = tokenizeParagraphs rawData /\
    map (fun d => index (metadata d)) recs
    = seq 0 (length (tokenizeParagraphs rawData)).
Proof.
  intros Hfs Hstore Hembed.
  assert (E : buildFromFile env this filePath showProgress w
              = buildFromTexts env this (tokenizeParagraphs rawData)
                  showProgress w).
  { unfold buildFromFile, fs_access, fs_readFile. rewrite Hfs. reflexivity. }
  destruct (buildFromTexts_healthy_all this (tokenizeParagraphs rawData)
              showProgress w Hstore Hembed)
    as (w' & batches & Hrun & _ & Hcol & Hcontent & Hindex & _).
  rewrite filter_all_valid in Hcontent, Hindex.
  2,3: eapply Forall_impl; [|apply paragraphs_trimmed]; intros p Hp; apply Hp.
  exists w', (concat batches). rewrite E. auto.
Qed.

(** X22.  When there is no file to read at the path, [buildFromFile]
    raises before anything is done: the database is not connected to, no
    embedding is requested, and the world is as it was.  The error is that
    of the missing input file when nothing is at the path; when something is
    there that cannot be read, it is the error of [fs.readFile], as it
    is. *)
Theorem buildFromFile_file_errors (this : RAGBuilder) (filePath : jsstring)
    (showProgress : bool) (w : World) :
  (forall rawData, fs env filePath <> Some (File rawData)) ->
  buildFromFile env this filePath showProgress w
  = (Throw
       match fs env filePath with
       | Some (Unreadable e) => e
       | _ => Error (str "Input file not found: " ++ filePath)
       end, w).
Proof.
  intros Hfs. unfold buildFromFile, fs_access, fs_readFile.
  destruct (fs env filePath) as [[rawData|e]|].
  - now destruct (Hfs rawData).
  - reflexivity.
  - reflexivity.
Qed.

End PipelineMore.

Lemma buildFromFile_one_record_per_paragraph_witness :
  exists w' recs,
    buildFromFile (exampleEnv (fun _ => false)) (builderFor None)
      (str "notes.txt") true (emptyWorld Z) = (Ok tt, w') /\
    collection w' = recs /\
    map (@content Z) recs = [str "first"; str "second"] /\
    map (fun d => index (metadata d)) recs = [0; 1]%nat.
Proof.
  exact (buildFromFile_one_record_per_paragraph Z
           (exampleEnv (fun _ => false)) (builderFor None) (str "notes.txt")
           (str "first" ++ [10; 10]%N ++ str "second") true (emptyWorld Z)
           eq_refl (conj (fun _ => eq_refl) (fun _ _ => eq_refl))
           (fun n _ _ _ => ex_intro _ [Z.of_nat n] eq_refl)).
Defined.

Lemma buildFromFile_file_errors_witness :
  buildFromFile (exampleEnv (fun _ => false)) (builderFor None)
    (str "missing.txt") true threeRecords
  = (Throw (Error (str "Input file not found: missing.txt")), threeRecords).
Proof.
  apply (buildFromFile_file_errors Z (exampleEnv (fun _ => false))
           (builderFor None) (str "missing.txt") true threeRecords).
  intros rawData. vm_compute. discriminate.
Defined.

Lemma buildFromTexts_stores_every_valid_text_witness :
  exists w' batches,
    buildFromTexts (exampleEnv (fun _ => false)) (builderFor None)
      (repeat (str "unit") 120 ++ [str "  "; str "last"]) false
      (emptyWorld Z) = (Ok tt, w') /\
    insertManyCalls w' = batches /\
    length (collection w') = 121%nat /\
    map (@length _) batches = [100; 21]%nat.
Proof.
  destruct (buildFromTexts_stores_every_valid_text Z
              (exampleEnv (fun _ => false)) (builderFor None)
              (repeat (str "unit") 120 ++ [str "  "; str "last"]) false
              (emptyWorld Z)
              (conj (fun _ => eq_refl) (fun _ _ => eq_refl))
              (fun n _ _ _ => ex_intro _ [Z.of_nat n] eq_refl))
    as (w' & batches & Hrun & Hcalls & Hcol & Hcontent & _ & Hfull & Hlast).
  exists w', batches. split; [exact Hrun|]. split; [exact Hcalls|].
  assert (Hlen : length (concat batches) = 121%nat).
  { rewrite <- (length_map (@content Z)), Hcontent. vm_compute. reflexivity. }
  split; [rewrite Hcol; exact Hlen|].
  destruct batches as [|b1 [|b2 [|b3 bs]]].
  - discriminate Hlen.
  - apply Forall_cons_iff in Hlast as [H1 _]. simpl in Hlen.
    rewrite app_nil_r in Hlen. lia.
  - apply Forall_cons_iff in Hfull as [H1 _].
    simpl in Hlen. rewrite app_nil_r, length_app in Hlen.
    simpl. f_equal; [exact H1|]. f_equal. lia.
  - exfalso. apply Forall_cons_iff in Hfull as [H1 Hfull].
    apply Forall_cons_iff in Hfull as [H2 _].
    apply Forall_cons_iff in Hlast as [_ Hlast].
    apply Forall_cons_iff in Hlast as [_ Hlast].
    apply Forall_cons_iff in Hlast as [H3 _].
    simpl in Hlen. rewrite !length_app in Hlen. lia.
Defined.

Lemma getCollection_indexes_witness :
  let w1 := snd (getCollection (exampleEnv (fun _ => false))
                   (builderFor None) (emptyWorld Z)) in
  connected w1 = true /\
  (forall n, In n requiredIndexes -> In n (indexes w1)).
Proof.
  destruct (getCollection_indexes Z (exampleEnv (fun _ => false))
              (builderFor None) (emptyWorld Z) (fun _ => eq_refl))
    as (Hc & Hall & _).
  split; [exact Hc|exact Hall].
Defined.


Lemma buildFromTexts_requests_witness :
  embeddingRequests
    (snd (buildFromTexts (exampleEnv (fun n => Nat.eqb n 0)) (builderFor None)
            [str "one"; str "  "; str "two"] false (emptyWorld Z)))
  = 2%nat.
Proof.
  exact (buildFromTexts_requests Z (exampleEnv (fun n => Nat.eqb n 0))
           (builderFor None) [str "one"; str "  "; str "two"] false
           (emptyWorld Z) (or_intror eq_refl)).
Defined.

Lemma buildFromTexts_blank_witness :
  buildFromTexts (exampleEnv (fun _ => false)) (builderFor None)
    [str "  "; []] true (emptyWorld Z)
  = getCollection (exampleEnv (fun _ => false)) (builderFor None)
      (emptyWorld Z).
Proof.
  exact (buildFromTexts_blank Z (exampleEnv (fun _ => false))
           (builderFor None) [str "  "; []] true (emptyWorld Z) eq_refl).
Defined.

Lemma build_then_cleanup_witness :
  exists w1 w2 recs,
    buildFromTexts (exampleEnv (fun _ => false))
      (builderFor (Some (str "owner-1"))) [str "one"; str "two"] false
      threeRecords = (Ok tt, w1) /\
    collection w1 = collection threeRecords ++ recs /\
    cleanupByUid (exampleEnv (fun _ => false))
      (builderFor (Some (str "owner-1"))) (str "owner-1") w1
    = (Ok (1 + length recs)%nat, w2) /\
    map (@uid Z) (collection w2) = [Some (str "owner-2"); None].
Proof.
  destruct (build_then_cleanup Z (exampleEnv (fun _ => false))
              (builderFor (Some (str "owner-1"))) (str "owner-1")
              [str "one"; str "two"] false threeRecords
              (conj (fun _ => eq_refl) (fun _ _ => eq_refl)) eq_refl
              ltac:(vm_compute; discriminate))
    as (w1 & w2 & recs & Hrun & Hcol & Hclean & Hleft).
  exists w1, w2, recs. split; [exact Hrun|]. split; [exact Hcol|].
  split; [exact Hclean|]. now rewrite Hleft.
Defined.

Lemma records_without_uid_stay_witness :
  exists w1 w2 recs,
    buildFromTexts (exampleEnv (fun _ => false)) (builderFor (Some []))
      [str "one"; str "two"] false threeRecords = (Ok tt, w1) /\
    collection w1 = collection threeRecords ++ recs /\
    Forall (fun d => uid d = None) recs /\
    cleanupByUid (exampleEnv (fun _ => false)) (builderFor (Some [])) []
      w1 = (Ok 0%nat, w2) /\
    collection w2 = collection threeRecords ++ recs.
Proof.
  exact (records_without_uid_stay Z (exampleEnv (fun _ => false))
           (builderFor (Some [])) [] [str "one"; str "two"] false
           threeRecords (conj (fun _ => eq_refl) (fun _ _ => eq_refl))
           (or_intror eq_refl)).
Defined.

Lemma failed_batch_is_resubmitted_witness :
  exists f',
    forIdx (buildBody (flakyStoreEnv (fun k => Nat.eqb k 0)) (builderFor None)
              false) 99 [str "one"; str "two"] (frameWith 99)
    = (Ok tt, f') /\
    map (@length _) (insertManyCalls (world f')) = [100; 101]%nat /\
    length (collection (world f')) = 101%nat /\
    documents f' = [].
Proof.
  destruct (failed_batch_is_resubmitted Z
              (flakyStoreEnv (fun k => Nat.eqb k 0)) (builderFor None) false
              99 (str "one") (str "two") (frameWith 99) [0%Z] [1%Z]
              {| name := str "MongoNetworkError";
                 message := str "connection refused" |}
              ltac:(vm_compute; lia) eq_refl eq_refl eq_refl eq_refl
              (fun _ => eq_refl))
    as (f' & d1 & d2 & Hrun & _ & _ & Hcalls & Hcol & Hdocs & _).
  exists f'. split; [exact Hrun|].
  rewrite Hcalls, Hcol. split; [reflexivity|]. split; [reflexivity|].
  exact Hdocs.
Defined.

(* ===================================================================== *)
(** * Properties of the file parser *)

Lemma splitOn_last (sep : code_unit) (s : jsstring) :
  exists pieces ext,
    splitOn sep s = pieces ++ [ext] /\ ~ In sep ext /\
    match pieces with
    | [] => s = ext
    | _ :: _ => exists stem, s = stem ++ sep :: ext
    end.
Proof.
  induction s as [|c s (pieces & ext & Hsplit & Hext & Hs)].
  - exists [], []. repeat split. intros [].
  - cbn [splitOn]. destruct (N.eqb_spec c sep) as [->|Hc].
    + exists ([] :: pieces), ext. rewrite Hsplit.
      split; [reflexivity|]. split; [exact Hext|].
      destruct pieces as [|p ps].
      * exists []. now rewrite Hs.
      * destruct Hs as [stem ->]. now exists (sep :: stem).
    + rewrite Hsplit. destruct pieces as [|p ps].
      * exists [], (c :: ext). cbn [app].
        split; [reflexivity|]. split; [|now rewrite Hs].
        intros [E|Hin]; [now apply Hc|now apply Hext].
      * exists ((c :: p) :: ps), ext. cbn [app].
        split; [reflexivity|]. split; [exact Hext|].
        destruct Hs as [stem ->]. now exists (c :: stem).
Qed.

Lemma pop_snoc {A : Type} (l : list A) (a : A) : pop (l ++ [a]) = Some a.
Proof. unfold pop. rewrite map_app. cbn [map]. apply last_last. Qed.

Lemma startsWith_app (p s : jsstring) : startsWith (p ++ s) p = true.
Proof.
  induction p as [|a p IH]; [now destruct s|].
  cbn [app startsWith]. now rewrite N.eqb_refl, IH.
Qed.

Lemma startsWith_prefix (p q : jsstring) :
  forall s, startsWith s (p ++ q) = true ->
            exists s', s = p ++ s' /\ startsWith s' q = true.
Proof.
  induction p as [|a p IH]; intros s H; [now exists s|].
  destruct s as [|b s]; cbn [app startsWith] in H; [discriminate|].
  apply andb_prop in H as [Hab H]. apply N.eqb_eq in Hab as ->.
  destruct (IH s H) as (s' & -> & Hq). now exists s'.
Qed.

Lemma startsWith_app_app (p s q : jsstring) :
  startsWith (p ++ s) (p ++ q) = startsWith s q.
Proof.
  induction p as [|a p IH]; [reflexivity|].
  cbn [app startsWith]. now rewrite N.eqb_refl, IH.
Qed.

Lemma startsWith_head (s p : jsstring) (a : code_unit) :
  startsWith s (a :: p) = true -> exists s', s = a :: s'.
Proof.
  destruct s as [|b s]; cbn [startsWith]; [discriminate|].
  intros H. apply andb_prop in H as [H _]. apply N.eqb_eq in H as ->.
  now exists s.
Qed.

Section FileParserFacts.

Variables St Buffer : Type.
Variable host : FileEnv St Buffer.

Lemma extensionOf_last (filename : jsstring) :
  exists ext,
    extensionOf host filename = Some ext /\ ~ In 46%N ext /\
    (toLowerCase host filename = ext \/
     exists stem, toLowerCase host filename = stem ++ 46%N :: ext).
Proof.
  unfold extensionOf.
  destruct (splitOn_last 46%N (toLowerCase host filename))
    as (pieces & ext & -> & Hext & Hs).
  exists ext. rewrite pop_snoc. split; [reflexivity|]. split; [exact Hext|].
  destruct pieces; [now left|now right].
Qed.

(** X23.  The extension a file name is judged by is never [undefined]: it is
    what follows the last [.] of the lower-cased name, and the whole
    lower-cased name when it has no [.]; it holds no [.] itself. *)
Theorem extensionOf_after_last_dot (filename : jsstring) :
  exists ext,
    extensionOf host filename = Some ext /\ ~ In 46%N ext /\
    (toLowerCase host filename = ext \/
     exists stem, toLowerCase host filename = stem ++ 46%N :: ext).
Proof. apply extensionOf_last. Qed.

(** The four library calls, each with its own error prefix. *)
Lemma wrapped_error (c : M St jsstring) (prefix suffix : jsstring)
    (s : St) (e : exn) :
  fst (tryCatch c
         (fun error =>
            throw (Error (prefix ++ exn_toString error ++ suffix))) s)
  = Throw e ->
  exists e0, fst (c s) = Throw e0 /\
             e = Error (prefix ++ exn_toString e0 ++ suffix).
Proof.
  unfold tryCatch, throw. destruct (c s) as [[text|e0] s']; cbn [fst].
  - discriminate.
  - intros [= <-]. now exists e0.
Qed.

Lemma parsePDF_error (buffer : Buffer) (s : St) (e : exn) :
  fst (parsePDF host buffer s) = Throw e -> parseError e.
Proof.
  unfold parsePDF. intros H.
  assert (H' : fst (tryCatch (PDFParse_getText host buffer)
                      (fun error =>
                         throw (Error (str "Failed to parse PDF: " ++
                                       exn_toString error ++ []))) s)
               = Throw e).
  { rewrite <- H. unfold tryCatch, throw.
    destruct (PDFParse_getText host buffer s) as [[t|e0] s']; cbn [fst];
      [reflexivity|now rewrite app_nil_r]. }
  destruct (wrapped_error _ _ _ _ _ H') as (e0 & _ & ->).
  split; [reflexivity|].
  cbn [message Error].
  change (str "Failed to parse PDF: ")
    with (str "Failed to parse " ++ str "PDF: ").
  rewrite <- app_assoc. apply startsWith_app.
Qed.

Lemma parseDOCX_error (buffer : Buffer) (s : St) (e : exn) :
  fst (parseDOCX host buffer s) = Throw e -> parseError e.
Proof.
  unfold parseDOCX. intros H.
  assert (H' : fst (tryCatch (mammoth_extractRawText host buffer)
                      (fun error =>
                         throw (Error (str "Failed to parse DOCX: " ++
                                       exn_toString error ++ []))) s)
               = Throw e).
  { rewrite <- H. unfold tryCatch, throw.
    destruct (mammoth_extractRawText host buffer s) as [[t|e0] s'];
      cbn [fst]; [reflexivity|now rewrite app_nil_r]. }
  destruct (wrapped_error _ _ _ _ _ H') as (e0 & _ & ->).
  split; [reflexivity|].
  cbn [message Error].
  change (str "Failed to parse DOCX: ")
    with (str "Failed to parse " ++ str "DOCX: ").
  rewrite <- app_assoc. apply startsWith_app.
Qed.

Lemma parseTXT_error (buffer : Buffer) (s : St) (e : exn) :
  fst (parseTXT host buffer s) = Throw e -> parseError e.
Proof.
  unfold parseTXT. intros H.
  assert (H' : fst (tryCatch (Buffer_toString host buffer)
                      (fun error =>
                         throw (Error (str "Failed to parse TXT: " ++
                                       exn_toString error ++ []))) s)
               = Throw e).
  { rewrite <- H. unfold tryCatch, throw.
    destruct (Buffer_toString host buffer s) as [[t|e0] s']; cbn [fst];
      [reflexivity|now rewrite app_nil_r]. }
  destruct (wrapped_error _ _ _ _ _ H') as (e0 & _ & ->).
  split; [reflexivity|].
  cbn [message Error].
  change (str "Failed to parse TXT: ")
    with (str "Failed to parse " ++ str "TXT: ").
  rewrite <- app_assoc. apply startsWith_app.
Qed.

Lemma parseDOC_error (buffer : Buffer) (s : St) (e : exn) :
  fst (parseDOC host buffer s) = Throw e -> parseError e.
Proof.
  unfold parseDOC. intros H.
  destruct (wrapped_error _ _ _ _ _ H) as (e0 & _ & ->).
  split; [reflexivity|].
  cbn [message Error].
  change (str "Failed to parse DOC: ")
    with (str "Failed to parse " ++ str "DOC: ").
  rewrite <- app_assoc. apply startsWith_app.
Qed.

Lemma parseError_not_unsupported (e : exn) :
  parseError e -> ~ unsupportedError e.
Proof.
  intros [_ H1] [_ H2].
  change (str "Failed to parse ") with (70%N :: str "ailed to parse ") in H1.
  change (str "Unsupported file format: ")
    with (85%N :: str "nsupported file format: ") in H2.
  apply startsWith_head in H1 as [m1 H1].
  apply startsWith_head in H2 as [m2 H2]. congruence.
Qed.

(** [isSupportedFormat] is the disjunction of the four cases of the
    [switch]. *)
Lemma isSupportedFormat_cases (filename : jsstring) :
  isSupportedFormat host filename
  = isCase (extensionOf host filename) "pdf"
    || isCase (extensionOf host filename) "docx"
    || isCase (extensionOf host filename) "doc"
    || isCase (extensionOf host filename) "txt".
Proof.
  unfold isSupportedFormat.
  destruct (extensionOf_last filename) as (ext & -> & _).
  unfold includesName, isCase, orEmpty. cbn [existsb].
  now rewrite orb_false_r, !orb_assoc.
Qed.

Lemma parseFile_supported (buffer : Buffer) (filename : jsstring) (s : St) :
  isSupportedFormat host filename = true ->
  forall e, fst (parseFile host buffer filename s) = Throw e -> parseError e.
Proof.
  rewrite isSupportedFormat_cases. unfold parseFile. intros Hsup e.
  destruct (isCase (extensionOf host filename) "pdf");
    [apply parsePDF_error|].
  destruct (isCase (extensionOf host filename) "docx");
    [apply parseDOCX_error|].
  destruct (isCase (extensionOf host filename) "doc");
    [apply parseDOC_error|].
  destruct (isCase (extensionOf host filename) "txt");
    [apply parseTXT_error|].
  discriminate.
Qed.

Lemma parseFile_unsupported (buffer : Buffer) (filename : jsstring) (s : St) :
  isSupportedFormat host filename = false ->
  parseFile host buffer filename s
  = (Throw
       (Error
          (str "Unsupported file format: " ++
           String_of (extensionOf host filename) ++
           str ". Supported formats: PDF, DOCX, DOC, TXT")), s).
Proof.
  rewrite isSupportedFormat_cases. unfold parseFile. intros Hsup.
  destruct (isCase (extensionOf host filename) "pdf"); [discriminate|].
  destruct (isCase (extensionOf host filename) "docx"); [discriminate|].
  destruct (isCase (extensionOf host filename) "doc"); [discriminate|].
  destruct (isCase (extensionOf host filename) "txt"); [discriminate|].
  reflexivity.
Qed.

(** X24.  [parseFile] takes its [default] branch exactly for the names
    [isSupportedFormat] refuses: it then throws the error of the unsupported
    format, naming the extension, calls no library and leaves the state as
    it was; for a name [isSupportedFormat] accepts it never throws that
    error, whatever the libraries do. *)
Theorem parseFile_unsupported_iff (buffer : Buffer) (filename : jsstring)
    (s : St) :
  isSupportedFormat host filename = false <->
  exists ext,
    parseFile host buffer filename s
    = (Throw
         (Error
            (str "Unsupported file format: " ++ ext ++
             str ". Supported formats: PDF, DOCX, DOC, TXT")), s).
Proof.
  split.
  - intros H. exists (String_of (extensionOf host filename)).
    now apply parseFile_unsupported.
  - intros [ext Hrun].
    destruct (isSupportedFormat host filename) eqn:Hsup; [|reflexivity].
    exfalso.
    apply (parseError_not_unsupported
             (Error (str "Unsupported file format: " ++ ext ++
                     str ". Supported formats: PDF, DOCX, DOC, TXT"))).
    + apply (parseFile_supported buffer filename s Hsup). now rewrite Hrun.
    + split; [reflexivity|]. cbn [message Error]. apply startsWith_app.
Qed.

Lemma parseFile_error_shape (buffer : Buffer) (filename : jsstring) (s : St)
    (e : exn) :
  fst (parseFile host buffer filename s) = Throw e ->
  (isSupportedFormat host filename = true /\ parseError e) \/
  (isSupportedFormat host filename = false /\ unsupportedError e).
Proof.
  intros H. destruct (isSupportedFormat host filename) eqn:Hsup.
  - left. split; [reflexivity|].
    now apply (parseFile_supported buffer filename s Hsup).
  - right. split; [reflexivity|].
    rewrite (parseFile_unsupported buffer filename s Hsup) in H.
    cbn [fst] in H.
    assert (He : Error
                   (str "Unsupported file format: " ++
                    String_of (extensionOf host filename) ++
                    str ". Supported formats: PDF, DOCX, DOC, TXT") = e)
      by congruence.
    rewrite <- He. split; [reflexivity|]. cbn [message Error].
    apply startsWith_app.
Qed.

(** X25.  Whatever a library throws, what [parseFile] throws is an [Error]
    whose message starts with [Failed to parse ] when the name is a
    supported one, and with [Unsupported file format: ] when it is not. *)
Theorem parseFile_errors (buffer : Buffer) (filename : jsstring) (s : St)
    (e : exn) :
  fst (parseFile host buffer filename s) = Throw e ->
  name e = str "Error" /\
  startsWith (message e)
    (if isSupportedFormat host filename
     then str "Failed to parse " else str "Unsupported file format: ")
  = true.
Proof.
  intros H.
  destruct (parseFile_error_shape buffer filename s e H)
    as [[-> He]|[-> He]]; exact He.
Qed.

(** X26.  [parseFileFromPath] puts [Failed to read file: ] before the error
    of [fs.readFile] only: once the file is read, it ends as [parseFile]
    does on the buffer and the path, and an error of [parseFile] comes out
    as it is. *)
Theorem parseFileFromPath_wraps_read_errors_only (filePath : jsstring)
    (s : St) :
  match fs_readFileBuffer host filePath s with
  | (Throw e0, s') =>
      parseFileFromPath host filePath s
      = (Throw (Error (str "Failed to read file: " ++ exn_toString e0)), s')
  | (Ok buffer, s') =>
      parseFileFromPath host filePath s = parseFile host buffer filePath s' /\
      forall e, fst (parseFileFromPath host filePath s) = Throw e ->
                startsWith (message e) (str "Failed to read file: ") = false
  end.
Proof.
  unfold parseFileFromPath. cbv [bind tryCatch ret throw].
  destruct (fs_readFileBuffer host filePath s) as [[buffer|e0] s'];
    [|reflexivity].
  split; [reflexivity|]. intros e H.
  assert (Hm : startsWith (message e) (str "Failed to parse ") = true \/
               startsWith (message e) (str "Unsupported file format: ")
               = true).
  { destruct (parseFile_error_shape buffer filePath s' e H)
      as [[_ [_ He]]|[_ [_ He]]]; [now left|now right]. }
  change (str "Failed to read file: ")
    with (str "Failed to " ++ 114%N :: str "ead file: ").
  destruct Hm as [Hm|Hm].
  - change (str "Failed to parse ")
      with (str "Failed to " ++ 112%N :: str "arse ") in Hm.
    apply startsWith_prefix in Hm as (m & -> & Hm).
    apply startsWith_head in Hm as [m' ->].
    now rewrite startsWith_app_app.
  - change (str "Unsupported file format: ")
      with (85%N :: str "nsupported file format: ") in Hm.
    apply startsWith_head in Hm as [m ->].
    change (str "Failed to ") with (70%N :: str "ailed to ").
    reflexivity.
Qed.

End FileParserFacts.

Lemma parseFile_unsupported_iff_witness :
  exists ext,
    parseFile exampleHost (str "data") (str "archive.tar.GZ") tt
    = (Throw
         (Error
            (str "Unsupported file format: " ++ ext ++
             str ". Supported formats: PDF, DOCX, DOC, TXT")), tt).
Proof.
  exact (proj1 (parseFile_unsupported_iff unit jsstring exampleHost
                  (str "data") (str "archive.tar.GZ") tt) eq_refl).
Defined.

Lemma parseFile_errors_witness :
  name (Error (str "Failed to parse PDF: Error: Invalid PDF structure"))
  = str "Error" /\
  startsWith
    (message (Error (str "Failed to parse PDF: Error: Invalid PDF structure")))
    (str "Failed to parse ") = true.
Proof.
  exact (parseFile_errors unit jsstring exampleHost (str "%PDF-1.4")
           (str "Report.PDF") tt
           (Error (str "Failed to parse PDF: Error: Invalid PDF structure"))
           eq_refl).
Defined.

Lemma parseFileFromPath_wraps_read_errors_only_witness :
  parseFileFromPath exampleHost (str "missing.pdf") tt
  = (Throw
       (Error
          (str "Failed to read file: Error: ENOENT: no such file or directory")),
     tt).
Proof.
  exact (parseFileFromPath_wraps_read_errors_only unit jsstring exampleHost
           (str "missing.pdf") tt).
Defined.
